(** * Intrear: a shallow embedding of the AST interpreter core

    This development embeds [src/interpreter.ts] (the Intrear AST node
    interpreter) and states the properties of its natural-language
    specification over that embedding.

    Modelling conventions.
    - A JavaScript [Record<string, T>] is a finite map of its own
      properties: [gmap string T] where only lookups matter
      ([ExecutionContext.variables], [TypeEnvironment.types], the memoize
      [Map]), an association list in enumeration order where
      [Object.keys] / [for ... in] walk it (object types, object literals).
      The test [name in record] also finds the names every object inherits
      from [Object.prototype] ([toString], [__proto__], ...); the maps hold
      own properties only, and the laws that depend on the difference
      exclude those names ([Further.Object_prototype_names]).
    - A [number] is an integer-valued double inside the safe range
      [-(2^53 - 1) .. 2^53 - 1]; arithmetic that leaves the range, and host
      behaviour outside the embedded fragment, yields the outcome
      [Unmodelled], which no construct catches.
    - [ExecutionContext] objects live in an arena addressed by index, since
      closures keep them alive and refer to them by reference.
    - [throw] is the outcome [Throw e]; the thrown thing is a generic
      [Error] or one of the three control signals.
    - Non-termination is a fuel counter: [OutOfFuel] is an outcome of its
      own, which no construct catches. *)

From Stdlib Require Import ZArith Lia.
From stdpp Require Import base option list strings gmap pretty.

Set Warnings "-register-all".

Open Scope string_scope.
Open Scope list_scope.

(* ===================================================================== *)
(** * Type system *)
(* ===================================================================== *)

Module Types.

(** The nine primitive tags of [Type]. *)
Inductive PrimTag : Set :=
| Tnumber | Tstring | Tboolean | Tnull | Tundefined
| Tbigint | Tsymbol | Tvoid | Tany.

#[global] Instance PrimTag_eq_dec : EqDecision PrimTag.
Proof. solve_decision. Defined.

(** [Type]: a primitive tag, or one of the three object shapes.  The
    [properties] record of an object type is kept in [Object.keys] order. *)
Inductive Ty : Type :=
| TPrim (tag : PrimTag)
| TFunction (paramTypes : list Ty) (returnType : Ty)
| TArray (elementType : Ty)
| TObject (properties : list (string * Ty)).

(** [key in record] followed by [record[key]] on an own-property record. *)
Fixpoint prop_lookup {A : Type} (key : string) (props : list (string * A))
  : option A :=
  match props with
  | [] => None
  | (k, x) :: rest => if decide (k = key) then Some x else prop_lookup key rest
  end.

(** The positional loop over two arrays of the same length. *)
Definition all2 {A B : Type} (f : A -> B -> bool) : list A -> list B -> bool :=
  fix go (l1 : list A) (l2 : list B) {struct l1} : bool :=
    match l1, l2 with
    | [], _ => true
    | x :: l1', y :: l2' => if f x y then go l1' l2' else false
    | _ :: _, [] => false
    end.

(** [compareTypes(a, b)]. *)
Fixpoint compareTypes (a b : Ty) {struct a} : bool :=
  match a, b with
  | TPrim s, TPrim t => bool_decide (s = t)
  | TFunction aps ar, TFunction bps br =>
      if negb (Nat.eqb (List.length aps) (List.length bps)) then false
      else if negb (all2 compareTypes aps bps) then false
      else compareTypes ar br
  | TArray ae, TArray be => compareTypes ae be
  | TObject aprops, TObject bprops =>
      if negb (Nat.eqb (List.length aprops) (List.length bprops)) then false
      else forallb
             (fun kt : string * Ty =>
                match prop_lookup (fst kt) bprops with
                | None => false
                | Some t' => compareTypes (snd kt) t'
                end) aprops
  | _, _ => false
  end.

(** A [Type] value is well formed when every object shape in it has
    pairwise distinct property names, which is what a JavaScript object
    guarantees. *)
Fixpoint well_formed (t : Ty) : bool :=
  match t with
  | TPrim _ => true
  | TFunction ps r => forallb well_formed ps && well_formed r
  | TArray e => well_formed e
  | TObject props =>
      bool_decide (NoDup (map fst props))
      && forallb (fun kt : string * Ty => well_formed (snd kt)) props
  end.

(** Structural equality in the specification's words: primitives by tag,
    function types positionally on parameters and then on the return type,
    array types on the element type, object types by property-name set
    equality plus per-property equality, whatever the property order. *)
Inductive type_equiv : Ty -> Ty -> Prop :=
| equiv_prim tag : type_equiv (TPrim tag) (TPrim tag)
| equiv_function ps qs r s :
    Forall2 type_equiv ps qs -> type_equiv r s ->
    type_equiv (TFunction ps r) (TFunction qs s)
| equiv_array e f : type_equiv e f -> type_equiv (TArray e) (TArray f)
| equiv_object ps qs :
    (forall k, prop_lookup k ps = None <-> prop_lookup k qs = None) ->
    (forall k ta tb, prop_lookup k ps = Some ta -> prop_lookup k qs = Some tb ->
                     type_equiv ta tb) ->
    type_equiv (TObject ps) (TObject qs).

(** [typeToString(t)]. *)
Definition tag_name (tag : PrimTag) : string :=
  match tag with
  | Tnumber => "number" | Tstring => "string" | Tboolean => "boolean"
  | Tnull => "null" | Tundefined => "undefined" | Tbigint => "bigint"
  | Tsymbol => "symbol" | Tvoid => "void" | Tany => "any"
  end.

(** [parts.join(sep)]. *)
Fixpoint join (sep : string) (parts : list string) : string :=
  match parts with
  | [] => EmptyString
  | [p] => p
  | p :: rest => p +:+ sep +:+ join sep rest
  end.

Fixpoint typeToString (t : Ty) : string :=
  match t with
  | TPrim tag => tag_name tag
  | TFunction ps r =>
      "(" +:+ join ", " (map typeToString ps) +:+ ") => " +:+ typeToString r
  | TArray e => "Array<" +:+ typeToString e +:+ ">"
  | TObject props =>
      "{ " +:+ join ", "
        (map (fun kt : string * Ty => fst kt +:+ ": " +:+ typeToString (snd kt))
             props) +:+ " }"
  end.

End Types.

(* ===================================================================== *)
(** * Abstract syntax tree *)
(* ===================================================================== *)

Module Syntax.
Import Types.

(** [varTypes]: the declared kind of a variable declaration. *)
Inductive varTypes : Set :=
| VTnumber | VTstring | VTboolean | VTnull | VTundefined | VTbigint
| VTsymbol | VTvoid | VTany | VTfunction | VTarray | VTobject.

#[global] Instance varTypes_eq_dec : EqDecision varTypes.
Proof. solve_decision. Defined.

(** The string a [varTypes] value is at run time. *)
Definition varTypes_name (k : varTypes) : string :=
  match k with
  | VTnumber => "number" | VTstring => "string" | VTboolean => "boolean"
  | VTnull => "null" | VTundefined => "undefined" | VTbigint => "bigint"
  | VTsymbol => "symbol" | VTvoid => "void" | VTany => "any"
  | VTfunction => "function" | VTarray => "array" | VTobject => "object"
  end.

(** The scalar a [LiteralNode] stores. *)
Inductive literal : Set :=
| LNum (n : Z)
| LStr (s : string)
| LBool (b : bool)
| LNull
| LUndefined
| LBigInt (n : Z).

Inductive signal_kind : Set := SigBreak | SigContinue.

(** The node classes of the interpreter.  [MethodCallNode],
    [IndexAssignmentNode], [PropertyAccessNode] and [CustomASTNode] rest on
    host objects mutated in place or on caller code and are outside the
    embedded fragment. *)
Inductive node : Type :=
| VariableDeclarationNode (varType : varTypes) (name : string) (expression : node)
| AssignmentNode (name : string) (expression : node)
| ReturnNode (expression : node)
| BreakNode
| ContinueNode
| ErrorNode (message : node)
| FunctionLiteralNode (name : option string) (params : list string)
    (body : list node) (declaredParamTypes : option (list Ty))
    (declaredReturnType : option Ty) (pure : bool)
| ArrowFunctionNode (paramNames : list string) (body : node)
| FunctionCallNode (functionName : string) (args : list node)
| LiteralNode (value : literal)
| VariableReferenceNode (name : string)
| OperatorNode (operator : string) (left right : node)
| ParameterNode (name : string)
| ArrayLiteralNode (elements : list node)
| ObjectLiteralNode (properties : list (string * node))
| BlockNode (statements : list node)
| IfNode (condition : node) (thenBranch : list node)
    (elseBranch : option (list node))
| SignalNode (signal : signal_kind)
| WhileNode (condition : node) (body : list node)
| ForNode (init condition update : node) (body : list node)
| SwitchNode (expression : node) (cases : list (node * list node))
    (defaultCase : option (list node))
| DoWhileNode (body : list node) (condition : node)
| ForEachNode (itemName : string) (iterable : node) (body : list node)
| TryCatchNode (tryBlock : list node) (catchVar : string)
    (catchBlock : list node).

End Syntax.

(* ===================================================================== *)
(** * Runtime values, signals and the execution context *)
(* ===================================================================== *)

Module Runtime.
Import Types Syntax.

(** Runtime values.  A callable remembers the context it captured by its
    index in the arena; a built-in remembers the frame whose constructor
    created it; a memoized closure remembers its cache. *)
Inductive value : Type :=
| VNum (n : Z)
| VStr (s : string)
| VBool (b : bool)
| VNull
| VUndefined
| VBigInt (n : Z)
| VArray (elems : list value)
| VObject (props : list (string * value))
| VErrorObj (message : string)
| VBuiltin (name : string) (owner : nat)
| VClosure (params : list string) (body : list node) (outerContext : nat)
    (cache : option nat)
| VArrow (paramNames : list string) (body : node) (context : nat).

(** What a [throw] carries. *)
Inductive thrown : Type :=
| JsError (message : string)
| ReturnSignal (v : value)
| BreakSignal
| ContinueSignal.

Inductive failure : Type :=
| Thrown (e : thrown)
| OutOfFuel
| Unmodelled.

Inductive outcome (A : Type) : Type :=
| Normal (a : A)
| Fail (f : failure).
Arguments Normal {A} a.
Arguments Fail {A} f.

Abbreviation Throw e := (Fail (Thrown e)).

(** [class ExecutionContext]. *)
Record ExecutionContext : Type := mkContext {
  variables : gmap string value;
  parent : option nat;
  breakSignal : bool;
  continueSignal : bool
}.

(** The store: every context ever constructed, every memoize cache ever
    created, and what [console.log] has written. *)
Record heap : Type := mkHeap {
  contexts : list ExecutionContext;
  caches : list (gmap string value);
  console : list (list value)
}.

Definition empty_heap : heap := mkHeap [] [] [].

Definition M (A : Type) : Type := heap -> outcome A * heap.

Definition ret {A} (a : A) : M A := fun h => (Normal a, h).
Definition fail {A} (f : failure) : M A := fun h => (Fail f, h).
Definition throw_error {A} (message : string) : M A :=
  fail (Thrown (JsError message)).
Definition bind {A B} (m : M A) (k : A -> M B) : M B :=
  fun h => match m h with
           | (Normal a, h') => k a h'
           | (Fail f, h') => (Fail f, h')
           end.

Notation "'let!' x := m 'in' k" := (bind m (fun x => k))
  (at level 10, x name, m at level 100, k at level 200).

(** [setVariable(name, value)] on the context at index [ctx]. *)
Definition set_in_context (name : string) (v : value) (c : ExecutionContext)
  : ExecutionContext :=
  mkContext (<[name := v]> (variables c)) (parent c)
            (breakSignal c) (continueSignal c).

Definition setVariable (ctx : nat) (name : string) (v : value) (h : heap)
  : heap :=
  mkHeap (alter (set_in_context name v) ctx (contexts h)) (caches h) (console h).

(** The ten names [injectBuiltIns] binds, in its order. *)
Definition builtin_names : list string :=
  ["print"; "typeOf"; "now"; "random"; "isNaN";
   "abs"; "sqrt"; "floor"; "ceil"; "fetch"].

Definition injectBuiltIns (ctx : nat) (h : heap) : heap :=
  fold_left (fun h' name => setVariable ctx name (VBuiltin name ctx) h')
            builtin_names h.

(** [new ExecutionContext(parent)]: a fresh object, then [injectBuiltIns]. *)
Definition new_ExecutionContext (parent : option nat) (h : heap) : nat * heap :=
  let ctx := List.length (contexts h) in
  (ctx, injectBuiltIns ctx
          (mkHeap (contexts h ++ [mkContext ∅ parent false false])
                  (caches h) (console h))).

Definition createChildContext (ctx : nat) (h : heap) : nat * heap :=
  new_ExecutionContext (Some ctx) h.

(** [getVariable(name)]: the walk along [parent].  A frame's parent was
    constructed before it, so [S ctx] steps always reach the root. *)
Fixpoint lookup_chain (steps : nat) (ctxs : list ExecutionContext)
    (ctx : nat) (name : string) : outcome value :=
  match steps with
  | 0 => Fail Unmodelled
  | S steps' =>
      match ctxs !! ctx with
      | None => Fail Unmodelled
      | Some c =>
          match variables c !! name with
          | Some v => Normal v
          | None =>
              match parent c with
              | Some p => lookup_chain steps' ctxs p name
              | None => Throw (JsError ("Undefined variable: " +:+ name))
              end
          end
      end
  end.

Definition getVariable (ctx : nat) (name : string) : M value :=
  fun h => (lookup_chain (S ctx) (contexts h) ctx name, h).

(** The own binding of a frame, if any. *)
Definition own_binding (h : heap) (ctx : nat) (name : string) : option value :=
  c ← contexts h !! ctx; variables c !! name.

Definition breakSignal_of (ctx : nat) (h : heap) : bool :=
  match contexts h !! ctx with
  | Some c => breakSignal c
  | None => false
  end.

Definition set_signal (ctx : nat) (signal : signal_kind) (h : heap) : heap :=
  mkHeap (alter (fun c =>
                   match signal with
                   | SigBreak =>
                       mkContext (variables c) (parent c) true (continueSignal c)
                   | SigContinue =>
                       mkContext (variables c) (parent c) (breakSignal c) true
                   end) ctx (contexts h))
         (caches h) (console h).


(** ** Host operations on values *)

Definition value_of_literal (l : literal) : value :=
  match l with
  | LNum n => VNum n
  | LStr s => VStr s
  | LBool b => VBool b
  | LNull => VNull
  | LUndefined => VUndefined
  | LBigInt n => VBigInt n
  end.

(** [typeof v]. *)
Definition js_typeof (v : value) : string :=
  match v with
  | VNum _ => "number"
  | VStr _ => "string"
  | VBool _ => "boolean"
  | VUndefined => "undefined"
  | VBigInt _ => "bigint"
  | VNull | VArray _ | VObject _ | VErrorObj _ => "object"
  | VBuiltin _ _ | VClosure _ _ _ _ | VArrow _ _ _ => "function"
  end.

(** [Array.isArray(v)]. *)
Definition isArray (v : value) : bool :=
  match v with VArray _ => true | _ => false end.

(** [Boolean(v)]. *)
Definition truthy (v : value) : bool :=
  match v with
  | VNum n => negb (Z.eqb n 0)
  | VStr s => negb (bool_decide (s = EmptyString))
  | VBool b => b
  | VNull | VUndefined => false
  | VBigInt n => negb (Z.eqb n 0)
  | _ => true
  end.

(** The integers a double holds exactly. *)
Definition safe_integer (z : Z) : bool :=
  Z.leb (- (2 ^ 53 - 1)) z && Z.leb z (2 ^ 53 - 1).

Definition num_result (z : Z) : outcome value :=
  if safe_integer z then Normal (VNum z) else Fail Unmodelled.

(** [String(v)]; the source text of a function is not modelled. *)
Fixpoint js_String (v : value) : option string :=
  match v with
  | VNum n => Some (pretty n)
  | VStr s => Some s
  | VBool b => Some (if b then "true" else "false")
  | VNull => Some "null"
  | VUndefined => Some "undefined"
  | VBigInt n => Some (pretty n)
  | VArray elems =>
      join "," <$>
        mapM (fun e => match e with
                       | VNull | VUndefined => Some EmptyString
                       | _ => js_String e
                       end) elems
  | VObject _ => Some "[object Object]"
  | VErrorObj message =>
      Some (if bool_decide (message = EmptyString) then "Error"
            else "Error: " +:+ message)
  | VBuiltin _ _ | VClosure _ _ _ _ | VArrow _ _ _ => None
  end.

(** [a === b]; the identity of two arrays, objects or closures is not
    modelled. *)
Definition strict_eq (a b : value) : option bool :=
  match a, b with
  | VNum x, VNum y => Some (Z.eqb x y)
  | VStr x, VStr y => Some (bool_decide (x = y))
  | VBool x, VBool y => Some (bool_decide (x = y))
  | VNull, VNull => Some true
  | VUndefined, VUndefined => Some true
  | VBigInt x, VBigInt y => Some (Z.eqb x y)
  | VBuiltin x o, VBuiltin y p => Some (bool_decide (x = y) && Nat.eqb o p)
  | (VNum _ | VStr _ | VBool _ | VNull | VUndefined | VBigInt _), _ => Some false
  | _, (VNum _ | VStr _ | VBool _ | VNull | VUndefined | VBigInt _) => Some false
  | VBuiltin _ _, _ | _, VBuiltin _ _ => Some false
  | _, _ => None
  end.

(** ** [JSON.stringify] *)

Definition dquote : string := String (Ascii.ascii_of_nat 34) EmptyString.

Definition hex_digit (n : nat) : string :=
  String (Ascii.ascii_of_nat (if Nat.ltb n 10 then 48 + n else 87 + n))
         EmptyString.

Definition json_escape_char (c : Ascii.ascii) : string :=
  let n := Ascii.nat_of_ascii c in
  if Nat.eqb n 34 then "\" +:+ dquote
  else if Nat.eqb n 92 then "\\"
  else if Nat.eqb n 8 then "\b"
  else if Nat.eqb n 9 then "\t"
  else if Nat.eqb n 10 then "\n"
  else if Nat.eqb n 12 then "\f"
  else if Nat.eqb n 13 then "\r"
  else if Nat.ltb n 32 then "\u00" +:+ hex_digit (n / 16) +:+ hex_digit (n mod 16)
  else String c EmptyString.

Fixpoint json_escape (s : string) : string :=
  match s with
  | EmptyString => EmptyString
  | String c rest => json_escape_char c +:+ json_escape rest
  end.

Definition json_quote (s : string) : string :=
  dquote +:+ json_escape s +:+ dquote.

(** What [JSON.stringify] makes of one value: a text, nothing (for
    [undefined] and functions), or a [TypeError] (for a [bigint]). *)
Inductive json_out : Type :=
| JText (text : string)
| JOmitted
| JTypeError.

Definition json_failed (o : json_out) : bool :=
  match o with JTypeError => true | _ => false end.

Definition json_array (items : list json_out) : json_out :=
  if existsb json_failed items then JTypeError
  else JText ("[" +:+ join ","
                (map (fun o => match o with JText t => t | _ => "null" end) items)
              +:+ "]").

Definition json_object (items : list (string * json_out)) : json_out :=
  if existsb (fun kv => json_failed (snd kv)) items then JTypeError
  else JText ("{" +:+ join ","
                (omap (fun kv : string * json_out =>
                         match snd kv with
                         | JText t => Some (json_quote (fst kv) +:+ ":" +:+ t)
                         | _ => None
                         end) items)
              +:+ "}").

Fixpoint json_of (v : value) : json_out :=
  match v with
  | VNum n => JText (pretty n)
  | VStr s => JText (json_quote s)
  | VBool b => JText (if b then "true" else "false")
  | VNull => JText "null"
  | VUndefined => JOmitted
  | VBigInt _ => JTypeError
  | VArray elems => json_array (map json_of elems)
  | VObject props =>
      json_object (map (fun kv : string * value => (fst kv, json_of (snd kv)))
                       props)
  | VErrorObj _ => JText "{}"
  | VBuiltin _ _ | VClosure _ _ _ _ | VArrow _ _ _ => JOmitted
  end.

(** [JSON.stringify(args)] for an argument array: the key of the memoize
    cache, or [None] when it throws. *)
Definition JSON_stringify (args : list value) : option string :=
  match json_array (map json_of args) with
  | JText t => Some t
  | _ => None
  end.

End Runtime.

(* ===================================================================== *)
(** * Execution pass *)
(* ===================================================================== *)

Module Exec.
Import Types Syntax Runtime.

(** The [switch] of [OperatorNode.execute], once both operands are
    evaluated. *)
Definition apply_operator (operator : string) (leftVal rightVal : value)
  : outcome value :=
  if decide (operator = "+") then
    match leftVal, rightVal with
    | VNum x, VNum y => num_result (x + y)
    | VBigInt x, VBigInt y => Normal (VBigInt (x + y))
    | VStr x, (VNum _ | VStr _ | VBool _ | VNull | VUndefined | VBigInt _) =>
        match js_String rightVal with
        | Some y => Normal (VStr (x +:+ y))
        | None => Fail Unmodelled
        end
    | (VNum _ | VBool _ | VNull | VUndefined | VBigInt _), VStr y =>
        match js_String leftVal with
        | Some x => Normal (VStr (x +:+ y))
        | None => Fail Unmodelled
        end
    | _, _ => Fail Unmodelled
    end
  else if decide (operator = "-") then
    match leftVal, rightVal with
    | VNum x, VNum y => num_result (x - y)
    | VBigInt x, VBigInt y => Normal (VBigInt (x - y))
    | _, _ => Fail Unmodelled
    end
  else if decide (operator = "*") then
    match leftVal, rightVal with
    | VNum x, VNum y => num_result (x * y)
    | VBigInt x, VBigInt y => Normal (VBigInt (x * y))
    | _, _ => Fail Unmodelled
    end
  else if decide (operator = "/") then
    match leftVal, rightVal with
    | VNum x, VNum y =>
        if negb (Z.eqb y 0) && Z.eqb (x mod y) 0 then num_result (x / y)
        else Fail Unmodelled
    | _, _ => Fail Unmodelled
    end
  else if decide (operator = "//") then
    match leftVal, rightVal with
    | VNum x, VNum y =>
        if negb (Z.eqb y 0) then num_result (x / y) else Fail Unmodelled
    | _, _ => Fail Unmodelled
    end
  else if decide (operator = "^") then
    match leftVal, rightVal with
    | VNum x, VNum y =>
        if Z.leb 0 y then num_result (x ^ y) else Fail Unmodelled
    | _, _ => Fail Unmodelled
    end
  else if decide (operator = "==") then
    match strict_eq leftVal rightVal with
    | Some b => Normal (VBool b)
    | None => Fail Unmodelled
    end
  else if decide (operator = "!==") then
    match strict_eq leftVal rightVal with
    | Some b => Normal (VBool (negb b))
    | None => Fail Unmodelled
    end
  else if decide (operator = "<") then
    match leftVal, rightVal with
    | VNum x, VNum y | VBigInt x, VBigInt y => Normal (VBool (Z.ltb x y))
    | _, _ => Fail Unmodelled
    end
  else if decide (operator = "<=") then
    match leftVal, rightVal with
    | VNum x, VNum y | VBigInt x, VBigInt y => Normal (VBool (Z.leb x y))
    | _, _ => Fail Unmodelled
    end
  else if decide (operator = ">") then
    match leftVal, rightVal with
    | VNum x, VNum y | VBigInt x, VBigInt y => Normal (VBool (Z.gtb x y))
    | _, _ => Fail Unmodelled
    end
  else if decide (operator = ">=") then
    match leftVal, rightVal with
    | VNum x, VNum y | VBigInt x, VBigInt y => Normal (VBool (Z.geb x y))
    | _, _ => Fail Unmodelled
    end
  else if decide (operator = "&&") then
    Normal (VBool (truthy leftVal && truthy rightVal))
  else if decide (operator = "||") then
    Normal (VBool (truthy leftVal || truthy rightVal))
  else if decide (operator = "concat") then
    match leftVal, rightVal with
    | VArray xs, VArray ys => Normal (VArray (xs ++ ys))
    | _, _ => Throw (JsError "Operator 'concat' requires two arrays.")
    end
  else if decide (operator = "><") then
    match js_String leftVal, js_String rightVal with
    | Some x, Some y => Normal (VStr (x +:+ y))
    | _, _ => Fail Unmodelled
    end
  else Throw (JsError ("Unknown operator: " +:+ operator)).

(** The [typeChecks] record of [VariableDeclarationNode.execute]. *)
Definition typeChecks : list (string * ((value -> bool) * string)) :=
  [ ("number", (fun v => bool_decide (js_typeof v = "number"), "number"));
    ("string", (fun v => bool_decide (js_typeof v = "string"), "string"));
    ("boolean", (fun v => bool_decide (js_typeof v = "boolean"), "boolean"));
    ("undefined", (fun v => match v with VUndefined => true | _ => false end,
                   "undefined"));
    ("null", (fun v => match v with VNull => true | _ => false end, "null"));
    ("bigint", (fun v => bool_decide (js_typeof v = "bigint"), "bigint"));
    ("array", (isArray, "array"));
    ("object", (fun v => match v with
                         | VNull => false
                         | _ => bool_decide (js_typeof v = "object")
                                && negb (isArray v)
                         end, "object")) ].

(** [val === null ? "null" : Array.isArray(val) ? "array" : typeof val]. *)
Definition got_name (val : value) : string :=
  match val with
  | VNull => "null"
  | _ => if isArray val then "array" else js_typeof val
  end.

(** The built-in callables of [injectBuiltIns]. *)
Definition call_builtin (name : string) (args : list value) : M value :=
  let x := nth 0 args VUndefined in
  if decide (name = "print") then
    fun h => (Normal VUndefined,
              mkHeap (contexts h) (caches h) (console h ++ [args]))
  else if decide (name = "typeOf") then
    ret (VStr (if isArray x then "array" else js_typeof x))
  else if decide (name = "isNaN") then
    match x with
    | VNum _ => ret (VBool false)
    | VUndefined => ret (VBool true)
    | _ => fail Unmodelled
    end
  else if decide (name = "abs") then
    match x with VNum n => ret (VNum (Z.abs n)) | _ => fail Unmodelled end
  else if decide (name = "sqrt") then
    match x with
    | VNum n =>
        if Z.leb 0 n && Z.eqb (Z.sqrt n * Z.sqrt n) n then ret (VNum (Z.sqrt n))
        else fail Unmodelled
    | _ => fail Unmodelled
    end
  else if decide (name = "floor") then
    match x with VNum n => ret (VNum n) | _ => fail Unmodelled end
  else if decide (name = "ceil") then
    match x with VNum n => ret (VNum n) | _ => fail Unmodelled end
  else fail Unmodelled.

(** ** Memoization *)

Definition cache_lookup (cid : nat) (key : string) (h : heap) : option value :=
  c ← caches h !! cid; c !! key.

Definition cache_set (cid : nat) (key : string) (v : value) (h : heap) : heap :=
  mkHeap (contexts h) (alter (fun c => <[key := v]> c) cid (caches h)) (console h).

(** [memoize(fn)] applied to [args], for the cache [cid] that this
    [memoize] call created. *)
Definition memoize (fn : list value -> M value) (cid : nat)
    (args : list value) : M value :=
  fun h =>
    match JSON_stringify args with
    | None => (Throw (JsError "Do not know how to serialize a BigInt"), h)
    | Some key =>
        match cache_lookup cid key h with
        | Some cached => (Normal cached, h)
        | None =>
            match fn args h with
            | (Normal result, h') => (Normal result, cache_set cid key result h')
            | (Fail f, h') => (Fail f, h')
            end
        end
    end.

(** [FunctionLiteralNode.toFunction(outerContext)]: the callable; a pure
    literal gets a cache of its own. *)
Definition toFunction (params : list string) (body : list node) (pure : bool)
    (outerContext : nat) (h : heap) : value * heap :=
  if pure then
    (VClosure params body outerContext (Some (List.length (caches h))),
     mkHeap (contexts h) (caches h ++ [∅]) (console h))
  else (VClosure params body outerContext None, h).

(** [names.forEach((p, i) => ctx.setVariable(p, args[i]))]. *)
Fixpoint bind_from (i : nat) (names : list string) (args : list value)
    (ctx : nat) (h : heap) : heap :=
  match names with
  | [] => h
  | p :: rest =>
      bind_from (S i) rest args ctx (setVariable ctx p (nth i args VUndefined) h)
  end.

Section WithExec.

(** [stmt.execute(ctx)] for the nodes below the current one. *)
Variable exec : node -> nat -> M value.

(** [for (const stmt of stmts) result = stmt.execute(ctx)]: how the loop
    ended ([None]: it ran to its end), the last value assigned to [result],
    and the store. *)
Fixpoint run_stmts (stmts : list node) (ctx : nat) (result : value) (h : heap)
  : option failure * value * heap :=
  match stmts with
  | [] => (None, result, h)
  | stmt :: rest =>
      match exec stmt ctx h with
      | (Normal v, h') => run_stmts rest ctx v h'
      | (Fail f, h') => (Some f, result, h')
      end
  end.

Definition finish (r : option failure * value * heap) : outcome value * heap :=
  match r with
  | (None, result, h) => (Normal result, h)
  | (Some f, _, h) => (Fail f, h)
  end.

(** The arrow function [fn] of [FunctionLiteralNode.toFunction]. *)
Definition call_fn (params : list string) (body : list node)
    (outerContext : nat) (args : list value) : M value :=
  fun h =>
    let '(localCtx, h1) := createChildContext outerContext h in
    if negb (Nat.eqb (List.length args) (List.length params))
    then (Throw (JsError "Argument count mismatch."), h1)
    else
      match run_stmts body localCtx VUndefined
                      (bind_from 0 params args localCtx h1) with
      | (None, _, h3) => (Normal VUndefined, h3)
      | (Some (Thrown (ReturnSignal v)), _, h3) => (Normal v, h3)
      | (Some f, _, h3) => (Fail f, h3)
      end.

(** The closure of [ArrowFunctionNode.toFunction]. *)
Definition call_arrow (paramNames : list string) (body : node) (context : nat)
    (args : list value) : M value :=
  fun h =>
    let '(childCtx, h1) := createChildContext context h in
    exec body childCtx (bind_from 0 paramNames args childCtx h1).

(** [value(...evaluated)]. *)
Definition call_value (f : value) (args : list value) : M value :=
  match f with
  | VBuiltin name _ => call_builtin name args
  | VClosure params body outerContext None =>
      call_fn params body outerContext args
  | VClosure params body outerContext (Some cid) =>
      memoize (call_fn params body outerContext) cid args
  | VArrow paramNames body context => call_arrow paramNames body context args
  | _ => fail Unmodelled
  end.

(** The argument list of a call: a function literal is converted in place,
    anything else is executed. *)
Fixpoint eval_args (args : list node) (ctx : nat) : M (list value) :=
  match args with
  | [] => ret []
  | arg :: rest =>
      let! v := match arg with
                | FunctionLiteralNode _ params body _ _ pure =>
                    fun h => let '(f, h') := toFunction params body pure ctx h in
                             (Normal f, h')
                | _ => exec arg ctx
                end in
      let! vs := eval_args rest ctx in
      ret (v :: vs)
  end.

(** [elements.map((el) => el.execute(context))]. *)
Fixpoint exec_list (elements : list node) (ctx : nat) : M (list value) :=
  match elements with
  | [] => ret []
  | el :: rest =>
      let! v := exec el ctx in
      let! vs := exec_list rest ctx in
      ret (v :: vs)
  end.

(** [for (const key in properties) result[key] = ....execute(context)]. *)
Fixpoint exec_props (properties : list (string * node)) (ctx : nat)
  : M (list (string * value)) :=
  match properties with
  | [] => ret []
  | (key, el) :: rest =>
      let! v := exec el ctx in
      let! vs := exec_props rest ctx in
      ret ((key, v) :: vs)
  end.

(** The body of a scope node: a fresh child context, then its statements. *)
Definition run_scope (stmts : list node) (ctx : nat) : M value :=
  fun h =>
    let '(childCtx, h1) := createChildContext ctx h in
    finish (run_stmts stmts childCtx VUndefined h1).

(** [WhileNode.execute]: the [while (true)] loop, [result] carried along. *)
Fixpoint while_loop (fuel : nat) (condition : node) (body : list node)
    (context : nat) (result : value) (h : heap) : outcome value * heap :=
  match fuel with
  | 0 => (Fail OutOfFuel, h)
  | S fuel' =>
      match exec condition context h with
      | (Normal (VBool cond), h1) =>
          if negb cond then (Normal result, h1)
          else
            let '(loopCtx, h2) := createChildContext context h1 in
            match run_stmts body context result h2 with
            | (Some (Thrown ContinueSignal), result', h3) =>
                while_loop fuel' condition body context result' h3
            | (Some (Thrown BreakSignal), result', h3) => (Normal result', h3)
            | (Some f, _, h3) => (Fail f, h3)
            | (None, result', h3) =>
                if breakSignal_of loopCtx h3 then (Normal result', h3)
                else while_loop fuel' condition body context result' h3
            end
      | (Normal _, h1) => (Throw (JsError "Condition must be boolean"), h1)
      | (Fail f, h1) => (Fail f, h1)
      end
  end.

(** [ForNode.execute], after [init]. *)
Fixpoint for_loop (fuel : nat) (condition update : node) (body : list node)
    (context : nat) (result : value) (h : heap) : outcome value * heap :=
  match fuel with
  | 0 => (Fail OutOfFuel, h)
  | S fuel' =>
      match exec condition context h with
      | (Normal (VBool cond), h1) =>
          if negb cond then (Normal result, h1)
          else
            let '(loopCtx, h2) := createChildContext context h1 in
            let tried :=
              match run_stmts body loopCtx result h2 with
              | (None, result', h3) =>
                  match exec update context h3 with
                  | (Normal _, h4) => (None, result', h4)
                  | (Fail f, h4) => (Some f, result', h4)
                  end
              | r => r
              end in
            match tried with
            | (Some (Thrown ContinueSignal), result', h3) =>
                match exec update context h3 with
                | (Normal _, h4) =>
                    for_loop fuel' condition update body context result' h4
                | (Fail f, h4) => (Fail f, h4)
                end
            | (Some (Thrown BreakSignal), result', h3) => (Normal result', h3)
            | (Some f, _, h3) => (Fail f, h3)
            | (None, result', h3) =>
                for_loop fuel' condition update body context result' h3
            end
      | (Normal _, h1) => (Throw (JsError "Condition must be boolean"), h1)
      | (Fail f, h1) => (Fail f, h1)
      end
  end.

(** [DoWhileNode.execute]: the [do ... while (condition.execute(context))]
    loop. *)
Fixpoint do_while_loop (fuel : nat) (body : list node) (condition : node)
    (context : nat) (result : value) (h : heap) : outcome value * heap :=
  match fuel with
  | 0 => (Fail OutOfFuel, h)
  | S fuel' =>
      let '(childCtx, h1) := createChildContext context h in
      let again (result' : value) (h2 : heap) :=
        match exec condition context h2 with
        | (Normal c, h3) =>
            if truthy c
            then do_while_loop fuel' body condition context result' h3
            else (Normal result', h3)
        | (Fail f, h3) => (Fail f, h3)
        end in
      match run_stmts body childCtx result h1 with
      | (Some (Thrown ContinueSignal), result', h2) => again result' h2
      | (Some (Thrown BreakSignal), result', h2) => (Normal result', h2)
      | (Some f, _, h2) => (Fail f, h2)
      | (None, result', h2) =>
          if breakSignal_of childCtx h2 then (Normal result', h2)
          else again result' h2
      end
  end.

(** [ForEachNode.execute], once the iterable is known to be an array. *)
Fixpoint for_each_loop (itemName : string) (body : list node) (context : nat)
    (items : list value) (result : value) (h : heap) : outcome value * heap :=
  match items with
  | [] => (Normal result, h)
  | item :: rest =>
      let '(loopCtx, h1) := createChildContext context h in
      match run_stmts body loopCtx result
                      (setVariable loopCtx itemName item h1) with
      | (Some (Thrown ContinueSignal), result', h2) =>
          for_each_loop itemName body context rest result' h2
      | (Some (Thrown BreakSignal), result', h2) => (Normal result', h2)
      | (Some f, _, h2) => (Fail f, h2)
      | (None, result', h2) =>
          for_each_loop itemName body context rest result' h2
      end
  end.

(** [SwitchNode.execute], once the control expression is evaluated. *)
Fixpoint switch_cases (v : value) (cases : list (node * list node))
    (defaultCase : option (list node)) (context : nat) : M value :=
  match cases with
  | [] =>
      match defaultCase with
      | Some stmts => run_scope stmts context
      | None => ret VUndefined
      end
  | (matchNode, body) :: rest =>
      let! mv := exec matchNode context in
      match strict_eq v mv with
      | Some true => run_scope body context
      | Some false => switch_cases v rest defaultCase context
      | None => fail Unmodelled
      end
  end.

(** [TryCatchNode.execute]. *)
Definition try_catch (tryBlock : list node) (catchVar : string)
    (catchBlock : list node) (context : nat) : M value :=
  fun h =>
    let '(tryCtx, h1) := createChildContext context h in
    match run_stmts tryBlock tryCtx VUndefined h1 with
    | (None, result, h2) => (Normal result, h2)
    | (Some (Thrown (JsError message)), _, h2) =>
        let '(catchCtx, h3) := createChildContext context h2 in
        finish (run_stmts catchBlock catchCtx VUndefined
                  (setVariable catchCtx catchVar (VErrorObj message) h3))
    | (Some f, _, h2) => (Fail f, h2)
    end.

End WithExec.

(** [node.execute(context)]. *)
Fixpoint execute (fuel : nat) (n : node) (context : nat) {struct fuel}
  : M value :=
  match fuel with
  | 0 => fail OutOfFuel
  | S fuel' =>
      let exec := execute fuel' in
      match n with
      | VariableDeclarationNode varType name expression =>
          if decide (varType = VTfunction) then
            match expression with
            | FunctionLiteralNode _ params body _ _ pure =>
                fun h =>
                  let '(val, h1) := toFunction params body pure context h in
                  (Normal val, setVariable context name val h1)
            | ArrowFunctionNode paramNames body =>
                fun h =>
                  let val := VArrow paramNames body context in
                  (Normal val, setVariable context name val h)
            | _ =>
                throw_error ("Variable '" +:+ name
                             +:+ "' expected a function literal")
            end
          else
            let! val := exec expression context in
            match prop_lookup (varTypes_name varType) typeChecks with
            | None =>
                throw_error ("Unsupported variable type: "
                             +:+ varTypes_name varType)
            | Some (checkFn, expected) =>
                if negb (checkFn val) then
                  throw_error ("Variable '" +:+ name +:+ "' expected "
                               +:+ expected +:+ ", got " +:+ got_name val)
                else fun h => (Normal val, setVariable context name val h)
            end
      | AssignmentNode name expression =>
          let! v := exec expression context in
          fun h => (Normal v, setVariable context name v h)
      | ReturnNode expression =>
          let! v := exec expression context in
          fail (Thrown (ReturnSignal v))
      | BreakNode => fail (Thrown BreakSignal)
      | ContinueNode => fail (Thrown ContinueSignal)
      | ErrorNode message =>
          let! msg := exec message context in
          match js_String msg with
          | Some text => throw_error text
          | None => fail Unmodelled
          end
      | FunctionLiteralNode _ _ _ _ _ _ =>
          throw_error
            "Function literal must be transformed into a callable via toFunction()."
      | ArrowFunctionNode _ _ =>
          throw_error
            "Arrow function must be transformed into a callable via toFunction()."
      | FunctionCallNode functionName args =>
          let! f := getVariable context functionName in
          if negb (bool_decide (js_typeof f = "function")) then
            throw_error ("'" +:+ functionName +:+ "' is not callable")
          else
            let! evaluated := eval_args exec args context in
            call_value exec f evaluated
      | LiteralNode l => ret (value_of_literal l)
      | VariableReferenceNode name => getVariable context name
      | OperatorNode operator lhs rhs =>
          let! leftVal := exec lhs context in
          let! rightVal := exec rhs context in
          fun h => (apply_operator operator leftVal rightVal, h)
      | ParameterNode name => ret (VStr name)
      | ArrayLiteralNode elements =>
          let! vs := exec_list exec elements context in
          ret (VArray vs)
      | ObjectLiteralNode properties =>
          let! props := exec_props exec properties context in
          ret (VObject props)
      | BlockNode statements => run_scope exec statements context
      | IfNode condition thenBranch elseBranch =>
          let! cond := exec condition context in
          match cond with
          | VBool b =>
              run_scope exec
                (if b then thenBranch else default [] elseBranch) context
          | _ => throw_error "Condition must be boolean"
          end
      | SignalNode signal =>
          fun h => (Normal VUndefined, set_signal context signal h)
      | WhileNode condition body =>
          while_loop exec fuel' condition body context VUndefined
      | ForNode init condition update body =>
          let! _ := exec init context in
          for_loop exec fuel' condition update body context VUndefined
      | SwitchNode expression cases defaultCase =>
          let! v := exec expression context in
          switch_cases exec v cases defaultCase context
      | DoWhileNode body condition =>
          do_while_loop exec fuel' body condition context VUndefined
      | ForEachNode itemName iterable body =>
          let! array := exec iterable context in
          match array with
          | VArray items =>
              for_each_loop exec itemName body context items VUndefined
          | _ => throw_error "Target is not iterable"
          end
      | TryCatchNode tryBlock catchVar catchBlock =>
          try_catch exec tryBlock catchVar catchBlock context
      end
  end.

(** [new Interpreter(nodes).execute()]: the root context, or what stopped
    the sequence. *)
Definition Interpreter_execute (fuel : nat) (nodes : list node)
  : outcome nat * heap :=
  let '(context, h) := new_ExecutionContext None empty_heap in
  match run_stmts (execute fuel) nodes context VUndefined h with
  | (None, _, h') => (Normal context, h')
  | (Some f, _, h') => (Fail f, h')
  end.

End Exec.

(* ===================================================================== *)
(** * Type environment and the inference pass *)
(* ===================================================================== *)

Module Infer.
Import Types Syntax Runtime.

(** [class TypeEnvironment]: the frame of the current scope first, then its
    parents.  Inference never keeps a child environment once its scope is
    left, so the chain is a stack. *)
Definition TypeEnvironment : Type := list (gmap string Ty).

(** [new TypeEnvironment()]. *)
Definition root_environment : TypeEnvironment := [∅].

Definition createChild (env : TypeEnvironment) : TypeEnvironment := ∅ :: env.

(** What [inferType] ends in: a type, or [throw new Error(message)]. *)
Inductive inference (A : Type) : Type :=
| Inferred (a : A)
| Rejected (message : string).
Arguments Inferred {A} a.
Arguments Rejected {A} message.

Fixpoint getType (env : TypeEnvironment) (name : string) : inference Ty :=
  match env with
  | [] => Rejected ("Undefined variable (type): " +:+ name)
  | types :: parent =>
      match types !! name with
      | Some t => Inferred t
      | None => getType parent name
      end
  end.

Definition setType (name : string) (t : Ty) (env : TypeEnvironment)
  : TypeEnvironment :=
  match env with
  | [] => []
  | types :: parent => <[name := t]> types :: parent
  end.

(** [JSON.stringify(t)] for a [Type]. *)
Fixpoint type_json (t : Ty) : string :=
  match t with
  | TPrim tag => json_quote (tag_name tag)
  | TFunction ps r =>
      "{" +:+ json_quote "kind" +:+ ":" +:+ json_quote "function" +:+ ","
      +:+ json_quote "paramTypes" +:+ ":[" +:+ join "," (map type_json ps)
      +:+ "]," +:+ json_quote "returnType" +:+ ":" +:+ type_json r +:+ "}"
  | TArray e =>
      "{" +:+ json_quote "kind" +:+ ":" +:+ json_quote "array" +:+ ","
      +:+ json_quote "elementType" +:+ ":" +:+ type_json e +:+ "}"
  | TObject props =>
      "{" +:+ json_quote "kind" +:+ ":" +:+ json_quote "object" +:+ ","
      +:+ json_quote "properties" +:+ ":{"
      +:+ join "," (map (fun kt : string * Ty =>
                           json_quote (fst kt) +:+ ":" +:+ type_json (snd kt))
                        props)
      +:+ "}}"
  end.

(** The [typeMap] record of [VariableDeclarationNode.inferType]. *)
Definition typeMap (actualType : Ty) : list (string * Ty) :=
  [ ("n_", TPrim Tnumber); ("s_", TPrim Tstring); ("b_", TPrim Tboolean);
    ("u_", TPrim Tundefined); ("l_", TPrim Tnull); ("x_", TPrim Tbigint);
    ("a_", actualType); ("o_", actualType); ("f_", actualType) ].

Definition literal_type (l : literal) : Ty :=
  match l with
  | LNum _ => TPrim Tnumber
  | LStr _ => TPrim Tstring
  | LBool _ => TPrim Tboolean
  | LNull => TPrim Tnull
  | LUndefined => TPrim Tundefined
  | LBigInt _ => TPrim Tbigint
  end.

Definition is_prim (tag : PrimTag) (t : Ty) : bool :=
  match t with
  | TPrim tag' => bool_decide (tag' = tag)
  | _ => false
  end.

(** The [switch] of [OperatorNode.inferType]. *)
Definition operator_type (operator : string) (leftType rightType : Ty)
  : inference Ty :=
  if bool_decide (operator ∈ ["o_plus"; "o_minus"; "o_mul"; "o_div";
                              "o_idiv"; "o_pow"]) then
    if negb (is_prim Tnumber leftType) || negb (is_prim Tnumber rightType)
    then Rejected (operator +:+ " requires numeric operands.")
    else Inferred (TPrim Tnumber)
  else if bool_decide (operator ∈ ["o_eq"; "o_neq"; "o_lt"; "o_lte";
                                   "o_gt"; "o_gte"]) then
    if negb (compareTypes leftType rightType)
    then Rejected (operator +:+ " requires operands of same type.")
    else Inferred (TPrim Tboolean)
  else if bool_decide (operator ∈ ["o_and"; "o_or"]) then
    if negb (is_prim Tboolean leftType) || negb (is_prim Tboolean rightType)
    then Rejected (operator +:+ " requires boolean operands.")
    else Inferred (TPrim Tboolean)
  else if decide (operator = "o_concat") then
    match leftType, rightType with
    | TPrim _, _ | _, TPrim _ =>
        Rejected "Operator 'concat' requires both operands to be arrays."
    | TArray le, TArray re =>
        Inferred (TArray (if compareTypes le re then le else TPrim Tany))
    | _, _ => Rejected "Operator 'concat' requires both operands to be arrays."
    end
  else Rejected ("Unknown operator in type inference: " +:+ operator).

Definition IM (A : Type) : Type :=
  TypeEnvironment -> inference A * TypeEnvironment.

Section WithInfer.

(** [stmt.inferType(env)] for the nodes below the current one. *)
Variable infer : node -> IM Ty.

(** [for (const stmt of stmts) type = stmt.inferType(env)]. *)
Definition infer_stmts : list node -> Ty -> IM Ty :=
  fix go (stmts : list node) (last : Ty) (env : TypeEnvironment) :=
    match stmts with
    | [] => (Inferred last, env)
    | stmt :: rest =>
        match infer stmt env with
        | (Inferred t, env') => go rest t env'
        | (Rejected m, env') => (Rejected m, env')
        end
    end.

(** The statements of a scope in a child environment, which is dropped
    afterwards. *)
Definition infer_scope (stmts : list node) (bindings : gmap string Ty) : IM Ty :=
  fun env =>
    match infer_stmts stmts (TPrim Tvoid) (bindings :: env) with
    | (r, env') => (r, tail env')
    end.

(** The [args.forEach] of [FunctionCallNode.inferType]. *)
Definition infer_call_args (paramTypes : list Ty) : list node -> nat -> IM unit :=
  fix go (args : list node) (i : nat) (env : TypeEnvironment) :=
    match args with
    | [] => (Inferred tt, env)
    | arg :: rest =>
        match infer arg env with
        | (Inferred at_, env') =>
            match paramTypes !! i with
            | Some pt =>
                if negb (compareTypes at_ pt) then
                  (Rejected ("Arg type mismatch at position " +:+ pretty i
                             +:+ ": expected " +:+ typeToString pt
                             +:+ " got " +:+ typeToString at_), env')
                else go rest (S i) env'
            | None => (Rejected "Argument count mismatch in call", env')
            end
        | (Rejected m, env') => (Rejected m, env')
        end
    end.

(** The loop of [ArrayLiteralNode.inferType] from index 1 on. *)
Definition infer_elements : list node -> Ty -> IM Ty :=
  fix go (elements : list node) (elementType : Ty) (env : TypeEnvironment) :=
    match elements with
    | [] => (Inferred elementType, env)
    | el :: rest =>
        match infer el env with
        | (Inferred currentType, env') =>
            if negb (compareTypes elementType currentType)
            then (Inferred (TPrim Tany), env')
            else go rest elementType env'
        | (Rejected m, env') => (Rejected m, env')
        end
    end.

(** The loop of [ObjectLiteralNode.inferType]. *)
Definition infer_props : list (string * node) -> IM (list (string * Ty)) :=
  fix go (properties : list (string * node)) (env : TypeEnvironment) :=
    match properties with
    | [] => (Inferred [], env)
    | kv :: rest =>
        match infer (snd kv) env with
        | (Inferred t, env') =>
            match go rest env' with
            | (Inferred ts, env'') => (Inferred ((fst kv, t) :: ts), env'')
            | (Rejected m, env'') => (Rejected m, env'')
            end
        | (Rejected m, env') => (Rejected m, env')
        end
    end.

(** The loop over the cases of [SwitchNode.inferType]. *)
Definition infer_cases (exprType : Ty) : list (node * list node) -> IM unit :=
  fix go (cases : list (node * list node)) (env : TypeEnvironment) :=
    match cases with
    | [] => (Inferred tt, env)
    | c :: rest =>
        match infer (fst c) env with
        | (Inferred matchType, env1) =>
            if negb (compareTypes exprType matchType)
            then (Rejected "Switch case type mismatch with expression", env1)
            else
              match infer_scope (snd c) ∅ env1 with
              | (Inferred _, env2) => go rest env2
              | (Rejected m, env2) => (Rejected m, env2)
              end
        | (Rejected m, env1) => (Rejected m, env1)
        end
    end.

End WithInfer.

(** The bindings [FunctionLiteralNode.inferType] gives the parameters:
    [declaredParamTypes.forEach((pt, i) => localEnv.setType(params[i], pt))]. *)
Fixpoint declared_bindings (i : nat) (params : list string)
    (declared : list Ty) (types : gmap string Ty) : gmap string Ty :=
  match declared with
  | [] => types
  | pt :: rest =>
      declared_bindings (S i) params rest
        (<[nth i params "undefined" := pt]> types)
  end.

Definition truthy_name (name : option string) : option string :=
  match name with
  | Some s => if bool_decide (s = EmptyString) then None else Some s
  | None => None
  end.

(** [node.inferType(env)]. *)
Fixpoint inferType (n : node) (env : TypeEnvironment) {struct n}
  : inference Ty * TypeEnvironment :=
  match n with
  | VariableDeclarationNode varType name expression =>
      match inferType expression env with
      | (Inferred actualType, env1) =>
          match prop_lookup (varTypes_name varType) (typeMap actualType) with
          | None =>
              (Rejected ("Unsupported variable type: "
                         +:+ varTypes_name varType), env1)
          | Some expected =>
              if negb (compareTypes actualType expected) then
                (Rejected ("Type mismatch in declaration of '" +:+ name
                           +:+ "': expected " +:+ typeToString expected
                           +:+ ", got " +:+ typeToString actualType), env1)
              else (Inferred actualType, setType name actualType env1)
          end
      | (Rejected m, env1) => (Rejected m, env1)
      end
  | AssignmentNode name expression =>
      match getType env name with
      | Inferred currentType =>
          match inferType expression env with
          | (Inferred newType, env1) =>
              if negb (compareTypes currentType newType) then
                (Rejected ("Type mismatch in assignment to '" +:+ name
                           +:+ "': expected " +:+ type_json currentType
                           +:+ ", got " +:+ type_json newType), env1)
              else (Inferred currentType, env1)
          | (Rejected m, env1) => (Rejected m, env1)
          end
      | Rejected m => (Rejected m, env)
      end
  | ReturnNode expression => inferType expression env
  | BreakNode | ContinueNode | ErrorNode _ | SignalNode _ =>
      (Inferred (TPrim Tvoid), env)
  | FunctionLiteralNode name params body declaredParamTypes
                        declaredReturnType _ =>
      let paramTypes := default [] declaredParamTypes in
      match infer_scope inferType body
              (declared_bindings 0 params paramTypes ∅) env with
      | (Inferred bodyType, env1) =>
          let fnType :=
            TFunction paramTypes (default bodyType declaredReturnType) in
          match declaredReturnType with
          | Some declared =>
              if negb (compareTypes bodyType declared) then
                (Rejected ("Return type mismatch: expected "
                           +:+ typeToString declared +:+ ", got "
                           +:+ typeToString bodyType), env1)
              else
                (Inferred fnType,
                 match truthy_name name with
                 | Some f => setType f fnType env1
                 | None => env1
                 end)
          | None =>
              (Inferred fnType,
               match truthy_name name with
               | Some f => setType f fnType env1
               | None => env1
               end)
          end
      | (Rejected m, env1) => (Rejected m, env1)
      end
  | ArrowFunctionNode paramNames body =>
      match inferType body
              (fold_left (fun e p => setType p (TPrim Tany) e) paramNames
                         (createChild env)) with
      | (Inferred returnType, env1) =>
          (Inferred (TFunction (map (fun _ => TPrim Tany) paramNames) returnType),
           tail env1)
      | (Rejected m, env1) => (Rejected m, tail env1)
      end
  | FunctionCallNode functionName args =>
      match getType env functionName with
      | Inferred (TFunction paramTypes returnType) =>
          if negb (Nat.eqb (List.length paramTypes) (List.length args)) then
            (Rejected "Argument count mismatch in call", env)
          else
            match infer_call_args inferType paramTypes args 0 env with
            | (Inferred _, env1) => (Inferred returnType, env1)
            | (Rejected m, env1) => (Rejected m, env1)
            end
      | Inferred _ => (Rejected ("'" +:+ functionName +:+ "' is not a function"), env)
      | Rejected m => (Rejected m, env)
      end
  | LiteralNode l => (Inferred (literal_type l), env)
  | VariableReferenceNode name | ParameterNode name => (getType env name, env)
  | OperatorNode operator lhs rhs =>
      match inferType lhs env with
      | (Inferred leftType, env1) =>
          match inferType rhs env1 with
          | (Inferred rightType, env2) =>
              (operator_type operator leftType rightType, env2)
          | (Rejected m, env2) => (Rejected m, env2)
          end
      | (Rejected m, env1) => (Rejected m, env1)
      end
  | ArrayLiteralNode elements =>
      match elements with
      | [] => (Inferred (TArray (TPrim Tany)), env)
      | first :: rest =>
          match inferType first env with
          | (Inferred elementType, env1) =>
              match infer_elements inferType rest elementType env1 with
              | (Inferred t, env2) => (Inferred (TArray t), env2)
              | (Rejected m, env2) => (Rejected m, env2)
              end
          | (Rejected m, env1) => (Rejected m, env1)
          end
      end
  | ObjectLiteralNode properties =>
      match infer_props inferType properties env with
      | (Inferred propTypes, env1) => (Inferred (TObject propTypes), env1)
      | (Rejected m, env1) => (Rejected m, env1)
      end
  | BlockNode statements => infer_scope inferType statements ∅ env
  | IfNode condition thenBranch elseBranch =>
      match inferType condition env with
      | (Inferred condType, env1) =>
          if negb (is_prim Tboolean condType)
          then (Rejected "Condition must be boolean", env1)
          else
            match infer_scope inferType thenBranch ∅ env1 with
            | (Inferred _, env2) =>
                match elseBranch with
                | Some stmts =>
                    match infer_scope inferType stmts ∅ env2 with
                    | (Inferred _, env3) => (Inferred (TPrim Tvoid), env3)
                    | (Rejected m, env3) => (Rejected m, env3)
                    end
                | None => (Inferred (TPrim Tvoid), env2)
                end
            | (Rejected m, env2) => (Rejected m, env2)
            end
      | (Rejected m, env1) => (Rejected m, env1)
      end
  | WhileNode condition body =>
      match inferType condition env with
      | (Inferred condType, env1) =>
          if negb (is_prim Tboolean condType)
          then (Rejected "Condition must be boolean", env1)
          else
            match infer_scope inferType body ∅ env1 with
            | (Inferred _, env2) => (Inferred (TPrim Tvoid), env2)
            | (Rejected m, env2) => (Rejected m, env2)
            end
      | (Rejected m, env1) => (Rejected m, env1)
      end
  | ForNode init condition update body =>
      match inferType init env with
      | (Inferred _, env0) =>
          match inferType condition env0 with
          | (Inferred condType, env1) =>
              if negb (is_prim Tboolean condType)
              then (Rejected "Condition must be boolean", env1)
              else
                match inferType update env1 with
                | (Inferred _, env2) =>
                    match infer_scope inferType body ∅ env2 with
                    | (Inferred _, env3) => (Inferred (TPrim Tvoid), env3)
                    | (Rejected m, env3) => (Rejected m, env3)
                    end
                | (Rejected m, env2) => (Rejected m, env2)
                end
          | (Rejected m, env1) => (Rejected m, env1)
          end
      | (Rejected m, env0) => (Rejected m, env0)
      end
  | SwitchNode expression cases defaultCase =>
      match inferType expression env with
      | (Inferred exprType, env1) =>
          match infer_cases inferType exprType cases env1 with
          | (Inferred _, env2) =>
              match defaultCase with
              | Some stmts =>
                  match infer_scope inferType stmts ∅ env2 with
                  | (Inferred _, env3) => (Inferred (TPrim Tvoid), env3)
                  | (Rejected m, env3) => (Rejected m, env3)
                  end
              | None => (Inferred (TPrim Tvoid), env2)
              end
          | (Rejected m, env2) => (Rejected m, env2)
          end
      | (Rejected m, env1) => (Rejected m, env1)
      end
  | DoWhileNode body condition =>
      match infer_scope inferType body ∅ env with
      | (Inferred _, env1) =>
          match inferType condition env1 with
          | (Inferred condType, env2) =>
              if negb (is_prim Tboolean condType)
              then (Rejected "Condition must be boolean", env2)
              else (Inferred (TPrim Tvoid), env2)
          | (Rejected m, env2) => (Rejected m, env2)
          end
      | (Rejected m, env1) => (Rejected m, env1)
      end
  | ForEachNode itemName iterable body =>
      match inferType iterable env with
      | (Inferred (TArray elementType), env1) =>
          match infer_scope inferType body {[itemName := elementType]} env1 with
          | (Inferred _, env2) => (Inferred (TPrim Tvoid), env2)
          | (Rejected m, env2) => (Rejected m, env2)
          end
      | (Inferred _, env1) => (Rejected "Target of ForEach must be an array", env1)
      | (Rejected m, env1) => (Rejected m, env1)
      end
  | TryCatchNode tryBlock catchVar catchBlock =>
      match infer_scope inferType tryBlock ∅ env with
      | (Inferred _, env1) =>
          match infer_scope inferType catchBlock {[catchVar := TPrim Tany]} env1 with
          | (Inferred _, env2) => (Inferred (TPrim Tvoid), env2)
          | (Rejected m, env2) => (Rejected m, env2)
          end
      | (Rejected m, env1) => (Rejected m, env1)
      end
  end.

End Infer.

(* ===================================================================== *)
(** * Invariants and sample programs *)
(* ===================================================================== *)

Module Invariants.
Import Types Syntax Runtime Exec.

(** Every frame was constructed after its parent. *)
Definition chain_ok (ctxs : list ExecutionContext) : Prop :=
  forall i c p, ctxs !! i = Some c -> parent c = Some p -> p < i.

(** What a computation running in [ctx] leaves alone: the store only grows,
    and every frame that existed, [ctx] apart, is as it was. *)
Definition kept (ctx : nat) (h h' : heap) : Prop :=
  List.length (contexts h) <= List.length (contexts h') /\
  List.length (caches h) <= List.length (caches h') /\
  forall f, f < List.length (contexts h) -> f <> ctx ->
            contexts h' !! f = contexts h !! f.

(** The same with no frame excepted. *)
Definition extends (h h' : heap) : Prop :=
  List.length (contexts h) <= List.length (contexts h') /\
  List.length (caches h) <= List.length (caches h') /\
  forall f, f < List.length (contexts h) -> contexts h' !! f = contexts h !! f.

(** [typeof v === "boolean"]. *)
Definition is_boolean (v : value) : bool :=
  match v with VBool _ => true | _ => false end.

(** A value refers to contexts below [n] only: every closure in it
    captured a context that exists in a store of [n] contexts. *)
Fixpoint closures_within (n : nat) (v : value) : bool :=
  match v with
  | VArray elems => forallb (closures_within n) elems
  | VObject props =>
      forallb (fun kv : string * value => closures_within n (snd kv)) props
  | VClosure _ _ outerContext _ => Nat.ltb outerContext n
  | VArrow _ _ context => Nat.ltb context n
  | _ => true
  end.

(** The stores an interpreter run goes through: frames come after their
    parents, and the values kept in frames and caches refer to existing
    contexts. *)
Definition wf_heap (h : heap) : Prop :=
  chain_ok (contexts h)
  /\ (forall i c x v, contexts h !! i = Some c -> variables c !! x = Some v ->
                      closures_within (List.length (contexts h)) v = true)
  /\ (forall cid c key v, caches h !! cid = Some c -> c !! key = Some v ->
                          closures_within (List.length (contexts h)) v = true).

(** What an outcome may carry into a store of [n] contexts. *)
Definition wf_outcome {A} (P : nat -> A -> Prop) (n : nat) (r : outcome A)
  : Prop :=
  match r with
  | Normal a => P n a
  | Throw (ReturnSignal v) => closures_within n v = true
  | _ => True
  end.

Definition wf_val (n : nat) (v : value) : Prop := closures_within n v = true.

(** An executor is safe when it takes well-formed stores to well-formed
    stores and returns values that refer to existing contexts. *)
Definition safe (exec : node -> nat -> M value) : Prop :=
  forall n ctx h r h',
    wf_heap h -> ctx < List.length (contexts h) -> exec n ctx h = (r, h') ->
    wf_heap h' /\ wf_outcome wf_val (List.length (contexts h')) r.

(** An executor is local when running a node in a context touches no other
    frame that existed before. *)
Definition local (exec : node -> nat -> M value) : Prop :=
  forall n ctx h r h', exec n ctx h = (r, h') -> kept ctx h h'.

End Invariants.

Module Samples.
Import Types Syntax Runtime Exec Infer.

(** The store of a fresh interpreter: the root context alone, at index 0. *)
Definition root_heap : heap := snd (new_ExecutionContext None empty_heap).

Definition num (n : Z) : node := LiteralNode (LNum n).
Definition str (s : string) : node := LiteralNode (LStr s).
Definition var (x : string) : node := VariableReferenceNode x.
Definition print (e : node) : node := FunctionCallNode "print" [e].

(** [let x: number = "hi"]. *)
Definition number_gets_string : node :=
  VariableDeclarationNode VTnumber "x" (str "hi").

(** [let x: number = 1]. *)
Definition number_gets_number : node :=
  VariableDeclarationNode VTnumber "x" (num 1).

(** [while (true) { let y: number = 1; break }]. *)
Definition while_declares : node :=
  WhileNode (LiteralNode (LBool true))
    [VariableDeclarationNode VTnumber "y" (num 1); BreakNode].

(** The same body under the sibling loops. *)
Definition do_while_declares : node :=
  DoWhileNode [VariableDeclarationNode VTnumber "y" (num 1); BreakNode]
              (LiteralNode (LBool true)).

Definition for_declares : node :=
  ForNode (num 0) (LiteralNode (LBool true)) (num 0)
    [VariableDeclarationNode VTnumber "y" (num 1); BreakNode].

(** [do { print(1) } while (0)] and [do { print(1) } while (null)]. *)
Definition do_while_number : node := DoWhileNode [print (num 1)] (num 0).
Definition do_while_null : node :=
  DoWhileNode [print (num 1)] (LiteralNode LNull).

(** The store in which the root binds [x] to 1. *)
Definition x_in_root : heap := setVariable 0 "x" (VNum 1) root_heap.

(** [while (true) { x = 2; break }]. *)
Definition while_assigns : node :=
  WhileNode (LiteralNode (LBool true)) [AssignmentNode "x" (num 2); BreakNode].

(** The assignment [x = 2] as the body of every other scoping construct. *)
Definition scoped_assigns : list node :=
  [BlockNode [AssignmentNode "x" (num 2)];
   IfNode (LiteralNode (LBool true)) [AssignmentNode "x" (num 2)] None;
   DoWhileNode [AssignmentNode "x" (num 2); BreakNode] (LiteralNode (LBool true));
   ForNode (num 0) (LiteralNode (LBool true)) (num 0)
     [AssignmentNode "x" (num 2); BreakNode];
   ForEachNode "item" (ArrayLiteralNode [num 0]) [AssignmentNode "x" (num 2)];
   SwitchNode (num 0) [(num 0, [AssignmentNode "x" (num 2)])] None;
   TryCatchNode [AssignmentNode "x" (num 2)] "e" []].

(** The closure of [function () { x = 2 }], made in the root. *)
Definition assigning_function : value * heap :=
  toFunction [] [AssignmentNode "x" (num 2)] false 0 x_in_root.

(** [y = 1], with [y] declared nowhere. *)
Definition assign_unbound : node := AssignmentNode "y" (num 1).



(** A pure function that calls itself before it returns:
    [function f(a) { print(a); if (typeOf(a) == "object") { f(undefined) };
    return 1 }], declared in the root and called as [f(null)]. *)
Definition reentrant_body : list node :=
  [print (var "a");
   IfNode (OperatorNode "==" (FunctionCallNode "typeOf" [var "a"])
                        (str "object"))
          [FunctionCallNode "f" [LiteralNode LUndefined]] None;
   ReturnNode (num 1)].
Definition reentrant_program : list node :=
  [VariableDeclarationNode VTfunction "f"
     (FunctionLiteralNode (Some "f") ["a"] reentrant_body None None true);
   FunctionCallNode "f" [LiteralNode LNull]].

(** A pure function of one parameter, [(n) => { print(n); return n * 2 }]. *)
Definition doubling_body : list node :=
  [print (var "n"); ReturnNode (OperatorNode "*" (var "n") (num 2))].
Definition doubling_pure : value * heap :=
  toFunction ["n"] doubling_body true 0 root_heap.

(** A loop body that leaves through a signal after printing. *)
Definition counting_body (leave : node) : list node :=
  [print (str "in"); leave; print (str "unreachable")].

(** Object types with the same properties in a different order. *)
Definition point_xy : Ty :=
  TObject [("x", TPrim Tnumber);
           ("y", TFunction [TArray (TPrim Tstring)] (TPrim Tboolean))].
Definition point_yx : Ty :=
  TObject [("y", TFunction [TArray (TPrim Tstring)] (TPrim Tboolean));
           ("x", TPrim Tnumber)].

End Samples.

(* ===================================================================== *)
(** * Further invariants and sample data *)
(* ===================================================================== *)

Module Further.
Import Types Syntax Runtime Exec Infer Invariants Samples.

(** Two spellings of one object type, and a type environment with one
    binding in the root and one in a child scope. *)
Definition pair_ab : Ty :=
  TObject [("a", TArray (TPrim Tnumber)); ("b", TPrim Tstring)].
Definition pair_ba : Ty :=
  TObject [("b", TPrim Tstring); ("a", TArray (TPrim Tnumber))].
Definition two_scopes : TypeEnvironment :=
  [{["y" := TPrim Tstring]}; {["x" := TPrim Tnumber]}].

(** The property names every JavaScript object inherits from
    [Object.prototype].  The records [variables] and [types] are plain
    objects tested with [name in record], which holds of these names in
    every frame; [__proto__] is moreover an accessor, and writing it creates
    no property of the record. *)
Definition Object_prototype_names : list string :=
  ["constructor"; "__defineGetter__"; "__defineSetter__"; "hasOwnProperty";
   "__lookupGetter__"; "__lookupSetter__"; "isPrototypeOf";
   "propertyIsEnumerable"; "toString"; "valueOf"; "__proto__";
   "toLocaleString"].

(** No scope of the environment has set a type for the name. *)
Definition unbound_in (env : TypeEnvironment) (name : string) : Prop :=
  forall types, types ∈ env -> types !! name = None.

(** A store in which no frame was ever written under [__proto__]: every
    [variables] record still has [Object.prototype] as its prototype. *)
Definition plain_store (h : heap) : Prop :=
  forall frame, own_binding h frame "__proto__" = None.

(** The frames a lookup from [ctx] passes, nearest first. *)
Fixpoint scope_chain (steps : nat) (ctxs : list ExecutionContext) (ctx : nat)
  : list nat :=
  match steps with
  | 0 => []
  | S steps' =>
      ctx :: match ctxs !! ctx with
             | Some c =>
                 match parent c with
                 | Some p => scope_chain steps' ctxs p
                 | None => []
                 end
             | None => []
             end
  end.

Definition enclosing (h : heap) (ctx : nat) : list nat :=
  scope_chain (S ctx) (contexts h) ctx.

(** A child of the root, created after the root has bound [x] to 1. *)
Definition x_in_root_child : heap := snd (createChildContext 0 x_in_root).

(** ** How a store grows *)

(** A frame after some steps: the same parent, every name it bound still
    bound, every signal flag it had raised still raised. *)
Definition frame_grows (c c' : ExecutionContext) : Prop :=
  parent c' = parent c
  /\ (forall x, is_Some (variables c !! x) -> is_Some (variables c' !! x))
  /\ (breakSignal c = true -> breakSignal c' = true)
  /\ (continueSignal c = true -> continueSignal c' = true).

Definition frames_grow (h h' : heap) : Prop :=
  forall f c, contexts h !! f = Some c ->
    exists c', contexts h' !! f = Some c' /\ frame_grows c c'.

Definition continueSignal_of (ctx : nat) (h : heap) : bool :=
  match contexts h !! ctx with
  | Some c => continueSignal c
  | None => false
  end.

(** What was printed stays printed, and a cache keeps its keys. *)
Definition output_grows (h h' : heap) : Prop :=
  console h `prefix_of` console h'
  /\ forall cid key, is_Some (cache_lookup cid key h) ->
                     is_Some (cache_lookup cid key h').

(** [{ let x: number = 2; z = 3; signal(break); print(x) }]. *)
Definition scoped_writes : node :=
  BlockNode [VariableDeclarationNode VTnumber "x" (num 2);
             AssignmentNode "z" (num 3);
             SignalNode SigBreak;
             print (var "x")].

(** [x = 5; signal(break); print(x)] as the body of a one-pass loop. *)
Definition loop_writes : node :=
  WhileNode (LiteralNode (LBool true))
    [AssignmentNode "x" (num 5); SignalNode SigBreak; print (var "x");
     BreakNode].

(** [(v) => { x = v; return x }], made in the root, where [x] is 1. *)
Definition overwrite_body : list node :=
  [AssignmentNode "x" (var "v"); ReturnNode (var "x")].
Definition overwrite_x : value := VClosure ["v"] overwrite_body 0 None.

(** [try { x = 2; error("no") } catch (e) { x = 3; print(e) }]. *)
Definition try_writes : node :=
  TryCatchNode [AssignmentNode "x" (num 2); ErrorNode (str "no")] "e"
               [AssignmentNode "x" (num 3); print (var "e")].

(** [if (true) { x = 2 } else { x = 3 }] and
    [for (item of [1, 2]) { x = item }]. *)
Definition if_writes : node :=
  IfNode (LiteralNode (LBool true)) [AssignmentNode "x" (num 2)]
         (Some [AssignmentNode "x" (num 3)]).
Definition each_writes : node :=
  ForEachNode "item" (ArrayLiteralNode [num 1; num 2])
              [AssignmentNode "x" (var "item")].

(** A store with one root: frame 0 has no parent, every other frame has. *)
Definition rooted (h : heap) : Prop :=
  0 < List.length (contexts h)
  /\ forall i c, contexts h !! i = Some c -> (parent c = None <-> i = 0).

(** [let x: number = 1; { ... }; try { ... } catch (e) { ... }]. *)
Definition three_statements : list node :=
  [VariableDeclarationNode VTnumber "x" (num 1); scoped_writes; try_writes].

(** ** Switch *)

(** The cases a switch passes over: each match expression is evaluated, in
    order, and is not strictly equal to the switch value.  The store after
    them, or [None] when one of them matches or fails. *)
Fixpoint misses (exec : node -> nat -> M value) (v : value)
    (cases : list (node * list node)) (ctx : nat) (h : heap) : option heap :=
  match cases with
  | [] => Some h
  | (matchNode, _) :: rest =>
      match exec matchNode ctx h with
      | (Normal mv, h1) =>
          match strict_eq v mv with
          | Some false => misses exec v rest ctx h1
          | _ => None
          end
      | (Fail _, _) => None
      end
  end.

(** [switch (2) { case 1: print("one"); case 2: print("two");
                  case 2: print("again") } default: print("none")]. *)
Definition switch_two : list (node * list node) :=
  [(num 1, [print (str "one")]); (num 2, [print (str "two")]);
   (num 2, [print (str "again")])].

(** ** What a declaration of each kind accepts *)

(** The check of [typeChecks] for a kind, and [typeof v === "function"] for
    the kind "function"; the kinds without an entry accept nothing. *)
Definition kind_accepts (k : varTypes) (v : value) : bool :=
  match k with
  | VTnumber => bool_decide (js_typeof v = "number")
  | VTstring => bool_decide (js_typeof v = "string")
  | VTboolean => bool_decide (js_typeof v = "boolean")
  | VTundefined => match v with VUndefined => true | _ => false end
  | VTnull => match v with VNull => true | _ => false end
  | VTbigint => bool_decide (js_typeof v = "bigint")
  | VTarray => isArray v
  | VTobject =>
      match v with
      | VNull => false
      | _ => bool_decide (js_typeof v = "object") && negb (isArray v)
      end
  | VTfunction => bool_decide (js_typeof v = "function")
  | VTsymbol | VTvoid | VTany => false
  end.

(** The operator names [OperatorNode.execute] knows. *)
Definition execute_operators : list string :=
  ["+"; "-"; "*"; "/"; "//"; "^"; "=="; "!=="; "<"; "<="; ">"; ">=";
   "&&"; "||"; "concat"; "><"].

(** The operator names [OperatorNode.inferType] knows. *)
Definition inferType_operators : list string :=
  ["o_plus"; "o_minus"; "o_mul"; "o_div"; "o_idiv"; "o_pow";
   "o_eq"; "o_neq"; "o_lt"; "o_lte"; "o_gt"; "o_gte";
   "o_and"; "o_or"; "o_concat"].

(** ** Memoize keys *)



(** A [bigint] somewhere in a value. *)
Fixpoint has_bigint (v : value) : bool :=
  match v with
  | VBigInt _ => true
  | VArray elems => existsb has_bigint elems
  | VObject props =>
      existsb (fun kv : string * value => has_bigint (snd kv)) props
  | _ => false
  end.

(** An object with a property named [toJSON] somewhere in a value:
    [JSON.stringify] calls such a property when it is a function and
    serializes what it returns. *)
Fixpoint has_toJSON (v : value) : bool :=
  match v with
  | VArray elems => existsb has_toJSON elems
  | VObject props =>
      existsb (fun kv : string * value =>
                 bool_decide (fst kv = "toJSON") || has_toJSON (snd kv)) props
  | _ => false
  end.

(** [(a) => { print(a); return typeOf(a) }], pure, made in the root. *)
Definition describing_body : list node :=
  [print (var "a"); ReturnNode (FunctionCallNode "typeOf" [var "a"])].
Definition describing_pure : value * heap :=
  toFunction ["a"] describing_body true 0 root_heap.

(** ** The type environment as a stack *)

(** Two environments with the same enclosing scopes: they differ in the
    frame of the current scope at most. *)
Definition same_enclosing (env env' : TypeEnvironment) : Prop :=
  tail env' = tail env /\ List.length env' = List.length env.

(** What [inferType] does to the environment of a node. *)
Definition stack_kept (n : node) : Prop :=
  forall env r env', inferType n env = (r, env') -> same_enclosing env env'.

(** [print(1); signal(break); print(2)]: a loop body that raises the break
    flag between two prints and completes. *)
Definition flagged_body : list node :=
  [print (num 1); SignalNode SigBreak; print (num 2)].

(** ** Loop signals *)

(** An outcome that is a Break or a Continue signal. *)
Definition loop_signal {A} (r : outcome A) : bool :=
  match r with
  | Fail (Thrown BreakSignal) | Fail (Thrown ContinueSignal) => true
  | _ => false
  end.

(** [for (x of [1, 2, 3]) { print(x); continue; print(0) }] and
    [for (x of [1, 2, 3]) { print(x); break }]. *)
Definition each_continues : node :=
  ForEachNode "x" (ArrayLiteralNode [num 1; num 2; num 3])
              [print (var "x"); ContinueNode; print (num 0)].
Definition each_breaks : node :=
  ForEachNode "x" (ArrayLiteralNode [num 1; num 2; num 3])
              [print (var "x"); BreakNode].

(** ** Array literals under inference *)

(** The elements of an array literal that agree with the element type:
    each is given a type, in order, and the type compares equal to
    [elementType].  The environment after them, or [None] when one of them
    is rejected or disagrees. *)
Fixpoint agree_prefix (elementType : Ty) (elements : list node)
    (env : TypeEnvironment) : option TypeEnvironment :=
  match elements with
  | [] => Some env
  | el :: rest =>
      match inferType el env with
      | (Inferred t, env') =>
          if compareTypes elementType t
          then agree_prefix elementType rest env'
          else None
      | (Rejected _, _) => None
      end
  end.

(** [[1, 2, "three", missing]]: the last element names no variable. *)
Definition mixed_array : node :=
  ArrayLiteralNode [num 1; num 2; str "three"; var "missing"].

(** ** Fuel *)

(** [m2] gives every result [m1] gives, short of running out of fuel. *)
Definition settles {A} (m1 m2 : M A) : Prop :=
  forall h r h', m1 h = (r, h') -> r <> Fail OutOfFuel -> m2 h = (r, h').

(** [i = 0; while (i < 3) { i = i + 1 }]. *)
Definition count_to_three : list node :=
  [AssignmentNode "i" (num 0);
   WhileNode (OperatorNode "<" (var "i") (num 3))
     [AssignmentNode "i" (OperatorNode "+" (var "i") (num 1))]].

End Further.

(* ===================================================================== *)
(** * Properties of the type model *)
(* ===================================================================== *)

Module TypesFacts.
Import Types.

(** Induction over [Ty] with the hypotheses for the nested lists. *)
Lemma Ty_nested_ind (P : Ty -> Prop) :
  (forall tag, P (TPrim tag)) ->
  (forall ps r, Forall P ps -> P r -> P (TFunction ps r)) ->
  (forall e, P e -> P (TArray e)) ->
  (forall props, Forall (fun kt => P (snd kt)) props -> P (TObject props)) ->
  forall t, P t.
Proof.
  intros Hprim Hfun Harr Hobj. fix IH 1. intros [tag|ps r|e|props].
  - apply Hprim.
  - apply Hfun; [|apply IH].
    induction ps as [|p ps IHps]; constructor; [apply IH|exact IHps].
  - apply Harr, IH.
  - apply Hobj.
    induction props as [|[k t] props IHprops]; constructor;
      [apply IH|exact IHprops].
Qed.

Lemma forallb_Forall {A} (f : A -> bool) (l : list A) :
  forallb f l = true <-> Forall (fun x => f x = true) l.
Proof.
  induction l as [|x l IH]; simpl.
  - split; [constructor|reflexivity].
  - rewrite andb_true_iff, IH, Forall_cons. reflexivity.
Qed.

Lemma prop_lookup_elem {A} k (t : A) props :
  prop_lookup k props = Some t -> (k, t) ∈ props.
Proof.
  induction props as [|[k' t'] props IH]; simpl; [discriminate|].
  destruct (decide (k' = k)) as [->|Hne].
  - intros [= ->]. left.
  - intros H. right. auto.
Qed.

Lemma prop_lookup_None {A} k (props : list (string * A)) :
  prop_lookup k props = None <-> k ∉ map fst props.
Proof.
  induction props as [|[k' t'] props IH]; simpl.
  - split; [intros _; apply not_elem_of_nil | reflexivity].
  - rewrite not_elem_of_cons. destruct (decide (k' = k)) as [->|Hne].
    + split; [discriminate | intros [[] _]; reflexivity].
    + rewrite IH. split; [intros H; split; [congruence|exact H] | intros [_ H]; exact H].
Qed.

Lemma prop_lookup_NoDup {A} k (t : A) props :
  NoDup (map fst props) -> (k, t) ∈ props -> prop_lookup k props = Some t.
Proof.
  induction props as [|[k' t'] props IH]; simpl; intros Hnd Hin.
  - apply elem_of_nil in Hin as [].
  - apply NoDup_cons in Hnd as [Hk' Hnd].
    apply elem_of_cons in Hin as [[= -> ->]|Hin].
    + rewrite decide_True; reflexivity.
    + destruct (decide (k' = k)) as [->|Hne]; [|auto].
      exfalso. apply Hk'.
      apply (list_elem_of_fmap_2 fst) in Hin. exact Hin.
Qed.

Lemma well_formed_function ps r :
  well_formed (TFunction ps r) = true <->
  Forall (fun p => well_formed p = true) ps /\ well_formed r = true.
Proof. simpl. rewrite andb_true_iff, forallb_Forall. reflexivity. Qed.

Lemma well_formed_object props :
  well_formed (TObject props) = true <->
  NoDup (map fst props) /\ Forall (fun kt => well_formed (snd kt) = true) props.
Proof.
  simpl. rewrite andb_true_iff, forallb_Forall, bool_decide_eq_true.
  reflexivity.
Qed.

(** The positional loop succeeds exactly on pointwise related lists of the
    same length. *)
Lemma all2_Forall2 {A B} (f : A -> B -> bool) l1 l2 :
  List.length l1 = List.length l2 ->
  all2 f l1 l2 = true <-> Forall2 (fun x y => f x y = true) l1 l2.
Proof.
  revert l2. induction l1 as [|x l1 IH]; intros [|y l2]; simpl; try discriminate.
  - intros _. split; [constructor|reflexivity].
  - intros [= Hlen]. destruct (f x y) eqn:Hf.
    + rewrite (IH l2 Hlen). split.
      * intros H. constructor; assumption.
      * intros H. inversion H; assumption.
    + split; [discriminate|]. intros H. inversion H; congruence.
Qed.

Lemma compare_function aps ar bps br :
  compareTypes (TFunction aps ar) (TFunction bps br) = true <->
  List.length aps = List.length bps /\
  Forall2 (fun x y => compareTypes x y = true) aps bps /\
  compareTypes ar br = true.
Proof.
  simpl. destruct (Nat.eqb_spec (List.length aps) (List.length bps)) as [Hlen|Hlen]; simpl.
  - rewrite <- (all2_Forall2 _ _ _ Hlen).
    destruct (all2 compareTypes aps bps); simpl; intuition congruence.
  - intuition congruence.
Qed.

Lemma compare_object aprops bprops :
  compareTypes (TObject aprops) (TObject bprops) = true <->
  List.length aprops = List.length bprops /\
  Forall (fun kt => exists t', prop_lookup (fst kt) bprops = Some t' /\
                               compareTypes (snd kt) t' = true) aprops.
Proof.
  simpl. destruct (Nat.eqb_spec (List.length aprops) (List.length bprops)) as [Hlen|Hlen]; simpl.
  - rewrite forallb_Forall. split.
    + intros H. split; [exact Hlen|]. eapply Forall_impl; [exact H|].
      intros [k t]; simpl. destruct (prop_lookup k bprops); [eauto|discriminate].
    + intros [_ H]. eapply Forall_impl; [exact H|].
      intros [k t]; simpl. intros (t' & -> & Ht'). exact Ht'.
  - intuition congruence.
Qed.

(** Two records with distinct names, of the same size, one's names among
    the other's: they have the same names. *)
Lemma same_names {A B} (aprops : list (string * A)) (bprops : list (string * B)) :
  NoDup (map fst aprops) ->
  List.length aprops = List.length bprops ->
  (forall k, k ∈ map fst aprops -> k ∈ map fst bprops) ->
  forall k, k ∈ map fst bprops -> k ∈ map fst aprops.
Proof.
  intros Hnd Hlen Hsub k Hk.
  assert (Hms : map fst aprops ⊆+ map fst bprops) by (apply NoDup_submseteq; assumption).
  assert (Hperm : map fst aprops ≡ₚ map fst bprops).
  { apply submseteq_length_Permutation; [exact Hms|].
    rewrite !length_map. lia. }
  rewrite Hperm. exact Hk.
Qed.

Lemma elem_of_names {A} k (props : list (string * A)) :
  k ∈ map fst props <-> exists t, (k, t) ∈ props.
Proof.
  split.
  - intros H. apply list_elem_of_fmap in H as ([k' t] & -> & Hin). eauto.
  - intros [t Hin]. apply (list_elem_of_fmap_2 fst) in Hin. exact Hin.
Qed.

Lemma compare_refl a : well_formed a = true -> compareTypes a a = true.
Proof.
  induction a as [tag|ps r IHps IHr|e IHe|props IHprops] using Ty_nested_ind.
  - intros _. simpl. apply bool_decide_eq_true. reflexivity.
  - intros [Hps Hr]%well_formed_function. apply compare_function.
    split; [reflexivity|]. split; [|auto].
    induction ps as [|p ps IH]; [constructor|].
    inversion IHps; subst. inversion Hps; subst. constructor; auto.
  - simpl. exact IHe.
  - intros [Hnd Hwf]%well_formed_object. apply compare_object.
    split; [reflexivity|]. apply Forall_forall. intros [k t] Hin. simpl.
    exists t. split; [apply prop_lookup_NoDup; assumption|].
    rewrite Forall_forall in IHprops, Hwf.
    apply (IHprops (k, t) Hin), (Hwf (k, t) Hin).
Qed.

Lemma compare_sym_imp a :
  well_formed a = true ->
  forall b, well_formed b = true ->
            compareTypes a b = true -> compareTypes b a = true.
Proof.
  induction a as [tag|ps r IHps IHr|e IHe|props IHprops] using Ty_nested_ind;
    intros Hwa b Hwb Hab; destruct b as [tag'|qs s|f|bprops]; try discriminate.
  - simpl in *. apply bool_decide_eq_true in Hab as ->.
    apply bool_decide_eq_true. reflexivity.
  - apply well_formed_function in Hwa as [Hps Hr].
    apply well_formed_function in Hwb as [Hqs Hs].
    apply compare_function in Hab as (Hlen & Hall & Hret).
    apply compare_function. split; [congruence|]. split; [|auto].
    clear Hlen Hret. revert Hps Hqs IHps.
    induction Hall as [|p q ps qs Hpq Hall IH]; intros Hps Hqs IHps; [constructor|].
    inversion Hps; inversion Hqs; inversion IHps; subst. constructor; auto.
  - simpl in *. auto.
  - apply well_formed_object in Hwa as [Hnda Hwfa].
    apply well_formed_object in Hwb as [Hndb Hwfb].
    apply compare_object in Hab as [Hlen Hall].
    rewrite Forall_forall in Hall, IHprops, Hwfa, Hwfb.
    apply compare_object. split; [congruence|].
    apply Forall_forall. intros [k tb] Hinb. simpl.
    assert (Hka : k ∈ map fst props).
    { apply (same_names props bprops Hnda Hlen).
      - intros k' [ta Hin]%elem_of_names.
        destruct (Hall _ Hin) as (t' & Hl & _). simpl in Hl.
        apply prop_lookup_elem in Hl. apply elem_of_names. eauto.
      - apply elem_of_names. eauto. }
    apply elem_of_names in Hka as [ta Hina].
    exists ta. split; [apply prop_lookup_NoDup; assumption|].
    destruct (Hall _ Hina) as (t' & Hl & Hcmp). simpl in Hl, Hcmp.
    rewrite (prop_lookup_NoDup _ _ _ Hndb Hinb) in Hl. injection Hl as <-.
    apply (IHprops _ Hina); [apply (Hwfa _ Hina)|apply (Hwfb _ Hinb)|exact Hcmp].
Qed.

Lemma compare_sym a b :
  well_formed a = true -> well_formed b = true ->
  compareTypes a b = compareTypes b a.
Proof.
  intros Ha Hb.
  destruct (compareTypes a b) eqn:Hab, (compareTypes b a) eqn:Hba; try reflexivity.
  - apply compare_sym_imp in Hab; congruence.
  - apply compare_sym_imp in Hba; congruence.
Qed.

Lemma compare_sound a :
  well_formed a = true ->
  forall b, well_formed b = true -> compareTypes a b = true -> type_equiv a b.
Proof.
  induction a as [tag|ps r IHps IHr|e IHe|props IHprops] using Ty_nested_ind;
    intros Hwa b Hwb Hab; destruct b as [tag'|qs s|f|bprops]; try discriminate.
  - simpl in Hab. apply bool_decide_eq_true in Hab as ->. constructor.
  - apply well_formed_function in Hwa as [Hps Hr].
    apply well_formed_function in Hwb as [Hqs Hs].
    apply compare_function in Hab as (Hlen & Hall & Hret).
    constructor; [|auto]. clear Hlen Hret. revert Hps Hqs IHps.
    induction Hall as [|p q ps qs Hpq Hall IH]; intros Hps Hqs IHps; [constructor|].
    inversion Hps; inversion Hqs; inversion IHps; subst. constructor; auto.
  - constructor. simpl in *. auto.
  - apply well_formed_object in Hwa as [Hnda Hwfa].
    apply well_formed_object in Hwb as [Hndb Hwfb].
    apply compare_object in Hab as [Hlen Hall].
    rewrite Forall_forall in Hall, IHprops, Hwfa, Hwfb.
    assert (Hsub : forall k, k ∈ map fst props -> k ∈ map fst bprops).
    { intros k' [ta Hin]%elem_of_names.
      destruct (Hall _ Hin) as (t' & Hl & _). simpl in Hl.
      apply prop_lookup_elem in Hl. apply elem_of_names. eauto. }
    constructor.
    + intros k. rewrite !prop_lookup_None. split; intros Hk Hk'; apply Hk.
      * apply (same_names props bprops Hnda Hlen Hsub), Hk'.
      * apply Hsub, Hk'.
    + intros k ta tb Hla Hlb. apply prop_lookup_elem in Hla.
      destruct (Hall _ Hla) as (t' & Hl & Hcmp). simpl in Hl, Hcmp.
      assert (t' = tb) as -> by congruence.
      apply prop_lookup_elem in Hlb.
      apply (IHprops _ Hla); [apply (Hwfa _ Hla)|apply (Hwfb _ Hlb)|exact Hcmp].
Qed.

Lemma compare_complete a :
  well_formed a = true ->
  forall b, well_formed b = true -> type_equiv a b -> compareTypes a b = true.
Proof.
  induction a as [tag|ps r IHps IHr|e IHe|props IHprops] using Ty_nested_ind;
    intros Hwa b Hwb Hab; inversion Hab as [tag'|ps' qs r' s Hall Hret|e' f He|ps' qs Hkeys Hvals]; subst.
  - simpl. apply bool_decide_eq_true. reflexivity.
  - apply well_formed_function in Hwa as [Hps Hr].
    apply well_formed_function in Hwb as [Hqs Hs].
    apply compare_function. split; [eapply Forall2_length; eassumption|].
    split; [|auto]. clear Hab Hret. revert Hps Hqs IHps.
    induction Hall as [|p q ps qs Hpq Hall IH]; intros Hps Hqs IHps; [constructor|].
    inversion Hps; inversion Hqs; inversion IHps; subst. constructor; auto.
  - simpl in *. auto.
  - apply well_formed_object in Hwa as [Hnda Hwfa].
    apply well_formed_object in Hwb as [Hndb Hwfb].
    rewrite Forall_forall in IHprops, Hwfa, Hwfb.
    assert (Hab' : forall k, k ∈ map fst props -> k ∈ map fst qs).
    { intros k Hk. destruct (decide (k ∈ map fst qs)) as [|Hn]; [assumption|].
      apply prop_lookup_None, Hkeys, prop_lookup_None in Hn. contradiction. }
    assert (Hba' : forall k, k ∈ map fst qs -> k ∈ map fst props).
    { intros k Hk. destruct (decide (k ∈ map fst props)) as [|Hn]; [assumption|].
      apply prop_lookup_None, Hkeys, prop_lookup_None in Hn. contradiction. }
    apply compare_object. split.
    + apply Nat.le_antisymm.
      * rewrite <- (length_map fst props), <- (length_map fst qs).
        apply submseteq_length, NoDup_submseteq; assumption.
      * rewrite <- (length_map fst props), <- (length_map fst qs).
        apply submseteq_length, NoDup_submseteq; assumption.
    + apply Forall_forall. intros [k ta] Hina. simpl.
      assert (Hkb : k ∈ map fst qs) by (apply Hab', elem_of_names; eauto).
      apply elem_of_names in Hkb as [tb Hinb]. exists tb.
      assert (Hlb : prop_lookup k qs = Some tb) by (apply prop_lookup_NoDup; assumption).
      split; [exact Hlb|].
      apply (IHprops _ Hina); [apply (Hwfa _ Hina)|apply (Hwfb _ Hinb)|].
      apply (Hvals k); [apply prop_lookup_NoDup; assumption|exact Hlb].
Qed.

End TypesFacts.

(* ===================================================================== *)
(** * Properties of the store *)
(* ===================================================================== *)

Module StoreFacts.
Import Types Syntax Runtime Exec Invariants.

(** Split a conjunction into its conjuncts, and nothing else. *)
Ltac conjuncts := repeat match goal with |- _ /\ _ => split end.

Lemma kept_refl ctx h : kept ctx h h.
Proof. repeat split; auto. Qed.

Lemma extends_refl h : extends h h.
Proof. repeat split; auto. Qed.

Lemma kept_trans ctx h1 h2 h3 : kept ctx h1 h2 -> kept ctx h2 h3 -> kept ctx h1 h3.
Proof.
  intros (L1 & C1 & K1) (L2 & C2 & K2). repeat split; [lia|lia|].
  intros f Hf Hne. rewrite K2, K1; auto. lia.
Qed.

Lemma extends_trans h1 h2 h3 : extends h1 h2 -> extends h2 h3 -> extends h1 h3.
Proof.
  intros (L1 & C1 & K1) (L2 & C2 & K2). repeat split; [lia|lia|].
  intros f Hf. rewrite K2, K1; auto. lia.
Qed.

Lemma extends_kept ctx h h' : extends h h' -> kept ctx h h'.
Proof. intros (L & C & K). repeat split; auto. Qed.

(** A computation in a frame allocated after [h] leaves all of [h] alone. *)
Lemma kept_fresh ctx h h1 h2 :
  extends h h1 -> List.length (contexts h) <= ctx -> kept ctx h1 h2 ->
  extends h h2.
Proof.
  intros (L1 & C1 & K1) Hfresh (L2 & C2 & K2). repeat split; [lia|lia|].
  intros f Hf. rewrite K2, K1; auto; lia.
Qed.

Lemma setVariable_kept ctx name v h : kept ctx h (setVariable ctx name v h).
Proof.
  unfold kept, setVariable; simpl. rewrite length_alter.
  repeat split; auto. intros f _ Hne. apply list_lookup_alter_ne. congruence.
Qed.

Lemma set_signal_kept ctx s h : kept ctx h (set_signal ctx s h).
Proof.
  unfold kept, set_signal; simpl. rewrite length_alter.
  repeat split; auto. intros f _ Hne. apply list_lookup_alter_ne. congruence.
Qed.

Lemma cache_set_extends cid key v h : extends h (cache_set cid key v h).
Proof.
  unfold extends, cache_set; simpl. rewrite length_alter. repeat split; auto.
Qed.

Lemma own_binding_setVariable ctx name v h c x :
  own_binding (setVariable ctx name v h) c x =
  if decide (c = ctx /\ x = name /\ ctx < List.length (contexts h))
  then Some v else own_binding h c x.
Proof.
  unfold own_binding, setVariable; simpl.
  destruct (decide (ctx = c)) as [->|Hne].
  - rewrite list_lookup_alter_eq.
    destruct (contexts h !! c) as [fr|] eqn:Hfr; simpl.
    + apply lookup_lt_Some in Hfr as Hlt.
      destruct (decide (name = x)) as [->|Hx].
      * rewrite lookup_insert_eq, decide_True; auto.
      * rewrite lookup_insert_ne by exact Hx. rewrite decide_False; [reflexivity|].
        intros (_ & -> & _). contradiction.
    + apply lookup_ge_None in Hfr. rewrite decide_False; [reflexivity|]. lia.
  - rewrite list_lookup_alter_ne by exact Hne.
    rewrite decide_False; [reflexivity|]. intros (-> & _). contradiction.
Qed.

Lemma setVariable_length ctx name v h :
  List.length (contexts (setVariable ctx name v h)) = List.length (contexts h).
Proof. unfold setVariable; simpl. apply length_alter. Qed.

Lemma setVariable_parent ctx name v h c :
  (parent <$> contexts (setVariable ctx name v h) !! c) =
  (parent <$> contexts h !! c).
Proof.
  unfold setVariable; simpl. destruct (decide (ctx = c)) as [->|Hne].
  - rewrite list_lookup_alter_eq. destruct (contexts h !! c); reflexivity.
  - rewrite list_lookup_alter_ne by exact Hne. reflexivity.
Qed.

Lemma fold_setVariable_kept ctx (names : list string) (f : string -> value) h :
  kept ctx h (fold_left (fun h' name => setVariable ctx name (f name) h') names h).
Proof.
  revert h. induction names as [|x names IH]; intros h; simpl.
  - apply kept_refl.
  - eapply kept_trans; [apply setVariable_kept|apply IH].
Qed.

Lemma fold_setVariable_length ctx (names : list string) (f : string -> value) h :
  List.length (contexts (fold_left (fun h' name => setVariable ctx name (f name) h') names h))
  = List.length (contexts h).
Proof.
  revert h. induction names as [|x names IH]; intros h; simpl; [reflexivity|].
  rewrite IH. apply setVariable_length.
Qed.

Lemma fold_setVariable_parent ctx (names : list string) (f : string -> value) h c :
  (parent <$> contexts (fold_left (fun h' name => setVariable ctx name (f name) h') names h) !! c)
  = (parent <$> contexts h !! c).
Proof.
  revert h. induction names as [|x names IH]; intros h; simpl; [reflexivity|].
  rewrite IH. apply setVariable_parent.
Qed.

(** After a run of [setVariable] calls on one frame, a name holds what the
    last call for it stored. *)
Lemma fold_setVariable_own ctx (names : list string) (f : string -> value) h x :
  ctx < List.length (contexts h) ->
  own_binding (fold_left (fun h' name => setVariable ctx name (f name) h') names h) ctx x
  = if decide (x ∈ names) then Some (f x) else own_binding h ctx x.
Proof.
  revert h. induction names as [|y names IH]; intros h Hlt; cbn [fold_left].
  - destruct (decide (x ∈ [])) as [Hin|_]; [|reflexivity].
    apply elem_of_nil in Hin as [].
  - rewrite IH by (rewrite setVariable_length; exact Hlt).
    destruct (decide (x ∈ names)) as [Hin|Hnin];
      destruct (decide (x ∈ y :: names)) as [Hin'|Hnin']; try reflexivity.
    + exfalso. apply Hnin'. right. exact Hin.
    + rewrite own_binding_setVariable.
      apply elem_of_cons in Hin' as [->|?]; [|contradiction].
      destruct (decide (ctx = ctx /\ y = y /\ ctx < List.length (contexts h)))
        as [_|Hn]; [reflexivity|]. exfalso. apply Hn. auto.
    + rewrite own_binding_setVariable.
      destruct (decide (ctx = ctx /\ x = y /\ ctx < List.length (contexts h)))
        as [(_ & -> & _)|_]; [|reflexivity].
      exfalso. apply Hnin'. left.
Qed.

Lemma fold_setVariable_rest ctx (names : list string) (f : string -> value) h :
  let h' := fold_left (fun h' name => setVariable ctx name (f name) h') names h in
  caches h' = caches h /\ console h' = console h.
Proof.
  revert h. induction names as [|x names IH]; intros h; simpl; [auto|].
  destruct (IH (setVariable ctx x (f x) h)) as [-> ->]. auto.
Qed.

Lemma injectBuiltIns_length ctx h :
  List.length (contexts (injectBuiltIns ctx h)) = List.length (contexts h).
Proof.
  apply (fold_setVariable_length ctx builtin_names (fun name => VBuiltin name ctx)).
Qed.

Lemma injectBuiltIns_kept ctx h : kept ctx h (injectBuiltIns ctx h).
Proof.
  apply (fold_setVariable_kept ctx builtin_names (fun name => VBuiltin name ctx)).
Qed.

Lemma injectBuiltIns_parent ctx h c :
  (parent <$> contexts (injectBuiltIns ctx h) !! c) = (parent <$> contexts h !! c).
Proof.
  apply (fold_setVariable_parent ctx builtin_names (fun name => VBuiltin name ctx)).
Qed.

Lemma injectBuiltIns_rest ctx h :
  caches (injectBuiltIns ctx h) = caches h /\
  console (injectBuiltIns ctx h) = console h.
Proof.
  apply (fold_setVariable_rest ctx builtin_names (fun name => VBuiltin name ctx)).
Qed.

Lemma injectBuiltIns_own ctx h x :
  ctx < List.length (contexts h) ->
  own_binding (injectBuiltIns ctx h) ctx x =
  if decide (x ∈ builtin_names) then Some (VBuiltin x ctx)
  else own_binding h ctx x.
Proof.
  apply (fold_setVariable_own ctx builtin_names (fun name => VBuiltin name ctx)).
Qed.

Lemma new_ExecutionContext_index p h ctx h' :
  new_ExecutionContext p h = (ctx, h') ->
  ctx = List.length (contexts h) /\
  List.length (contexts h') = S (List.length (contexts h)) /\
  caches h' = caches h /\ console h' = console h.
Proof.
  unfold new_ExecutionContext. intros [= <- <-].
  rewrite injectBuiltIns_length.
  destruct (injectBuiltIns_rest (List.length (contexts h))
              (mkHeap (contexts h ++ [mkContext ∅ p false false])
                      (caches h) (console h))) as [-> ->].
  simpl. rewrite length_app. simpl. repeat split; lia.
Qed.

Lemma new_ExecutionContext_extends p h ctx h' :
  new_ExecutionContext p h = (ctx, h') -> extends h h'.
Proof.
  intros Hnew. destruct (new_ExecutionContext_index _ _ _ _ Hnew) as (-> & Hlen & Hc & _).
  repeat split; [lia|rewrite Hc; lia|].
  intros f Hf. unfold new_ExecutionContext in Hnew.
  injection Hnew as <-.
  destruct (injectBuiltIns_kept (List.length (contexts h))
              (mkHeap (contexts h ++ [mkContext ∅ p false false])
                      (caches h) (console h))) as (_ & _ & K).
  rewrite K; simpl; [apply lookup_app_l; exact Hf | rewrite length_app; simpl; lia | lia].
Qed.

Lemma new_ExecutionContext_parent p h ctx h' :
  new_ExecutionContext p h = (ctx, h') ->
  (parent <$> contexts h' !! ctx) = Some p.
Proof.
  unfold new_ExecutionContext. intros [= <- <-].
  rewrite injectBuiltIns_parent. simpl.
  rewrite list_lookup_middle; reflexivity.
Qed.

(** [injectBuiltIns]: the fresh frame binds each of the ten names to its
    own built-in, and nothing else. *)
Lemma new_ExecutionContext_own p h ctx h' x :
  new_ExecutionContext p h = (ctx, h') ->
  own_binding h' ctx x =
  if decide (x ∈ builtin_names) then Some (VBuiltin x ctx) else None.
Proof.
  unfold new_ExecutionContext. intros [= <- <-].
  rewrite injectBuiltIns_own by (simpl; rewrite length_app; simpl; lia).
  destruct (decide (x ∈ builtin_names)); [reflexivity|].
  unfold own_binding. simpl. rewrite list_lookup_middle by reflexivity.
  simpl. apply lookup_empty.
Qed.

(** The walk along [parent] only reads the frames it passes. *)
Lemma lookup_chain_agree ctxs ctxs' name :
  chain_ok ctxs ->
  forall steps ctx,
    (forall f, f <= ctx -> ctxs' !! f = ctxs !! f) ->
    lookup_chain steps ctxs' ctx name = lookup_chain steps ctxs ctx name.
Proof.
  intros Hok. induction steps as [|steps IH]; intros ctx Hagree; simpl; [reflexivity|].
  rewrite (Hagree ctx) by lia.
  destruct (ctxs !! ctx) as [c|] eqn:Hc; [|reflexivity].
  destruct (variables c !! name); [reflexivity|].
  destruct (parent c) as [p|] eqn:Hp; [|reflexivity].
  apply IH. intros f Hf. apply Hagree. specialize (Hok _ _ _ Hc Hp). lia.
Qed.

(** A name bound in the frame itself is found there, whatever the
    ancestors bind. *)
Lemma getVariable_own ctx name v h :
  own_binding h ctx name = Some v -> getVariable ctx name h = (Normal v, h).
Proof.
  unfold own_binding, getVariable. simpl.
  destruct (contexts h !! ctx) as [c|]; simpl; [|discriminate].
  intros ->. reflexivity.
Qed.

End StoreFacts.

(* ===================================================================== *)
(** * Properties of the execution pass *)
(* ===================================================================== *)

Module ExecFacts.
Import Types Syntax Runtime Exec Invariants StoreFacts.

#[local] Arguments createChildContext : simpl never.
#[local] Arguments setVariable : simpl never.
#[local] Arguments set_signal : simpl never.
#[local] Arguments toFunction : simpl never.
#[local] Arguments call_builtin : simpl never.
#[local] Arguments getVariable : simpl never.
#[local] Arguments apply_operator : simpl never.

Lemma bind_inv {A B} (m : M A) (k : A -> M B) h r h' :
  bind m k h = (r, h') ->
  (exists a h1, m h = (Normal a, h1) /\ k a h1 = (r, h')) \/
  (exists f, m h = (Fail f, h') /\ r = Fail f).
Proof.
  unfold bind. destruct (m h) as [[a|f] h1] eqn:E.
  - intros H. left. eauto.
  - intros [= <- <-]. right. eauto.
Qed.

Ltac chain :=
  first [ eassumption
        | apply kept_refl
        | eapply kept_trans; [eassumption|chain] ].

Lemma createChildContext_fresh ctx h c h1 :
  createChildContext ctx h = (c, h1) ->
  extends h h1 /\ c = List.length (contexts h).
Proof.
  intros H. split.
  - eapply new_ExecutionContext_extends, H.
  - eapply new_ExecutionContext_index, H.
Qed.

Lemma bind_from_kept names : forall i args ctx h,
  kept ctx h (bind_from i names args ctx h).
Proof.
  induction names as [|p names IH]; intros i args ctx h; cbn [bind_from].
  - apply kept_refl.
  - eapply kept_trans; [apply setVariable_kept|apply IH].
Qed.

Lemma toFunction_kept ctx params body pure outer h f h' :
  toFunction params body pure outer h = (f, h') -> kept ctx h h'.
Proof.
  unfold toFunction. destruct pure; intros [= <- <-].
  - unfold kept; simpl. rewrite length_app. repeat split; auto; lia.
  - apply kept_refl.
Qed.

Lemma call_builtin_extends name args h r h' :
  call_builtin name args h = (r, h') -> extends h h'.
Proof.
  unfold call_builtin, ret, fail. intros H.
  repeat case_match; simplify_eq; try apply extends_refl.
  repeat split; simpl; auto.
Qed.

Section Local.

Variable exec : node -> nat -> M value.
Hypothesis exec_local : local exec.

Lemma run_stmts_kept stmts : forall ctx result h c r h',
  run_stmts exec stmts ctx result h = (c, r, h') -> kept ctx h h'.
Proof.
  induction stmts as [|stmt rest IH]; intros ctx result h c r h'; cbn [run_stmts].
  - intros [= <- <- <-]. apply kept_refl.
  - destruct (exec stmt ctx h) as [[v|f] h1] eqn:E.
    + intros H. apply exec_local in E. apply IH in H. chain.
    + intros [= <- <- <-]. apply exec_local in E. exact E.
Qed.

Lemma finish_inv c result h r h' :
  finish (c, result, h) = (r, h') -> h' = h.
Proof. destruct c; intros [= <- <-]; reflexivity. Qed.

Lemma run_scope_extends stmts ctx h r h' :
  run_scope exec stmts ctx h = (r, h') -> extends h h'.
Proof.
  unfold run_scope. destruct (createChildContext ctx h) as [c h1] eqn:Hc.
  destruct (run_stmts exec stmts c VUndefined h1) as [[cmp res] h2] eqn:Hrun.
  intros ->%finish_inv. apply createChildContext_fresh in Hc as [Hext ->].
  apply run_stmts_kept in Hrun. eapply kept_fresh; eauto.
Qed.

Lemma call_fn_extends params body outer args h r h' :
  call_fn exec params body outer args h = (r, h') -> extends h h'.
Proof.
  unfold call_fn. destruct (createChildContext outer h) as [c h1] eqn:Hc.
  apply createChildContext_fresh in Hc as [Hext ->].
  destruct (negb _).
  - intros [= <- <-]. exact Hext.
  - destruct (run_stmts exec body _ VUndefined _) as [[cmp res] h3] eqn:Hrun.
    apply run_stmts_kept in Hrun.
    assert (extends h h3).
    { eapply kept_fresh; [exact Hext|reflexivity|].
      eapply kept_trans; [apply bind_from_kept|exact Hrun]. }
    intros H'. repeat case_match; simplify_eq; assumption.
Qed.

Lemma call_arrow_extends paramNames body context args h r h' :
  call_arrow exec paramNames body context args h = (r, h') -> extends h h'.
Proof.
  unfold call_arrow. destruct (createChildContext context h) as [c h1] eqn:Hc.
  apply createChildContext_fresh in Hc as [Hext ->].
  intros H. apply exec_local in H.
  eapply kept_fresh; [exact Hext|reflexivity|].
  eapply kept_trans; [apply bind_from_kept|exact H].
Qed.

Lemma memoize_extends fn cid args h r h' :
  (forall h r h', fn args h = (r, h') -> extends h h') ->
  memoize fn cid args h = (r, h') -> extends h h'.
Proof.
  intros Hfn. unfold memoize. intros H.
  repeat case_match; simplify_eq; try apply extends_refl.
  - eapply extends_trans; [eapply Hfn; eassumption|apply cache_set_extends].
  - eapply Hfn; eassumption.
Qed.

Lemma call_value_extends f args h r h' :
  call_value exec f args h = (r, h') -> extends h h'.
Proof.
  destruct f; cbn [call_value]; unfold fail; try (intros [= <- <-]; apply extends_refl).
  - apply call_builtin_extends.
  - destruct cache.
    + apply memoize_extends. intros ? ? ?. apply call_fn_extends.
    + apply call_fn_extends.
  - apply call_arrow_extends.
Qed.

Lemma eval_args_kept args : forall ctx h r h',
  eval_args exec args ctx h = (r, h') -> kept ctx h h'.
Proof.
  induction args as [|arg rest IH]; intros ctx h r h'; cbn [eval_args].
  - intros [= <- <-]. apply kept_refl.
  - intros H. apply bind_inv in H as [(v & h1 & E & H)|(f & E & ->)].
    + assert (kept ctx h h1).
      { destruct arg; try (apply exec_local in E; exact E).
        destruct (toFunction _ _ _ _ _) as [fv h0] eqn:Ht.
        apply (toFunction_kept ctx) in Ht. simplify_eq. exact Ht. }
      apply bind_inv in H as [(vs & h2 & E2 & H)|(f & E2 & ->)].
      * apply IH in E2. unfold ret in H. simplify_eq. chain.
      * apply IH in E2. chain.
    + destruct arg; try (apply exec_local in E; exact E).
      destruct (toFunction _ _ _ _ _) as [fv h0] eqn:Ht. simplify_eq.
Qed.

Lemma exec_list_kept elements : forall ctx h r h',
  exec_list exec elements ctx h = (r, h') -> kept ctx h h'.
Proof.
  induction elements as [|el rest IH]; intros ctx h r h'; cbn [exec_list].
  - intros [= <- <-]. apply kept_refl.
  - intros H. apply bind_inv in H as [(v & h1 & E & H)|(f & E & ->)].
    + apply exec_local in E.
      apply bind_inv in H as [(vs & h2 & E2 & H)|(f & E2 & ->)].
      * apply IH in E2. unfold ret in H. simplify_eq. chain.
      * apply IH in E2. chain.
    + apply exec_local in E. exact E.
Qed.

Lemma exec_props_kept properties : forall ctx h r h',
  exec_props exec properties ctx h = (r, h') -> kept ctx h h'.
Proof.
  induction properties as [|[key el] rest IH]; intros ctx h r h'; cbn [exec_props].
  - intros [= <- <-]. apply kept_refl.
  - intros H. apply bind_inv in H as [(v & h1 & E & H)|(f & E & ->)].
    + apply exec_local in E.
      apply bind_inv in H as [(vs & h2 & E2 & H)|(f & E2 & ->)].
      * apply IH in E2. unfold ret in H. simplify_eq. chain.
      * apply IH in E2. chain.
    + apply exec_local in E. exact E.
Qed.

Lemma while_loop_kept fuel : forall condition body ctx result h r h',
  while_loop exec fuel condition body ctx result h = (r, h') -> kept ctx h h'.
Proof.
  induction fuel as [|fuel IH]; intros condition body ctx result h r h'; cbn [while_loop].
  - intros [= <- <-]. apply kept_refl.
  - destruct (exec condition ctx h) as [[c|f] h1] eqn:Ec; apply exec_local in Ec;
      [|intros [= <- <-]; exact Ec].
    destruct c; try (intros [= <- <-]; exact Ec).
    destruct b; cbn [negb]; [|intros [= <- <-]; exact Ec].
    destruct (createChildContext ctx h1) as [lc h2] eqn:Hc.
    apply createChildContext_fresh in Hc as [Hext _].
    apply (extends_kept ctx) in Hext.
    destruct (run_stmts exec body ctx result h2) as [[cmp res] h3] eqn:Hrun.
    apply run_stmts_kept in Hrun.
    intros H. repeat case_match; simplify_eq; try (apply IH in H); chain.
Qed.

Lemma for_loop_kept fuel : forall condition update body ctx result h r h',
  for_loop exec fuel condition update body ctx result h = (r, h') ->
  kept ctx h h'.
Proof.
  induction fuel as [|fuel IH]; intros condition update body ctx result h r h'; cbn [for_loop].
  - intros [= <- <-]. apply kept_refl.
  - destruct (exec condition ctx h) as [[c|f] h1] eqn:Ec; apply exec_local in Ec;
      [|intros [= <- <-]; exact Ec].
    destruct c; try (intros [= <- <-]; exact Ec).
    destruct b; cbn [negb]; [|intros [= <- <-]; exact Ec].
    destruct (createChildContext ctx h1) as [lc h2] eqn:Hc.
    apply createChildContext_fresh in Hc as [Hext ->].
    destruct (run_stmts exec body _ result h2) as [[cmp res] h3] eqn:Hrun.
    apply run_stmts_kept in Hrun.
    assert (Hbody : extends h1 h3) by (eapply kept_fresh; eauto).
    apply (extends_kept ctx) in Hbody. clear Hext Hrun.
    intros H.
    repeat match goal with
           | H : context [exec update ctx ?hh] |- _ =>
               let E := fresh "Eu" in
               destruct (exec update ctx hh) as [[?|?] ?] eqn:E;
               apply exec_local in E
           | H : context [match ?x with _ => _ end] |- _ =>
               is_var x; destruct x
           end; simplify_eq; try (apply IH in H); chain.
Qed.

Lemma do_while_loop_kept fuel : forall body condition ctx result h r h',
  do_while_loop exec fuel body condition ctx result h = (r, h') ->
  kept ctx h h'.
Proof.
  induction fuel as [|fuel IH]; intros body condition ctx result h r h'; cbn [do_while_loop].
  - intros [= <- <-]. apply kept_refl.
  - destruct (createChildContext ctx h) as [lc h1] eqn:Hc.
    apply createChildContext_fresh in Hc as [Hext ->].
    destruct (run_stmts exec body _ result h1) as [[cmp res] h2] eqn:Hrun.
    apply run_stmts_kept in Hrun.
    assert (Hbody : extends h h2) by (eapply kept_fresh; eauto).
    apply (extends_kept ctx) in Hbody. clear Hext Hrun.
    intros H.
    repeat match goal with
           | H : context [exec condition ctx ?hh] |- _ =>
               let E := fresh "Ec" in
               destruct (exec condition ctx hh) as [[?|?] ?] eqn:E;
               apply exec_local in E
           | H : context [match ?x with _ => _ end] |- _ =>
               is_var x; destruct x
           | H : context [if ?x then _ else _] |- _ => destruct x
           end; simplify_eq; try (apply IH in H); chain.
Qed.

Lemma for_each_loop_kept itemName body ctx items : forall result h r h',
  for_each_loop exec itemName body ctx items result h = (r, h') ->
  kept ctx h h'.
Proof.
  induction items as [|item rest IH]; intros result h r h'; cbn [for_each_loop].
  - intros [= <- <-]. apply kept_refl.
  - destruct (createChildContext ctx h) as [lc h1] eqn:Hc.
    apply createChildContext_fresh in Hc as [Hext ->].
    destruct (run_stmts exec body _ result _) as [[cmp res] h2] eqn:Hrun.
    apply run_stmts_kept in Hrun.
    assert (Hbody : extends h h2).
    { eapply kept_fresh; [exact Hext|reflexivity|].
      eapply kept_trans; [apply setVariable_kept|exact Hrun]. }
    apply (extends_kept ctx) in Hbody. clear Hext Hrun.
    intros H. repeat case_match; simplify_eq; try (apply IH in H); chain.
Qed.

Lemma switch_cases_kept v cases defaultCase ctx : forall h r h',
  switch_cases exec v cases defaultCase ctx h = (r, h') -> kept ctx h h'.
Proof.
  induction cases as [|[m body] rest IH]; intros h r h'; cbn [switch_cases].
  - destruct defaultCase.
    + intros H. apply extends_kept. eapply run_scope_extends, H.
    + intros [= <- <-]. apply kept_refl.
  - intros H. apply bind_inv in H as [(mv & h1 & E & H)|(f & E & ->)];
      apply exec_local in E; [|exact E].
    destruct (strict_eq v mv) as [[|]|].
    + apply run_scope_extends, (extends_kept ctx) in H. chain.
    + apply IH in H. chain.
    + unfold fail in H. simplify_eq. exact E.
Qed.

Lemma try_catch_kept tryBlock catchVar catchBlock ctx h r h' :
  try_catch exec tryBlock catchVar catchBlock ctx h = (r, h') -> kept ctx h h'.
Proof.
  unfold try_catch. destruct (createChildContext ctx h) as [tc h1] eqn:Hc.
  apply createChildContext_fresh in Hc as [Hext ->].
  destruct (run_stmts exec tryBlock _ VUndefined h1) as [[cmp res] h2] eqn:Hrun.
  apply run_stmts_kept in Hrun.
  assert (Htry : extends h h2) by (eapply kept_fresh; eauto).
  clear Hext Hrun. intros H. apply extends_kept.
  destruct cmp as [[[message| | |]| |]|]; simplify_eq; try exact Htry.
  destruct (createChildContext ctx h2) as [cc h3] eqn:Hc.
  apply createChildContext_fresh in Hc as [Hext ->].
  destruct (run_stmts exec catchBlock _ VUndefined _) as [[cmp' res'] h4] eqn:Hrun.
  apply finish_inv in H as ->. apply run_stmts_kept in Hrun.
  eapply extends_trans; [exact Htry|].
  eapply kept_fresh; [exact Hext|reflexivity|].
  eapply kept_trans; [apply setVariable_kept|exact Hrun].
Qed.

End Local.

(** Executing a node in a context leaves every other existing frame as it
    was. *)
Lemma execute_local fuel : local (execute fuel).
Proof.
  induction fuel as [|fuel IH]; intros n ctx h r h' H.
  - cbn [execute] in H. unfold fail in H. simplify_eq. apply kept_refl.
  - destruct n; cbn [execute] in H.
    + (* VariableDeclarationNode *)
      destruct (decide (varType = VTfunction)).
      * destruct n; unfold throw_error, fail in H; simplify_eq;
          try apply kept_refl.
        -- destruct (toFunction _ _ _ _ _) as [fv h0] eqn:Ht.
           apply (toFunction_kept ctx) in Ht. simplify_eq.
           eapply kept_trans; [exact Ht|apply setVariable_kept].
        -- apply setVariable_kept.
      * apply bind_inv in H as [(v & h1 & E & H)|(f & E & ->)];
          apply IH in E; [|exact E].
        unfold throw_error, fail in H.
        repeat case_match; simplify_eq; try exact E.
        eapply kept_trans; [exact E|apply setVariable_kept].
    + (* AssignmentNode *)
      apply bind_inv in H as [(v & h1 & E & H)|(f & E & ->)];
        apply IH in E; [|exact E].
      simplify_eq. eapply kept_trans; [exact E|apply setVariable_kept].
    + (* ReturnNode *)
      apply bind_inv in H as [(v & h1 & E & H)|(f & E & ->)];
        apply IH in E; [|exact E].
      unfold fail in H. simplify_eq. exact E.
    + unfold fail in H. simplify_eq. apply kept_refl.
    + unfold fail in H. simplify_eq. apply kept_refl.
    + (* ErrorNode *)
      apply bind_inv in H as [(v & h1 & E & H)|(f & E & ->)];
        apply IH in E; [|exact E].
      unfold throw_error, fail in H. repeat case_match; simplify_eq; exact E.
    + unfold throw_error, fail in H. simplify_eq. apply kept_refl.
    + unfold throw_error, fail in H. simplify_eq. apply kept_refl.
    + (* FunctionCallNode *)
      apply bind_inv in H as [(fv & h1 & E & H)|(f & E & ->)];
        unfold getVariable in E; simplify_eq; [|apply kept_refl].
      destruct (negb _); [unfold throw_error, fail in H; simplify_eq; apply kept_refl|].
      apply bind_inv in H as [(vs & h2 & E2 & H)|(f & E2 & ->)];
        apply (eval_args_kept _ IH) in E2; [|exact E2].
      apply (call_value_extends _ IH), (extends_kept ctx) in H. chain.
    + unfold ret in H. simplify_eq. apply kept_refl.
    + unfold getVariable in H. simplify_eq. apply kept_refl.
    + (* OperatorNode *)
      apply bind_inv in H as [(v1 & h1 & E1 & H)|(f & E & ->)];
        [apply IH in E1|apply IH in E; exact E].
      apply bind_inv in H as [(v2 & h2 & E2 & H)|(f & E & ->)];
        [apply IH in E2|apply IH in E; chain].
      simplify_eq. chain.
    + unfold ret in H. simplify_eq. apply kept_refl.
    + (* ArrayLiteralNode *)
      apply bind_inv in H as [(vs & h1 & E & H)|(f & E & ->)];
        apply (exec_list_kept _ IH) in E; [|exact E].
      unfold ret in H. simplify_eq. exact E.
    + (* ObjectLiteralNode *)
      apply bind_inv in H as [(vs & h1 & E & H)|(f & E & ->)];
        apply (exec_props_kept _ IH) in E; [|exact E].
      unfold ret in H. simplify_eq. exact E.
    + apply extends_kept. eapply (run_scope_extends _ IH), H.
    + (* IfNode *)
      apply bind_inv in H as [(c & h1 & E & H)|(f & E & ->)];
        apply IH in E; [|exact E].
      destruct c; unfold throw_error, fail in H; simplify_eq; try exact E.
      apply (run_scope_extends _ IH), (extends_kept ctx) in H. chain.
    + simplify_eq. apply set_signal_kept.
    + eapply (while_loop_kept _ IH), H.
    + (* ForNode *)
      apply bind_inv in H as [(v & h1 & E & H)|(f & E & ->)];
        apply IH in E; [|exact E].
      apply (for_loop_kept _ IH) in H. chain.
    + (* SwitchNode *)
      apply bind_inv in H as [(v & h1 & E & H)|(f & E & ->)];
        apply IH in E; [|exact E].
      apply (switch_cases_kept _ IH) in H. chain.
    + eapply (do_while_loop_kept _ IH), H.
    + (* ForEachNode *)
      apply bind_inv in H as [(v & h1 & E & H)|(f & E & ->)];
        apply IH in E; [|exact E].
      destruct v; unfold throw_error, fail in H; simplify_eq; try exact E.
      apply (for_each_loop_kept _ IH) in H. chain.
    + eapply (try_catch_kept _ IH), H.
Qed.

Lemma bind_from_other names : forall i args ctx h c x,
  x ∉ names ->
  own_binding (bind_from i names args ctx h) c x = own_binding h c x.
Proof.
  induction names as [|p names IH]; intros i args ctx h c x Hx;
    cbn [bind_from]; [reflexivity|].
  apply not_elem_of_cons in Hx as [Hne Hx].
  rewrite IH by exact Hx.
  rewrite own_binding_setVariable, decide_False; [reflexivity|].
  intros (_ & -> & _). contradiction.
Qed.

Lemma bind_from_length names : forall i args ctx h,
  List.length (contexts (bind_from i names args ctx h))
  = List.length (contexts h).
Proof.
  induction names as [|p names IH]; intros i args ctx h; cbn [bind_from];
    [reflexivity|].
  rewrite IH. apply setVariable_length.
Qed.


(** Positional binding: the name at position [i] holds [args[i]], unless
    the same name comes again later in the list. *)
Lemma bind_from_own names : forall k args ctx h i p,
  ctx < List.length (contexts h) ->
  names !! i = Some p ->
  p ∉ drop (S i) names ->
  own_binding (bind_from k names args ctx h) ctx p
  = Some (nth (k + i) args VUndefined).
Proof.
  induction names as [|q names IH]; intros k args ctx h i p Hctx Hi Hlast;
    [discriminate|].
  cbn [bind_from]. destruct i as [|i].
  - injection Hi as ->. cbn [drop] in Hlast.
    rewrite bind_from_other by exact Hlast.
    rewrite own_binding_setVariable, decide_True by auto.
    rewrite Nat.add_0_r. reflexivity.
  - cbn [drop] in Hlast. cbn [lookup list_lookup] in Hi.
    rewrite (IH (S k) args ctx _ i p); [| |exact Hi|exact Hlast].
    + f_equal. f_equal. lia.
    + rewrite setVariable_length. exact Hctx.
Qed.

End ExecFacts.

(* ===================================================================== *)
(** * Well-formed stores are preserved *)
(* ===================================================================== *)

Module HeapFacts.
Import Types Syntax Runtime Exec Invariants TypesFacts StoreFacts ExecFacts.

#[local] Arguments createChildContext : simpl never.
#[local] Arguments setVariable : simpl never.
#[local] Arguments set_signal : simpl never.
#[local] Arguments toFunction : simpl never.
#[local] Arguments call_builtin : simpl never.
#[local] Arguments getVariable : simpl never.
#[local] Arguments apply_operator : simpl never.

Lemma value_nested_ind (P : value -> Prop) :
  (forall v, (forall elems, v <> VArray elems) ->
             (forall props, v <> VObject props) -> P v) ->
  (forall elems, Forall P elems -> P (VArray elems)) ->
  (forall props, Forall (fun kv => P (snd kv)) props -> P (VObject props)) ->
  forall v, P v.
Proof.
  intros Hleaf Harr Hobj. fix IH 1. intros v.
  destruct v as [| | | | | |elems|props| | | |]; try (apply Hleaf; discriminate).
  - apply Harr. induction elems as [|e elems IHe]; constructor;
      [apply IH|exact IHe].
  - apply Hobj. induction props as [|[k e] props IHp]; constructor;
      [apply IH|exact IHp].
Qed.

Lemma closures_within_mono n m v :
  n <= m -> closures_within n v = true -> closures_within m v = true.
Proof.
  intros Hnm. induction v as [v Hna Hno|elems IH|props IH] using value_nested_ind.
  - destruct v; cbn [closures_within]; intros Hv; try reflexivity.
    + exfalso. eapply Hna. reflexivity.
    + exfalso. eapply Hno. reflexivity.
    + apply Nat.ltb_lt in Hv. apply Nat.ltb_lt. lia.
    + apply Nat.ltb_lt in Hv. apply Nat.ltb_lt. lia.
  - cbn [closures_within]. rewrite !forallb_Forall. intros H.
    induction H as [|e elems He Hrest IHrest]; [constructor|].
    inversion IH; subst. constructor; auto.
  - cbn [closures_within]. rewrite !forallb_Forall. intros H.
    induction H as [|e elems He Hrest IHrest]; [constructor|].
    inversion IH; subst. constructor; auto.
Qed.

Lemma wf_outcome_mono {A} (P : nat -> A -> Prop) n m r :
  (forall a, P n a -> P m a) -> n <= m ->
  wf_outcome P n r -> wf_outcome P m r.
Proof.
  intros HP Hnm. destruct r as [a|[[]| |]]; simpl; auto.
  apply closures_within_mono, Hnm.
Qed.

Lemma wf_heap_setVariable ctx name v h :
  wf_heap h -> closures_within (List.length (contexts h)) v = true ->
  wf_heap (setVariable ctx name v h).
Proof.
  intros (Hok & Hvars & Hcaches) Hv. unfold wf_heap.
  rewrite setVariable_length. split; [|split].
  - intros i c p Hi Hp.
    assert (Hpar : (parent <$> contexts h !! i) = Some (Some p)).
    { rewrite <- (setVariable_parent ctx name v h i), Hi. simpl. congruence. }
    destruct (contexts h !! i) as [c0|] eqn:Hc0; [|discriminate].
    injection Hpar as Hpar. eapply Hok; eassumption.
  - intros i c x w Hi Hx.
    assert (Hown : own_binding (setVariable ctx name v h) i x = Some w).
    { unfold own_binding. rewrite Hi. exact Hx. }
    rewrite own_binding_setVariable in Hown.
    destruct (decide _); [congruence|].
    unfold own_binding in Hown.
    destruct (contexts h !! i) as [c0|] eqn:Hc0; [|discriminate].
    eapply Hvars; eassumption.
  - exact Hcaches.
Qed.

Lemma wf_heap_set_signal ctx s h : wf_heap h -> wf_heap (set_signal ctx s h).
Proof.
  intros (Hok & Hvars & Hcaches). unfold wf_heap, set_signal; simpl.
  rewrite length_alter. split; [|split; [|exact Hcaches]].
  - intros i c p Hi Hp. destruct (decide (ctx = i)) as [->|Hne].
    + rewrite list_lookup_alter_eq in Hi.
      destruct (contexts h !! i) as [c0|] eqn:Hc0; [|discriminate].
      injection Hi as <-. apply (Hok i c0 p Hc0). destruct s; exact Hp.
    + rewrite list_lookup_alter_ne in Hi by exact Hne. eapply Hok; eassumption.
  - intros i c x w Hi Hx. destruct (decide (ctx = i)) as [->|Hne].
    + rewrite list_lookup_alter_eq in Hi.
      destruct (contexts h !! i) as [c0|] eqn:Hc0; [|discriminate].
      injection Hi as <-. apply (Hvars i c0 x w Hc0). destruct s; exact Hx.
    + rewrite list_lookup_alter_ne in Hi by exact Hne. eapply Hvars; eassumption.
Qed.

Lemma wf_heap_fold_setVariable ctx (names : list string) (f : string -> value) :
  forall h,
    wf_heap h ->
    (forall x, closures_within (List.length (contexts h)) (f x) = true) ->
    wf_heap (fold_left (fun h' name => setVariable ctx name (f name) h') names h).
Proof.
  induction names as [|x names IH]; intros h Hwf Hf; cbn [fold_left]; [exact Hwf|].
  apply IH.
  - apply wf_heap_setVariable; auto.
  - intros y. rewrite setVariable_length. apply Hf.
Qed.

Lemma wf_heap_new_context p h :
  wf_heap h ->
  (forall q, p = Some q -> q < List.length (contexts h)) ->
  wf_heap (snd (new_ExecutionContext p h)).
Proof.
  intros (Hok & Hvars & Hcaches) Hp. unfold new_ExecutionContext; cbn [snd].
  apply (wf_heap_fold_setVariable _ builtin_names
           (fun name => VBuiltin name (List.length (contexts h)))).
  - unfold wf_heap; simpl. rewrite length_app; simpl. split; [|split].
    + intros i c q Hi Hq. apply lookup_app_Some in Hi as [Hi|[Hlen Hi]].
      * eapply Hok; eassumption.
      * destruct (i - List.length (contexts h)) as [|k] eqn:Hk; [|discriminate].
        injection Hi as <-. simpl in Hq. specialize (Hp q Hq). lia.
    + intros i c x v Hi Hx. apply lookup_app_Some in Hi as [Hi|[Hlen Hi]].
      * eapply closures_within_mono; [|eapply Hvars; eassumption]. lia.
      * destruct (i - List.length (contexts h)) as [|k] eqn:Hk; [|discriminate].
        injection Hi as <-. simpl in Hx. rewrite lookup_empty in Hx. discriminate.
    + intros cid c key v Hc Hk.
      eapply closures_within_mono; [|eapply Hcaches; eassumption]. lia.
  - reflexivity.
Qed.

Lemma wf_heap_createChildContext ctx h c h1 :
  wf_heap h -> ctx < List.length (contexts h) ->
  createChildContext ctx h = (c, h1) ->
  wf_heap h1 /\ c = List.length (contexts h)
  /\ List.length (contexts h1) = S (List.length (contexts h)).
Proof.
  intros Hwf Hctx Hc.
  pose proof (new_ExecutionContext_index _ _ _ _ Hc) as (-> & Hlen & _).
  split; [|auto]. unfold createChildContext in Hc.
  replace h1 with (snd (new_ExecutionContext (Some ctx) h)) by (rewrite Hc; reflexivity).
  apply wf_heap_new_context; [exact Hwf|]. intros q [= <-]. exact Hctx.
Qed.

Lemma lookup_chain_wf h : wf_heap h -> forall steps ctx name v,
  lookup_chain steps (contexts h) ctx name = Normal v ->
  closures_within (List.length (contexts h)) v = true.
Proof.
  intros (_ & Hvars & _). induction steps as [|steps IH]; intros ctx name v;
    cbn [lookup_chain]; [discriminate|].
  destruct (contexts h !! ctx) as [c|] eqn:Hc; [|discriminate].
  destruct (variables c !! name) as [w|] eqn:Hw.
  - intros [= <-]. eapply Hvars; eassumption.
  - destruct (parent c); [apply IH|discriminate].
Qed.

Lemma wf_heap_cache_set cid key v h :
  wf_heap h -> closures_within (List.length (contexts h)) v = true ->
  wf_heap (cache_set cid key v h).
Proof.
  intros (Hok & Hvars & Hcaches) Hv. unfold wf_heap, cache_set; simpl.
  split; [exact Hok|]. split; [exact Hvars|].
  intros cid' c k w Hc Hk. destruct (decide (cid = cid')) as [->|Hne].
  - rewrite list_lookup_alter_eq in Hc.
    destruct (caches h !! cid') as [c0|] eqn:Hc0; [|discriminate].
    injection Hc as <-. destruct (decide (key = k)) as [->|Hk'].
    + rewrite lookup_insert_eq in Hk. congruence.
    + rewrite lookup_insert_ne in Hk by exact Hk'. eapply Hcaches; eassumption.
  - rewrite list_lookup_alter_ne in Hc by exact Hne. eapply Hcaches; eassumption.
Qed.

Lemma wf_heap_toFunction params body pure ctx h f h' :
  wf_heap h -> ctx < List.length (contexts h) ->
  toFunction params body pure ctx h = (f, h') ->
  wf_heap h' /\ contexts h' = contexts h
  /\ closures_within (List.length (contexts h)) f = true.
Proof.
  intros Hwf Hctx. unfold toFunction. destruct pure; intros [= <- <-]; simpl.
  - split; [|split; [reflexivity|apply Nat.ltb_lt, Hctx]].
    destruct Hwf as (Hok & Hvars & Hcaches). split; [exact Hok|].
    split; [exact Hvars|]. simpl.
    intros cid c key v Hc Hk. apply lookup_app_Some in Hc as [Hc|[_ Hc]].
    + eapply Hcaches; eassumption.
    + destruct (cid - List.length (caches h)); [|discriminate].
      injection Hc as <-. rewrite lookup_empty in Hk. discriminate.
  - split; [exact Hwf|]. split; [reflexivity|apply Nat.ltb_lt, Hctx].
Qed.

Lemma apply_operator_wf op l r n v :
  closures_within n l = true -> closures_within n r = true ->
  apply_operator op l r = Normal v -> closures_within n v = true.
Proof.
  intros Hl Hr. unfold apply_operator, num_result. intros Happ.
  repeat case_decide; repeat case_match; simplify_eq; try reflexivity.
  cbn [closures_within] in *. rewrite forallb_app, Hl, Hr. reflexivity.
Qed.

Lemma apply_operator_no_return op l r v :
  apply_operator op l r <> Throw (ReturnSignal v).
Proof.
  unfold apply_operator, num_result. intros Happ.
  repeat case_decide; repeat case_match; simplify_eq.
Qed.

Lemma call_builtin_wf name args h r h' :
  wf_heap h -> call_builtin name args h = (r, h') ->
  wf_heap h' /\ contexts h' = contexts h
  /\ wf_outcome wf_val (List.length (contexts h')) r.
Proof.
  intros Hwf. unfold call_builtin, ret, fail. intros H.
  repeat case_match; simplify_eq; (split; [exact Hwf|split; reflexivity]).
Qed.

Lemma bind_from_wf names : forall i args ctx h,
  wf_heap h -> Forall (wf_val (List.length (contexts h))) args ->
  wf_heap (bind_from i names args ctx h).
Proof.
  induction names as [|p names IH]; intros i args ctx h Hwf Hargs;
    cbn [bind_from]; [exact Hwf|].
  apply IH.
  - apply wf_heap_setVariable; [exact Hwf|].
    destruct (nth_in_or_default i args VUndefined) as [Hin| ->]; [|reflexivity].
    rewrite Forall_forall in Hargs. apply Hargs, list_elem_of_In, Hin.
  - rewrite setVariable_length. exact Hargs.
Qed.

End HeapFacts.

Module HeapSafe.
Import Types Syntax Runtime Exec Invariants TypesFacts StoreFacts ExecFacts.
Import HeapFacts.

#[local] Arguments createChildContext : simpl never.
#[local] Arguments setVariable : simpl never.
#[local] Arguments set_signal : simpl never.
#[local] Arguments toFunction : simpl never.
#[local] Arguments call_builtin : simpl never.
#[local] Arguments getVariable : simpl never.
#[local] Arguments apply_operator : simpl never.

Lemma Forall_wf_val_mono n m (vs : list value) :
  n <= m -> Forall (wf_val n) vs -> Forall (wf_val m) vs.
Proof.
  intros Hnm H. eapply Forall_impl; [exact H|].
  intros v. apply closures_within_mono, Hnm.
Qed.

Lemma wf_val_undefined n : wf_val n VUndefined.
Proof. reflexivity. Qed.

Lemma kept_length ctx h h' :
  kept ctx h h' -> List.length (contexts h) <= List.length (contexts h').
Proof. intros (H & _). exact H. Qed.

Lemma lookup_chain_safe h :
  wf_heap h -> forall steps ctx name,
  wf_outcome wf_val (List.length (contexts h))
             (lookup_chain steps (contexts h) ctx name).
Proof.
  intros (_ & Hvars & _). induction steps as [|steps IH]; intros ctx name;
    cbn [lookup_chain]; [exact I|].
  destruct (contexts h !! ctx) as [c|] eqn:Hc; [|exact I].
  destruct (variables c !! name) as [w|] eqn:Hw.
  - simpl. eapply Hvars; eassumption.
  - destruct (parent c); [apply IH|exact I].
Qed.

Section Safe.

Variable exec : node -> nat -> M value.
Hypothesis exec_local : local exec.
Hypothesis exec_safe : safe exec.

Lemma run_stmts_safe stmts : forall ctx result h c r h',
  wf_heap h -> ctx < List.length (contexts h) ->
  wf_val (List.length (contexts h)) result ->
  run_stmts exec stmts ctx result h = (c, r, h') ->
  wf_heap h'
  /\ wf_val (List.length (contexts h')) r
  /\ forall v, c = Some (Thrown (ReturnSignal v)) ->
               wf_val (List.length (contexts h')) v.
Proof.
  induction stmts as [|stmt rest IH]; intros ctx result h c r h' Hwf Hctx Hres;
    cbn [run_stmts].
  - intros [= <- <- <-]. split; [exact Hwf|]. split; [exact Hres|discriminate].
  - destruct (exec stmt ctx h) as [[v|f] h1] eqn:E.
    + intros Hrun. pose proof (kept_length _ _ _ (exec_local _ _ _ _ _ E)) as Hlen.
      destruct (exec_safe _ _ _ _ _ Hwf Hctx E) as [Hwf1 Hv].
      apply (IH ctx v h1 c r h' Hwf1 ltac:(lia) Hv Hrun).
    + intros [= <- <- <-].
      pose proof (kept_length _ _ _ (exec_local _ _ _ _ _ E)) as Hlen.
      destruct (exec_safe _ _ _ _ _ Hwf Hctx E) as [Hwf1 Hv].
      split; [exact Hwf1|]. split.
      * eapply closures_within_mono; [exact Hlen|exact Hres].
      * intros v [= ->]. exact Hv.
Qed.

Lemma finish_safe c result h r h' :
  wf_heap h -> wf_val (List.length (contexts h)) result ->
  (forall v, c = Some (Thrown (ReturnSignal v)) ->
             wf_val (List.length (contexts h)) v) ->
  finish (c, result, h) = (r, h') ->
  wf_heap h' /\ wf_outcome wf_val (List.length (contexts h')) r.
Proof.
  intros Hwf Hres Hret. destruct c as [f|]; intros [= <- <-]; (split; [exact Hwf|]).
  - destruct f as [[m|v| |]| |]; simpl; auto. apply Hret. reflexivity.
  - exact Hres.
Qed.

Lemma run_scope_safe stmts ctx h r h' :
  wf_heap h -> ctx < List.length (contexts h) ->
  run_scope exec stmts ctx h = (r, h') ->
  wf_heap h' /\ wf_outcome wf_val (List.length (contexts h')) r.
Proof.
  intros Hwf Hctx. unfold run_scope.
  destruct (createChildContext ctx h) as [c h1] eqn:Hc.
  destruct (wf_heap_createChildContext _ _ _ _ Hwf Hctx Hc) as (Hwf1 & -> & Hlen).
  destruct (run_stmts exec stmts _ VUndefined h1) as [[cmp res] h2] eqn:Hrun.
  assert (Hin : List.length (contexts h) < List.length (contexts h1)) by lia.
  destruct (run_stmts_safe _ _ _ _ _ _ _ Hwf1 Hin (wf_val_undefined _) Hrun)
    as (Hwf2 & Hres & Hret).
  apply finish_safe; assumption.
Qed.

Lemma call_fn_safe params body outer args h r h' :
  wf_heap h -> outer < List.length (contexts h) ->
  Forall (wf_val (List.length (contexts h))) args ->
  call_fn exec params body outer args h = (r, h') ->
  wf_heap h' /\ wf_outcome wf_val (List.length (contexts h')) r.
Proof.
  intros Hwf Houter Hargs. unfold call_fn.
  destruct (createChildContext outer h) as [c h1] eqn:Hc.
  destruct (wf_heap_createChildContext _ _ _ _ Hwf Houter Hc) as (Hwf1 & -> & Hlen).
  destruct (negb _); [intros [= <- <-]; split; [exact Hwf1|exact I]|].
  destruct (run_stmts exec body _ VUndefined _) as [[cmp res] h3] eqn:Hrun.
  assert (Hwf2 : wf_heap (bind_from 0 params args (List.length (contexts h)) h1)).
  { apply bind_from_wf; [exact Hwf1|].
    eapply Forall_wf_val_mono; [|exact Hargs]. lia. }
  assert (Hin : List.length (contexts h)
                < List.length (contexts (bind_from 0 params args
                                           (List.length (contexts h)) h1)))
    by (rewrite bind_from_length; lia).
  destruct (run_stmts_safe _ _ _ _ _ _ _ Hwf2 Hin (wf_val_undefined _) Hrun)
    as (Hwf3 & Hres & Hret).
  intros H. destruct cmp as [[[m|v| |]| |]|]; simplify_eq;
    (split; [exact Hwf3|]); simpl; auto.
  reflexivity.
Qed.

Lemma call_arrow_safe paramNames body context args h r h' :
  wf_heap h -> context < List.length (contexts h) ->
  Forall (wf_val (List.length (contexts h))) args ->
  call_arrow exec paramNames body context args h = (r, h') ->
  wf_heap h' /\ wf_outcome wf_val (List.length (contexts h')) r.
Proof.
  intros Hwf Hctx Hargs. unfold call_arrow.
  destruct (createChildContext context h) as [c h1] eqn:Hc.
  destruct (wf_heap_createChildContext _ _ _ _ Hwf Hctx Hc) as (Hwf1 & -> & Hlen).
  apply exec_safe.
  - apply bind_from_wf; [exact Hwf1|].
    eapply Forall_wf_val_mono; [|exact Hargs]. lia.
  - rewrite bind_from_length. lia.
Qed.

Lemma memoize_safe fn cid args h r h' :
  (forall r h', fn args h = (r, h') ->
                wf_heap h' /\ wf_outcome wf_val (List.length (contexts h')) r) ->
  wf_heap h ->
  memoize fn cid args h = (r, h') ->
  wf_heap h' /\ wf_outcome wf_val (List.length (contexts h')) r.
Proof.
  intros Hfn Hwf. unfold memoize. intros H.
  destruct (JSON_stringify args) as [key|];
    [|injection H as <- <-; split; [exact Hwf|exact I]].
  destruct (cache_lookup cid key h) as [cached|] eqn:Hhit.
  - injection H as <- <-. split; [exact Hwf|]. simpl.
    unfold cache_lookup in Hhit.
    destruct (caches h !! cid) as [c|] eqn:Hc; [|discriminate].
    destruct Hwf as (_ & _ & Hcaches). eapply Hcaches; eassumption.
  - destruct (fn args h) as [[res|f] h1] eqn:Hcall;
      destruct (Hfn _ _ eq_refl) as [Hwf1 Hres]; injection H as <- <-.
    + split; [apply wf_heap_cache_set; assumption|exact Hres].
    + split; assumption.
Qed.

Lemma call_value_safe f args h r h' :
  wf_heap h -> wf_val (List.length (contexts h)) f ->
  Forall (wf_val (List.length (contexts h))) args ->
  call_value exec f args h = (r, h') ->
  wf_heap h' /\ wf_outcome wf_val (List.length (contexts h')) r.
Proof.
  intros Hwf Hf Hargs.
  destruct f; cbn [call_value]; unfold fail;
    try (intros [= <- <-]; split; [exact Hwf|exact I]).
  - intros H. destruct (call_builtin_wf _ _ _ _ _ Hwf H) as (? & _ & ?). auto.
  - apply Nat.ltb_lt in Hf. destruct cache.
    + apply memoize_safe; [|exact Hwf]. intros r0 h0'.
      apply call_fn_safe; assumption.
    + apply call_fn_safe; assumption.
  - apply Nat.ltb_lt in Hf. apply call_arrow_safe; assumption.
Qed.

Lemma eval_args_safe args : forall ctx h r h',
  wf_heap h -> ctx < List.length (contexts h) ->
  eval_args exec args ctx h = (r, h') ->
  wf_heap h'
  /\ wf_outcome (fun n vs => Forall (wf_val n) vs) (List.length (contexts h')) r.
Proof.
  induction args as [|arg rest IH]; intros ctx h r h' Hwf Hctx; cbn [eval_args].
  - intros [= <- <-]. split; [exact Hwf|constructor].
  - intros H. apply bind_inv in H as [(v & h1 & E & H)|(f & E & ->)].
    + assert (Hfirst : wf_heap h1 /\ wf_val (List.length (contexts h1)) v
                       /\ List.length (contexts h) <= List.length (contexts h1)).
      { destruct arg;
          try (pose proof (kept_length _ _ _ (exec_local _ _ _ _ _ E));
               destruct (exec_safe _ _ _ _ _ Hwf Hctx E); auto).
        destruct (toFunction _ _ _ _ _) as [fv h0] eqn:Ht.
        destruct (wf_heap_toFunction _ _ _ _ _ _ _ Hwf Hctx Ht) as (? & Hsame & ?).
        simplify_eq. rewrite Hsame. auto. }
      destruct Hfirst as (Hwf1 & Hv & Hlen).
      apply bind_inv in H as [(vs & h2 & E2 & H)|(f & E2 & ->)].
      * pose proof (kept_length _ _ _ (eval_args_kept _ exec_local _ _ _ _ _ E2)).
        assert (Hin : ctx < List.length (contexts h1)) by lia.
        destruct (IH _ _ _ _ Hwf1 Hin E2) as [Hwf2 Hvs].
        unfold ret in H. simplify_eq. split; [exact Hwf2|]. simpl in *.
        constructor; [|exact Hvs].
        eapply closures_within_mono; [|exact Hv]. lia.
      * assert (Hin : ctx < List.length (contexts h1)) by lia.
        destruct (IH _ _ _ _ Hwf1 Hin E2) as [Hwf2 Hvs].
        split; [exact Hwf2|]. destruct f as [[]| |]; simpl in *; auto.
    + destruct arg;
        try (destruct (exec_safe _ _ _ _ _ Hwf Hctx E) as [? Hr]; split;
             [assumption|destruct f as [[]| |]; simpl in *; auto]).
      destruct (toFunction _ _ _ _ _) as [fv h0] eqn:Ht. simplify_eq.
Qed.

Lemma exec_list_safe elements : forall ctx h r h',
  wf_heap h -> ctx < List.length (contexts h) ->
  exec_list exec elements ctx h = (r, h') ->
  wf_heap h'
  /\ wf_outcome (fun n vs => Forall (wf_val n) vs) (List.length (contexts h')) r.
Proof.
  induction elements as [|el rest IH]; intros ctx h r h' Hwf Hctx; cbn [exec_list].
  - intros [= <- <-]. split; [exact Hwf|constructor].
  - intros H. apply bind_inv in H as [(v & h1 & E & H)|(f & E & ->)].
    + pose proof (kept_length _ _ _ (exec_local _ _ _ _ _ E)) as Hlen.
      destruct (exec_safe _ _ _ _ _ Hwf Hctx E) as [Hwf1 Hv].
      apply bind_inv in H as [(vs & h2 & E2 & H)|(f & E2 & ->)].
      * pose proof (kept_length _ _ _ (exec_list_kept _ exec_local _ _ _ _ _ E2)).
        assert (Hin : ctx < List.length (contexts h1)) by lia.
        destruct (IH _ _ _ _ Hwf1 Hin E2) as [Hwf2 Hvs].
        unfold ret in H. simplify_eq. split; [exact Hwf2|]. simpl in *.
        constructor; [|exact Hvs].
        eapply closures_within_mono; [|exact Hv]. lia.
      * assert (Hin : ctx < List.length (contexts h1)) by lia.
        destruct (IH _ _ _ _ Hwf1 Hin E2) as [Hwf2 Hvs].
        split; [exact Hwf2|]. destruct f as [[]| |]; simpl in *; auto.
    + destruct (exec_safe _ _ _ _ _ Hwf Hctx E) as [? Hr]. split;
        [assumption|destruct f as [[]| |]; simpl in *; auto].
Qed.

Lemma exec_props_safe properties : forall ctx h r h',
  wf_heap h -> ctx < List.length (contexts h) ->
  exec_props exec properties ctx h = (r, h') ->
  wf_heap h'
  /\ wf_outcome (fun n kvs => Forall (fun kv => wf_val n (snd kv)) kvs)
                (List.length (contexts h')) r.
Proof.
  induction properties as [|[key el] rest IH]; intros ctx h r h' Hwf Hctx;
    cbn [exec_props].
  - intros [= <- <-]. split; [exact Hwf|constructor].
  - intros H. apply bind_inv in H as [(v & h1 & E & H)|(f & E & ->)].
    + pose proof (kept_length _ _ _ (exec_local _ _ _ _ _ E)) as Hlen.
      destruct (exec_safe _ _ _ _ _ Hwf Hctx E) as [Hwf1 Hv].
      apply bind_inv in H as [(vs & h2 & E2 & H)|(f & E2 & ->)].
      * pose proof (kept_length _ _ _ (exec_props_kept _ exec_local _ _ _ _ _ E2)).
        assert (Hin : ctx < List.length (contexts h1)) by lia.
        destruct (IH _ _ _ _ Hwf1 Hin E2) as [Hwf2 Hvs].
        unfold ret in H. simplify_eq. split; [exact Hwf2|]. simpl in *.
        constructor; [|exact Hvs]. simpl.
        eapply closures_within_mono; [|exact Hv]. lia.
      * assert (Hin : ctx < List.length (contexts h1)) by lia.
        destruct (IH _ _ _ _ Hwf1 Hin E2) as [Hwf2 Hvs].
        split; [exact Hwf2|]. destruct f as [[]| |]; simpl in *; auto.
    + destruct (exec_safe _ _ _ _ _ Hwf Hctx E) as [? Hr]. split;
        [assumption|destruct f as [[]| |]; simpl in *; auto].
Qed.

(** The same, with what a caller needs next: the context is still there,
    the store has not shrunk. *)
Lemma exec_step n ctx h r h' :
  wf_heap h -> ctx < List.length (contexts h) -> exec n ctx h = (r, h') ->
  wf_heap h' /\ List.length (contexts h) <= List.length (contexts h')
  /\ wf_outcome wf_val (List.length (contexts h')) r.
Proof.
  intros Hwf Hctx E.
  pose proof (kept_length _ _ _ (exec_local _ _ _ _ _ E)).
  destruct (exec_safe _ _ _ _ _ Hwf Hctx E). auto.
Qed.

Lemma run_stmts_step stmts ctx result h c r h' :
  wf_heap h -> ctx < List.length (contexts h) ->
  wf_val (List.length (contexts h)) result ->
  run_stmts exec stmts ctx result h = (c, r, h') ->
  wf_heap h' /\ List.length (contexts h) <= List.length (contexts h')
  /\ wf_val (List.length (contexts h')) r
  /\ forall f, c = Some f -> wf_outcome wf_val (List.length (contexts h'))
                                        (@Fail value f).
Proof.
  intros Hwf Hctx Hres Hrun.
  pose proof (kept_length _ _ _ (run_stmts_kept _ exec_local _ _ _ _ _ _ _ Hrun)).
  destruct (run_stmts_safe _ _ _ _ _ _ _ Hwf Hctx Hres Hrun) as (? & ? & Hret).
  conjuncts; auto.
  intros [[m|v| |]| |] ->; simpl; auto. apply Hret. reflexivity.
Qed.

Lemma child_step ctx h c h1 result :
  wf_heap h -> ctx < List.length (contexts h) ->
  wf_val (List.length (contexts h)) result ->
  createChildContext ctx h = (c, h1) ->
  wf_heap h1 /\ c < List.length (contexts h1)
  /\ ctx < List.length (contexts h1)
  /\ List.length (contexts h) <= List.length (contexts h1)
  /\ wf_val (List.length (contexts h1)) result.
Proof.
  intros Hwf Hctx Hres Hc.
  destruct (wf_heap_createChildContext _ _ _ _ Hwf Hctx Hc) as (Hwf1 & -> & Hlen).
  conjuncts; try lia; [exact Hwf1|].
  eapply closures_within_mono; [|exact Hres]. lia.
Qed.

Lemma while_loop_safe fuel : forall condition body ctx result h r h',
  wf_heap h -> ctx < List.length (contexts h) ->
  wf_val (List.length (contexts h)) result ->
  while_loop exec fuel condition body ctx result h = (r, h') ->
  wf_heap h' /\ wf_outcome wf_val (List.length (contexts h')) r.
Proof.
  induction fuel as [|fuel IH]; intros condition body ctx result h r h'
    Hwf Hctx Hres; cbn [while_loop].
  - intros [= <- <-]. split; [exact Hwf|exact I].
  - destruct (exec condition ctx h) as [[c|f] h1] eqn:Ec;
      destruct (exec_step _ _ _ _ _ Hwf Hctx Ec) as (Hwf1 & Hlen1 & Hc);
      [|intros [= <- <-]; split; assumption].
    assert (Hres1 : wf_val (List.length (contexts h1)) result)
      by (eapply closures_within_mono; [exact Hlen1|exact Hres]).
    destruct c; try (intros [= <- <-]; split; [exact Hwf1|exact I]).
    destruct b; cbn [negb]; [|intros [= <- <-]; split; assumption].
    destruct (createChildContext ctx h1) as [lc h2] eqn:Hchild.
    assert (Hctx1 : ctx < List.length (contexts h1)) by lia.
    destruct (child_step _ _ _ _ _ Hwf1 Hctx1 Hres1 Hchild)
      as (Hwf2 & _ & Hctx2 & Hlen2 & Hres2).
    destruct (run_stmts exec body ctx result h2) as [[cmp res] h3] eqn:Hrun.
    destruct (run_stmts_step _ _ _ _ _ _ _ Hwf2 Hctx2 Hres2 Hrun)
      as (Hwf3 & Hlen3 & Hres3 & Hfail).
    assert (Hctx3 : ctx < List.length (contexts h3)) by lia.
    intros H.
    destruct cmp as [[[m|v| |]| |]|];
      try (injection H as <- <-; split; [exact Hwf3|];
           first [exact Hres3 | apply (Hfail _ eq_refl)]).
    + exact (IH _ _ _ _ _ _ _ Hwf3 Hctx3 Hres3 H).
    + destruct (breakSignal_of lc h3).
      * injection H as <- <-. split; assumption.
      * exact (IH _ _ _ _ _ _ _ Hwf3 Hctx3 Hres3 H).
Qed.

Lemma for_each_loop_safe itemName body ctx items : forall result h r h',
  wf_heap h -> ctx < List.length (contexts h) ->
  wf_val (List.length (contexts h)) result ->
  Forall (wf_val (List.length (contexts h))) items ->
  for_each_loop exec itemName body ctx items result h = (r, h') ->
  wf_heap h' /\ wf_outcome wf_val (List.length (contexts h')) r.
Proof.
  induction items as [|item rest IH]; intros result h r h' Hwf Hctx Hres Hitems;
    cbn [for_each_loop].
  - intros [= <- <-]. split; assumption.
  - destruct (createChildContext ctx h) as [lc h1] eqn:Hchild.
    destruct (child_step _ _ _ _ _ Hwf Hctx Hres Hchild)
      as (Hwf1 & Hlc & Hctx1 & Hlen1 & Hres1).
    inversion Hitems as [|? ? Hitem Hrest]; subst.
    assert (Hwf1' : wf_heap (setVariable lc itemName item h1)).
    { apply wf_heap_setVariable; [exact Hwf1|].
      eapply closures_within_mono; [exact Hlen1|exact Hitem]. }
    destruct (run_stmts exec body lc result _) as [[cmp res] h2] eqn:Hrun.
    assert (Hlc' : lc < List.length (contexts (setVariable lc itemName item h1)))
      by (rewrite setVariable_length; exact Hlc).
    assert (Hres1' : wf_val (List.length (contexts (setVariable lc itemName item h1)))
                            result)
      by (rewrite setVariable_length; exact Hres1).
    destruct (run_stmts_step _ _ _ _ _ _ _ Hwf1' Hlc' Hres1' Hrun)
      as (Hwf2 & Hlen2 & Hres2 & Hfail).
    rewrite setVariable_length in Hlen2.
    assert (Hrest2 : Forall (wf_val (List.length (contexts h2))) rest)
      by (eapply Forall_wf_val_mono; [|exact Hrest]; lia).
    assert (Hctx2 : ctx < List.length (contexts h2)) by lia.
    intros H.
    destruct cmp as [[[m|v| |]| |]|];
      try (injection H as <- <-; split; [exact Hwf2|];
           first [exact Hres2 | apply (Hfail _ eq_refl)]).
    + exact (IH _ _ _ _ Hwf2 Hctx2 Hres2 Hrest2 H).
    + exact (IH _ _ _ _ Hwf2 Hctx2 Hres2 Hrest2 H).
Qed.

Lemma switch_cases_safe v cases defaultCase ctx : forall h r h',
  wf_heap h -> ctx < List.length (contexts h) ->
  switch_cases exec v cases defaultCase ctx h = (r, h') ->
  wf_heap h' /\ wf_outcome wf_val (List.length (contexts h')) r.
Proof.
  induction cases as [|[m body] rest IH]; intros h r h' Hwf Hctx;
    cbn [switch_cases].
  - destruct defaultCase.
    + apply run_scope_safe; assumption.
    + intros [= <- <-]. split; [exact Hwf|reflexivity].
  - intros H. apply bind_inv in H as [(mv & h1 & E & H)|(f & E & ->)];
      destruct (exec_step _ _ _ _ _ Hwf Hctx E) as (Hwf1 & Hlen1 & Hmv);
      [|split; assumption].
    assert (Hctx1 : ctx < List.length (contexts h1)) by lia.
    destruct (strict_eq v mv) as [[|]|].
    + exact (run_scope_safe _ _ _ _ _ Hwf1 Hctx1 H).
    + exact (IH _ _ _ Hwf1 Hctx1 H).
    + unfold fail in H. injection H as <- <-. split; [exact Hwf1|exact I].
Qed.

Lemma try_catch_safe tryBlock catchVar catchBlock ctx h r h' :
  wf_heap h -> ctx < List.length (contexts h) ->
  try_catch exec tryBlock catchVar catchBlock ctx h = (r, h') ->
  wf_heap h' /\ wf_outcome wf_val (List.length (contexts h')) r.
Proof.
  intros Hwf Hctx. unfold try_catch.
  destruct (createChildContext ctx h) as [tc h1] eqn:Hchild.
  destruct (child_step _ _ _ _ VUndefined Hwf Hctx eq_refl Hchild)
    as (Hwf1 & Htc & Hctx1 & Hlen1 & _).
  destruct (run_stmts exec tryBlock tc VUndefined h1) as [[cmp res] h2] eqn:Hrun.
  destruct (run_stmts_step _ _ _ _ _ _ _ Hwf1 Htc (wf_val_undefined _) Hrun)
    as (Hwf2 & Hlen2 & Hres2 & Hfail).
  intros H.
  destruct cmp as [[[m|v| |]| |]|];
    try (injection H as <- <-; split; [exact Hwf2|];
         first [exact Hres2 | apply (Hfail _ eq_refl)]).
  destruct (createChildContext ctx h2) as [cc h3] eqn:Hchild2.
  assert (Hctx2 : ctx < List.length (contexts h2)) by lia.
  destruct (child_step _ _ _ _ VUndefined Hwf2 Hctx2 eq_refl Hchild2)
    as (Hwf3 & Hcc & Hctx3 & Hlen3 & _).
  destruct (run_stmts exec catchBlock cc VUndefined _) as [[cmp' res'] h4] eqn:Hrun'.
  assert (Hwf3' : wf_heap (setVariable cc catchVar (VErrorObj m) h3))
    by (apply wf_heap_setVariable; [exact Hwf3|reflexivity]).
  assert (Hcc' : cc < List.length (contexts (setVariable cc catchVar (VErrorObj m) h3)))
    by (rewrite setVariable_length; exact Hcc).
  destruct (run_stmts_step _ _ _ _ _ _ _ Hwf3' Hcc' (wf_val_undefined _) Hrun')
    as (Hwf4 & Hlen4 & Hres4 & Hfail').
  apply finish_safe in H; [exact H|exact Hwf4|exact Hres4|].
  intros v ->. apply (Hfail' _ eq_refl).
Qed.

(** What [ForNode.execute] does once the body and the update of one
    iteration have been tried. *)
Lemma for_loop_after (again : value -> heap -> outcome value * heap)
    update ctx cmp res h r h' :
  (forall result g r h', wf_heap g -> ctx < List.length (contexts g) ->
                         wf_val (List.length (contexts g)) result ->
                         again result g = (r, h') ->
                         wf_heap h' /\ wf_outcome wf_val (List.length (contexts h')) r) ->
  wf_heap h -> ctx < List.length (contexts h) ->
  wf_val (List.length (contexts h)) res ->
  (forall f, cmp = Some f ->
             wf_outcome wf_val (List.length (contexts h)) (@Fail value f)) ->
  match cmp with
  | Some (Thrown ContinueSignal) =>
      match exec update ctx h with
      | (Normal _, h4) => again res h4
      | (Fail f, h4) => (Fail f, h4)
      end
  | Some (Thrown BreakSignal) => (Normal res, h)
  | Some f => (Fail f, h)
  | None => again res h
  end = (r, h') ->
  wf_heap h' /\ wf_outcome wf_val (List.length (contexts h')) r.
Proof.
  intros Hagain Hwf Hctx Hres Hfail H.
  destruct cmp as [[[m|v| |]| |]|];
    try (injection H as <- <-; split; [exact Hwf|];
         first [exact Hres | apply (Hfail _ eq_refl)]).
  - destruct (exec update ctx h) as [[u|f] h4] eqn:Eu;
      destruct (exec_step _ _ _ _ _ Hwf Hctx Eu) as (Hwf4 & Hlen4 & Hu).
    + assert (Hctx4 : ctx < List.length (contexts h4)) by lia.
      assert (Hres4 : wf_val (List.length (contexts h4)) res)
        by (eapply closures_within_mono; [exact Hlen4|exact Hres]).
      exact (Hagain _ _ _ _ Hwf4 Hctx4 Hres4 H).
    + injection H as <- <-. split; assumption.
  - exact (Hagain _ _ _ _ Hwf Hctx Hres H).
Qed.

Lemma for_loop_safe fuel : forall condition update body ctx result h r h',
  wf_heap h -> ctx < List.length (contexts h) ->
  wf_val (List.length (contexts h)) result ->
  for_loop exec fuel condition update body ctx result h = (r, h') ->
  wf_heap h' /\ wf_outcome wf_val (List.length (contexts h')) r.
Proof.
  induction fuel as [|fuel IH]; intros condition update body ctx result h r h'
    Hwf Hctx Hres; cbn [for_loop].
  - intros [= <- <-]. split; [exact Hwf|exact I].
  - destruct (exec condition ctx h) as [[c|f] h1] eqn:Ec;
      destruct (exec_step _ _ _ _ _ Hwf Hctx Ec) as (Hwf1 & Hlen1 & Hc);
      [|intros [= <- <-]; split; assumption].
    assert (Hres1 : wf_val (List.length (contexts h1)) result)
      by (eapply closures_within_mono; [exact Hlen1|exact Hres]).
    destruct c; try (intros [= <- <-]; split; [exact Hwf1|exact I]).
    destruct b; cbn [negb]; [|intros [= <- <-]; split; assumption].
    destruct (createChildContext ctx h1) as [lc h2] eqn:Hchild.
    assert (Hctx1 : ctx < List.length (contexts h1)) by lia.
    destruct (child_step _ _ _ _ _ Hwf1 Hctx1 Hres1 Hchild)
      as (Hwf2 & Hlc & Hctx2 & Hlen2 & Hres2).
    destruct (run_stmts exec body lc result h2) as [[cmp res] h3] eqn:Hrun.
    destruct (run_stmts_step _ _ _ _ _ _ _ Hwf2 Hlc Hres2 Hrun)
      as (Hwf3 & Hlen3 & Hres3 & Hfail).
    assert (Hctx3 : ctx < List.length (contexts h3)) by lia.
    intros H. destruct cmp as [f|].
    + refine (for_loop_after (for_loop exec fuel condition update body ctx)
                update ctx (Some f) res h3 r h' _ Hwf3 Hctx3 Hres3 Hfail H).
      intros result0 g r0 g'. apply IH.
    + destruct (exec update ctx h3) as [[u|f] h4] eqn:Eu;
        destruct (exec_step _ _ _ _ _ Hwf3 Hctx3 Eu) as (Hwf4 & Hlen4 & Hu).
      * assert (Hctx4 : ctx < List.length (contexts h4)) by lia.
        assert (Hres4 : wf_val (List.length (contexts h4)) res)
          by (eapply closures_within_mono; [exact Hlen4|exact Hres3]).
        exact (IH _ _ _ _ _ _ _ _ Hwf4 Hctx4 Hres4 H).
      * assert (Hctx4 : ctx < List.length (contexts h4)) by lia.
        assert (Hres4 : wf_val (List.length (contexts h4)) res)
          by (eapply closures_within_mono; [exact Hlen4|exact Hres3]).
        refine (for_loop_after (for_loop exec fuel condition update body ctx)
                  update ctx (Some f) res h4 r h' _ Hwf4 Hctx4 Hres4 _ H).
        -- intros result0 g r0 g'. apply IH.
        -- intros f' [= <-]. exact Hu.
Qed.

Lemma do_while_loop_safe fuel : forall body condition ctx result h r h',
  wf_heap h -> ctx < List.length (contexts h) ->
  wf_val (List.length (contexts h)) result ->
  do_while_loop exec fuel body condition ctx result h = (r, h') ->
  wf_heap h' /\ wf_outcome wf_val (List.length (contexts h')) r.
Proof.
  induction fuel as [|fuel IH]; intros body condition ctx result h r h'
    Hwf Hctx Hres; cbn [do_while_loop].
  - intros [= <- <-]. split; [exact Hwf|exact I].
  - destruct (createChildContext ctx h) as [lc h1] eqn:Hchild.
    destruct (child_step _ _ _ _ _ Hwf Hctx Hres Hchild)
      as (Hwf1 & Hlc & Hctx1 & Hlen1 & Hres1).
    destruct (run_stmts exec body lc result h1) as [[cmp res] h2] eqn:Hrun.
    destruct (run_stmts_step _ _ _ _ _ _ _ Hwf1 Hlc Hres1 Hrun)
      as (Hwf2 & Hlen2 & Hres2 & Hfail).
    assert (Hctx2 : ctx < List.length (contexts h2)) by lia.
    assert (Hagain : forall r h',
               match exec condition ctx h2 with
               | (Normal c, h3) =>
                   if truthy c
                   then do_while_loop exec fuel body condition ctx res h3
                   else (Normal res, h3)
               | (Fail f, h3) => (Fail f, h3)
               end = (r, h') ->
               wf_heap h' /\ wf_outcome wf_val (List.length (contexts h')) r).
    { intros r0 g' H.
      destruct (exec condition ctx h2) as [[c|f] h3] eqn:Ec;
        destruct (exec_step _ _ _ _ _ Hwf2 Hctx2 Ec) as (Hwf3 & Hlen3 & Hc);
        [|injection H as <- <-; split; assumption].
      assert (Hctx3 : ctx < List.length (contexts h3)) by lia.
      assert (Hres3 : wf_val (List.length (contexts h3)) res)
        by (eapply closures_within_mono; [exact Hlen3|exact Hres2]).
      destruct (truthy c).
      - exact (IH _ _ _ _ _ _ _ Hwf3 Hctx3 Hres3 H).
      - injection H as <- <-. split; assumption. }
    intros H.
    destruct cmp as [[[m|v| |]| |]|];
      try (injection H as <- <-; split; [exact Hwf2|];
           first [exact Hres2 | apply (Hfail _ eq_refl)]).
    + apply Hagain, H.
    + destruct (breakSignal_of lc h2).
      * injection H as <- <-. split; assumption.
      * apply Hagain, H.
Qed.

End Safe.

(** Every store an execution reaches from a well-formed store is well
    formed, and what it returns refers to existing contexts. *)
Lemma execute_safe fuel : safe (execute fuel).
Proof.
  induction fuel as [|fuel IH]; intros n ctx h r h' Hwf Hctx H.
  - cbn [execute] in H. unfold fail in H. injection H as <- <-.
    split; [exact Hwf|exact I].
  - pose proof (execute_local fuel) as Hloc.
    destruct n; cbn [execute] in H.
    + (* VariableDeclarationNode *)
      destruct (decide (varType = VTfunction)).
      * destruct n; unfold throw_error, fail in H;
          try (injection H as <- <-; split; [exact Hwf|exact I]).
        -- destruct (toFunction _ _ _ _ _) as [fv h0] eqn:Ht.
           destruct (wf_heap_toFunction _ _ _ _ _ _ _ Hwf Hctx Ht)
             as (Hwf0 & Hsame & Hfv).
           injection H as <- <-. rewrite setVariable_length, Hsame.
           split; [|exact Hfv].
           apply wf_heap_setVariable; [exact Hwf0|]. rewrite Hsame. exact Hfv.
        -- injection H as <- <-. rewrite setVariable_length.
           assert (Hv : wf_val (List.length (contexts h)) (VArrow paramNames n ctx))
             by (apply Nat.ltb_lt, Hctx).
           split; [apply wf_heap_setVariable; assumption|exact Hv].
      * apply bind_inv in H as [(v & h1 & E & H)|(f & E & ->)];
          destruct (exec_step _ Hloc IH _ _ _ _ _ Hwf Hctx E) as (Hwf1 & Hlen1 & Hv);
          [|split; assumption].
        unfold throw_error, fail in H.
        repeat case_match; simplify_eq; try (split; [assumption|exact I]).
        rewrite setVariable_length.
        split; [apply wf_heap_setVariable; assumption|exact Hv].
    + (* AssignmentNode *)
      apply bind_inv in H as [(v & h1 & E & H)|(f & E & ->)];
        destruct (exec_step _ Hloc IH _ _ _ _ _ Hwf Hctx E) as (Hwf1 & Hlen1 & Hv);
        [|split; assumption].
      injection H as <- <-. rewrite setVariable_length.
      split; [apply wf_heap_setVariable; assumption|exact Hv].
    + (* ReturnNode *)
      apply bind_inv in H as [(v & h1 & E & H)|(f & E & ->)];
        destruct (exec_step _ Hloc IH _ _ _ _ _ Hwf Hctx E) as (Hwf1 & Hlen1 & Hv);
        [|split; assumption].
      unfold fail in H. injection H as <- <-. split; assumption.
    + unfold fail in H. injection H as <- <-. split; [exact Hwf|exact I].
    + unfold fail in H. injection H as <- <-. split; [exact Hwf|exact I].
    + (* ErrorNode *)
      apply bind_inv in H as [(v & h1 & E & H)|(f & E & ->)];
        destruct (exec_step _ Hloc IH _ _ _ _ _ Hwf Hctx E) as (Hwf1 & Hlen1 & Hv);
        [|split; assumption].
      unfold throw_error, fail in H.
      destruct (js_String v); injection H as <- <-; split; auto; exact I.
    + unfold throw_error, fail in H. injection H as <- <-. split; [exact Hwf|exact I].
    + unfold throw_error, fail in H. injection H as <- <-. split; [exact Hwf|exact I].
    + (* FunctionCallNode *)
      pose proof (lookup_chain_safe _ Hwf (S ctx) ctx functionName) as Hfv.
      apply bind_inv in H as [(fv & h1 & E & H)|(f & E & ->)];
        unfold getVariable in E.
      2:{ assert (h' = h) as -> by congruence.
          assert (E1 : lookup_chain (S ctx) (contexts h) ctx functionName = Fail f)
            by congruence.
          rewrite E1 in Hfv. split; assumption. }
      assert (h1 = h) as -> by congruence.
      assert (E1 : lookup_chain (S ctx) (contexts h) ctx functionName = Normal fv)
        by congruence.
      rewrite E1 in Hfv. clear E E1.
      destruct (negb _);
        [unfold throw_error, fail in H; injection H as <- <-;
         split; [exact Hwf|exact I]|].
      apply bind_inv in H as [(vs & h2 & E2 & H)|(f & E2 & ->)];
        pose proof (kept_length _ _ _ (eval_args_kept _ Hloc _ _ _ _ _ E2)) as Hlen2;
        destruct (eval_args_safe _ Hloc IH _ _ _ _ _ Hwf Hctx E2) as (Hwf2 & Hvs).
      * eapply (call_value_safe _ Hloc IH); [exact Hwf2| |exact Hvs|exact H].
        eapply closures_within_mono; [exact Hlen2|exact Hfv].
      * split; [exact Hwf2|]. destruct f as [[]| |]; try exact I. exact Hvs.
    + unfold ret in H. injection H as <- <-. split; [exact Hwf|].
      match goal with l : literal |- _ => destruct l end; reflexivity.
    + unfold getVariable in H.
      assert (h' = h) as -> by congruence. split; [exact Hwf|].
      assert (r = lookup_chain (S ctx) (contexts h) ctx name) as -> by congruence.
      apply lookup_chain_safe, Hwf.
    + (* OperatorNode *)
      apply bind_inv in H as [(v1 & h1 & E1 & H)|(f & E & ->)];
        [destruct (exec_step _ Hloc IH _ _ _ _ _ Hwf Hctx E1) as (Hwf1 & Hlen1 & Hv1)
        |destruct (exec_step _ Hloc IH _ _ _ _ _ Hwf Hctx E) as (Hwf1 & Hlen1 & Hv1);
         split; assumption].
      assert (Hctx1 : ctx < List.length (contexts h1)) by lia.
      apply bind_inv in H as [(v2 & h2 & E2 & H)|(f & E & ->)];
        [destruct (exec_step _ Hloc IH _ _ _ _ _ Hwf1 Hctx1 E2) as (Hwf2 & Hlen2 & Hv2)
        |destruct (exec_step _ Hloc IH _ _ _ _ _ Hwf1 Hctx1 E) as (Hwf2 & Hlen2 & Hv2);
         split; assumption].
      injection H as <- <-. split; [exact Hwf2|].
      destruct (apply_operator operator v1 v2) as [v|[[m|v| |]| |]] eqn:Hop;
        try exact I.
      * eapply apply_operator_wf; [|exact Hv2|exact Hop].
        eapply closures_within_mono; [exact Hlen2|exact Hv1].
      * exfalso. eapply apply_operator_no_return, Hop.
    + unfold ret in H. injection H as <- <-. split; [exact Hwf|reflexivity].
    + (* ArrayLiteralNode *)
      apply bind_inv in H as [(vs & h1 & E & H)|(f & E & ->)];
        destruct (exec_list_safe _ Hloc IH _ _ _ _ _ Hwf Hctx E) as (Hwf1 & Hvs).
      * unfold ret in H. injection H as <- <-. split; [exact Hwf1|].
        simpl in *. unfold wf_val. cbn [closures_within].
        apply forallb_Forall. exact Hvs.
      * split; [exact Hwf1|]. destruct f as [[]| |]; try exact I. exact Hvs.
    + (* ObjectLiteralNode *)
      apply bind_inv in H as [(vs & h1 & E & H)|(f & E & ->)];
        destruct (exec_props_safe _ Hloc IH _ _ _ _ _ Hwf Hctx E) as (Hwf1 & Hvs).
      * unfold ret in H. injection H as <- <-. split; [exact Hwf1|].
        simpl in *. unfold wf_val. cbn [closures_within].
        apply forallb_Forall. exact Hvs.
      * split; [exact Hwf1|]. destruct f as [[]| |]; try exact I. exact Hvs.
    + exact (run_scope_safe _ Hloc IH _ _ _ _ _ Hwf Hctx H).
    + (* IfNode *)
      apply bind_inv in H as [(c & h1 & E & H)|(f & E & ->)];
        destruct (exec_step _ Hloc IH _ _ _ _ _ Hwf Hctx E) as (Hwf1 & Hlen1 & Hv);
        [|split; assumption].
      assert (Hctx1 : ctx < List.length (contexts h1)) by lia.
      destruct c; unfold throw_error, fail in H;
        try (injection H as <- <-; split; [exact Hwf1|exact I]).
      exact (run_scope_safe _ Hloc IH _ _ _ _ _ Hwf1 Hctx1 H).
    + injection H as <- <-. split; [apply wf_heap_set_signal, Hwf|reflexivity].
    + exact (while_loop_safe _ Hloc IH _ _ _ _ _ _ _ _ Hwf Hctx
               (wf_val_undefined _) H).
    + (* ForNode *)
      apply bind_inv in H as [(v & h1 & E & H)|(f & E & ->)];
        destruct (exec_step _ Hloc IH _ _ _ _ _ Hwf Hctx E) as (Hwf1 & Hlen1 & Hv);
        [|split; assumption].
      assert (Hctx1 : ctx < List.length (contexts h1)) by lia.
      exact (for_loop_safe _ Hloc IH _ _ _ _ _ _ _ _ _ Hwf1 Hctx1
               (wf_val_undefined _) H).
    + (* SwitchNode *)
      apply bind_inv in H as [(v & h1 & E & H)|(f & E & ->)];
        destruct (exec_step _ Hloc IH _ _ _ _ _ Hwf Hctx E) as (Hwf1 & Hlen1 & Hv);
        [|split; assumption].
      assert (Hctx1 : ctx < List.length (contexts h1)) by lia.
      exact (switch_cases_safe _ Hloc IH _ _ _ _ _ _ _ Hwf1 Hctx1 H).
    + exact (do_while_loop_safe _ Hloc IH _ _ _ _ _ _ _ _ Hwf Hctx
               (wf_val_undefined _) H).
    + (* ForEachNode *)
      apply bind_inv in H as [(v & h1 & E & H)|(f & E & ->)];
        destruct (exec_step _ Hloc IH _ _ _ _ _ Hwf Hctx E) as (Hwf1 & Hlen1 & Hv);
        [|split; assumption].
      assert (Hctx1 : ctx < List.length (contexts h1)) by lia.
      destruct v; unfold throw_error, fail in H;
        try (injection H as <- <-; split; [exact Hwf1|exact I]).
      simpl in Hv. unfold wf_val in Hv. cbn [closures_within] in Hv.
      apply forallb_Forall in Hv.
      exact (for_each_loop_safe _ Hloc IH _ _ _ _ _ _ _ _ Hwf1 Hctx1
               (wf_val_undefined _) Hv H).
    + exact (try_catch_safe _ Hloc IH _ _ _ _ _ _ _ Hwf Hctx H).
Qed.

End HeapSafe.

(* ===================================================================== *)
(** * The specification's claims: declarations, types, conditions *)
(* ===================================================================== *)

Module Declarations.
Import Types Syntax Runtime Exec Infer StoreFacts Samples.

(** Execution of a ["number"] declaration whose initializer evaluates to a
    string: the mismatch error, and the store is the one the initializer
    left (no binding is written). *)
Lemma execute_number_gets_string fuel name expression ctx h s h1 :
  execute fuel expression ctx h = (Normal (VStr s), h1) ->
  execute (S fuel) (VariableDeclarationNode VTnumber name expression) ctx h =
  (Throw (JsError ("Variable '" +:+ name +:+ "' expected number, got string")),
   h1).
Proof.
  intros He. cbn [execute].
  destruct (decide (VTnumber = VTfunction)) as [?|_]; [discriminate|].
  unfold bind. rewrite He. reflexivity.
Qed.

(** No declared kind is a key of [typeMap]. *)
Lemma typeMap_has_no_kind varType actualType :
  prop_lookup (varTypes_name varType) (typeMap actualType) = None.
Proof. destruct varType; reflexivity. Qed.

(** Inference of a declaration, once the initializer has a type, always
    stops at the unsupported-kind check, whatever that type is. *)
Lemma inferType_declaration_unsupported varType name expression env t env1 :
  inferType expression env = (Inferred t, env1) ->
  inferType (VariableDeclarationNode varType name expression) env =
  (Rejected ("Unsupported variable type: " +:+ varTypes_name varType), env1).
Proof.
  intros He. cbn [inferType]. rewrite He, typeMap_has_no_kind. reflexivity.
Qed.

(** C1: declaring a variable of kind "number" with a string initializer is
    said to fail with a type mismatch in both passes.  Execution does; the
    inference pass stops earlier, at "Unsupported variable type: number",
    and does so for a number initializer just the same. *)
Theorem number_declaration_both_passes :
  execute 2 number_gets_string 0 root_heap =
    (Throw (JsError "Variable 'x' expected number, got string"), root_heap)
  /\ inferType number_gets_string root_environment =
       (Rejected "Unsupported variable type: number", root_environment)
  /\ inferType number_gets_number root_environment =
       (Rejected "Unsupported variable type: number", root_environment).
Proof. conjuncts; vm_compute; reflexivity. Qed.

End Declarations.

Module TypeEquality.
Import Types TypesFacts Samples.

(** C2: on well-formed types [compareTypes] is reflexive and symmetric, it
    holds exactly when the two types are structurally equal (positionally
    through function types, through array element types, by name through
    object types whatever the order), and "any" equals only "any":
    [compareTypes(any, number)] is false. *)
Theorem compareTypes_structural (a b : Ty) :
  well_formed a = true ->
  well_formed b = true ->
  compareTypes a a = true
  /\ compareTypes a b = compareTypes b a
  /\ (compareTypes a b = true <-> type_equiv a b)
  /\ compareTypes (TPrim Tany) (TPrim Tnumber) = false
  /\ (forall t, compareTypes (TPrim Tany) t = true -> t = TPrim Tany).
Proof.
  intros Ha Hb. split; [apply compare_refl, Ha|].
  split; [apply compare_sym; assumption|].
  split; [split; [apply compare_sound|apply compare_complete]; assumption|].
  split; [reflexivity|].
  intros [tag| | |]; simpl; try discriminate.
  intros ->%bool_decide_eq_true. reflexivity.
Qed.

Lemma compareTypes_structural_witness :
  compareTypes point_xy point_xy = true
  /\ compareTypes point_xy point_yx = compareTypes point_yx point_xy
  /\ (compareTypes point_xy point_yx = true <-> type_equiv point_xy point_yx)
  /\ compareTypes (TPrim Tany) (TPrim Tnumber) = false
  /\ (forall t, compareTypes (TPrim Tany) t = true -> t = TPrim Tany).
Proof.
  apply (compareTypes_structural point_xy point_yx); vm_compute; reflexivity.
Defined.

End TypeEquality.

Module Conditions.
Import Types Syntax Runtime Exec Infer Invariants StoreFacts Samples.

(** [If], [While] and [For] reject a condition that is not a boolean. *)
Lemma if_condition_checked fuel condition thenBranch elseBranch ctx h c h1 :
  execute fuel condition ctx h = (Normal c, h1) -> is_boolean c = false ->
  execute (S fuel) (IfNode condition thenBranch elseBranch) ctx h =
  (Throw (JsError "Condition must be boolean"), h1).
Proof.
  intros He Hc. cbn [execute]. unfold bind. rewrite He.
  destruct c; try discriminate; reflexivity.
Qed.

Lemma while_condition_checked fuel k condition body ctx result h c h1 :
  execute fuel condition ctx h = (Normal c, h1) -> is_boolean c = false ->
  while_loop (execute fuel) (S k) condition body ctx result h =
  (Throw (JsError "Condition must be boolean"), h1).
Proof.
  intros He Hc. cbn [while_loop]. rewrite He.
  destruct c; try discriminate; reflexivity.
Qed.

Lemma for_condition_checked fuel k condition update body ctx result h c h1 :
  execute fuel condition ctx h = (Normal c, h1) -> is_boolean c = false ->
  for_loop (execute fuel) (S k) condition update body ctx result h =
  (Throw (JsError "Condition must be boolean"), h1).
Proof.
  intros He Hc. cbn [for_loop]. rewrite He.
  destruct c; try discriminate; reflexivity.
Qed.

(** C7: a non-boolean condition is said to raise a hard error in If, While,
    For and DoWhile.  [DoWhileNode.execute] tests the condition for
    truthiness only: with the condition [0], or [null], the loop runs its
    body once and returns normally. *)
Theorem do_while_condition_unchecked :
  fst (execute 4 do_while_number 0 root_heap) = Normal VUndefined
  /\ console (snd (execute 4 do_while_number 0 root_heap)) = [[VNum 1]]
  /\ fst (execute 4 do_while_null 0 root_heap) = Normal VUndefined
  /\ fst (inferType (DoWhileNode [] (num 0)) root_environment) =
       Rejected "Condition must be boolean".
Proof. conjuncts; vm_compute; reflexivity. Qed.

End Conditions.

(* ===================================================================== *)
(** * The specification's claims: scopes and frames *)
(* ===================================================================== *)

Module Scopes.
Import Types Syntax Runtime Exec Infer Invariants StoreFacts ExecFacts.
Import HeapFacts HeapSafe Samples.

#[local] Arguments setVariable : simpl never.

(** The store of a fresh interpreter is well formed, and so is every store
    a run of the interpreter ends in. *)
Lemma root_heap_wf : wf_heap root_heap.
Proof.
  apply wf_heap_new_context; [|discriminate].
  split; [|split]; intros i c; intros;
    match goal with
    | H : _ !! i = Some c |- _ => apply lookup_lt_Some in H; simpl in H; lia
    end.
Qed.

Lemma interpreter_heap_wf fuel nodes r h :
  Interpreter_execute fuel nodes = (r, h) -> wf_heap h.
Proof.
  unfold Interpreter_execute.
  destruct (new_ExecutionContext None empty_heap) as [context h0] eqn:Hnew.
  assert (Hwf0 : wf_heap h0).
  { replace h0 with (snd (new_ExecutionContext None empty_heap))
      by (rewrite Hnew; reflexivity). apply root_heap_wf. }
  pose proof (new_ExecutionContext_index _ _ _ _ Hnew) as (-> & Hlen & _).
  destruct (run_stmts (execute fuel) nodes _ VUndefined h0)
    as [[cmp res] h1] eqn:Hrun.
  assert (Hin : List.length (contexts empty_heap) < List.length (contexts h0))
    by lia.
  destruct (run_stmts_safe _ (execute_local fuel) (execute_safe fuel)
              _ _ _ _ _ _ _ Hwf0 Hin (wf_val_undefined _) Hrun) as (Hwf1 & _).
  destruct cmp; intros [= _ <-]; exact Hwf1.
Qed.

(** A block, whatever its statements, leaves the frame it runs in as it
    was: every name looked up from the enclosing context resolves as
    before. *)
Lemma block_keeps_enclosing_frame fuel statements ctx h r h' :
  wf_heap h -> ctx < List.length (contexts h) ->
  execute (S fuel) (BlockNode statements) ctx h = (r, h') ->
  contexts h' !! ctx = contexts h !! ctx
  /\ forall x, fst (getVariable ctx x h') = fst (getVariable ctx x h).
Proof.
  intros (Hok & _) Hctx Hexec. cbn [execute] in Hexec.
  apply (run_scope_extends _ (execute_local fuel)) in Hexec as (_ & _ & Hkept).
  split; [apply Hkept, Hctx|].
  intros x. unfold getVariable; cbn [fst].
  apply lookup_chain_agree; [exact Hok|].
  intros f Hf. apply Hkept. lia.
Qed.

(** An assignment executed in a context that has a parent writes the
    context's own frame: the result is the value of the expression, the
    frame then binds the name to it, the parent frame is as it was, and
    every name looked up from the parent resolves as before. *)
Lemma assignment_writes_current_frame fuel name expression outer child h v h1 :
  chain_ok (contexts h) ->
  (parent <$> contexts h !! child) = Some (Some outer) ->
  execute fuel expression child h = (Normal v, h1) ->
  execute (S fuel) (AssignmentNode name expression) child h
    = (Normal v, setVariable child name v h1)
  /\ own_binding (setVariable child name v h1) child name = Some v
  /\ contexts (setVariable child name v h1) !! outer = contexts h !! outer
  /\ forall x, fst (getVariable outer x (setVariable child name v h1))
               = fst (getVariable outer x h).
Proof.
  intros Hok Hparent He.
  destruct (contexts h !! child) as [c|] eqn:Hc; [|discriminate].
  injection Hparent as Hparent.
  assert (Houter : outer < child) by (eapply Hok; eassumption).
  assert (Hchild : child < List.length (contexts h)) by (eapply lookup_lt_Some, Hc).
  assert (Hexec : execute (S fuel) (AssignmentNode name expression) child h
                  = (Normal v, setVariable child name v h1)).
  { cbn [execute]. unfold bind. rewrite He. reflexivity. }
  pose proof (execute_local _ _ _ _ _ _ Hexec) as (Hlen & _ & Hkept).
  apply execute_local in He as (Hlen1 & _ & _).
  split; [exact Hexec|]. split; [|split].
  - rewrite own_binding_setVariable, decide_True; [reflexivity|].
    repeat split; lia.
  - apply Hkept; lia.
  - intros x. unfold getVariable; cbn [fst].
    apply lookup_chain_agree; [exact Hok|].
    intros f Hf. apply Hkept; lia.
Qed.

(** C5: an assignment inside a child scope is said to write the child's frame
    and to leave the parent's binding of the name as it was.  With [x] bound
    to 1 in the root, [x = 2] does so as the body of a Block, an If, a
    DoWhile, a For, a ForEach, a Switch case, a TryCatch and a function: the
    root keeps 1 and the frame made for the body binds 2.  The body of a
    While loop is a child scope too, but [WhileNode.execute] runs its
    statements in the enclosing context (the slip of C6): there the
    assignment overwrites the root's [x] with 2, and the frame made for the
    pass binds nothing. *)
Theorem assignment_in_while_body_overwrites :
  own_binding x_in_root 0 "x" = Some (VNum 1)
  /\ fst (execute 4 while_assigns 0 x_in_root) = Normal (VNum 2)
  /\ own_binding (snd (execute 4 while_assigns 0 x_in_root)) 0 "x"
     = Some (VNum 2)
  /\ own_binding (snd (execute 4 while_assigns 0 x_in_root)) 1 "x" = None
  /\ fst (getVariable 0 "x" (snd (execute 4 while_assigns 0 x_in_root)))
     = Normal (VNum 2)
  /\ Forall (fun scope : node =>
               own_binding (snd (execute 4 scope 0 x_in_root)) 0 "x"
               = Some (VNum 1)
               /\ own_binding (snd (execute 4 scope 0 x_in_root)) 1 "x"
                  = Some (VNum 2)
               /\ fst (getVariable 0 "x" (snd (execute 4 scope 0 x_in_root)))
                  = Normal (VNum 1))
            scoped_assigns
  /\ own_binding (snd (call_value (execute 4) (fst assigning_function) []
                                  (snd assigning_function))) 0 "x"
     = Some (VNum 1)
  /\ own_binding (snd (call_value (execute 4) (fst assigning_function) []
                                  (snd assigning_function))) 1 "x"
     = Some (VNum 2)
  /\ fst (getVariable 0 "x"
            (snd (call_value (execute 4) (fst assigning_function) []
                             (snd assigning_function))))
     = Normal (VNum 1).
Proof.
  conjuncts;
    try (unfold scoped_assigns;
         repeat (apply Forall_cons_2; [conjuncts|]); [..|apply Forall_nil_2]);
    vm_compute; reflexivity.
Qed.

(** C6: the body of a While loop is said to run in a fresh child context
    per iteration.  [WhileNode.execute] creates that context and then runs
    the statements in the enclosing one: a declaration in the body lands in
    the enclosing frame, the loop's own frame stays as constructed.  The
    sibling loops run the same body in their child frame. *)
Theorem while_body_writes_enclosing_frame :
  own_binding root_heap 0 "y" = None
  /\ fst (execute 3 while_declares 0 root_heap) = Normal (VNum 1)
  /\ own_binding (snd (execute 3 while_declares 0 root_heap)) 0 "y"
     = Some (VNum 1)
  /\ own_binding (snd (execute 3 while_declares 0 root_heap)) 1 "y" = None
  /\ own_binding (snd (execute 3 do_while_declares 0 root_heap)) 0 "y" = None
  /\ own_binding (snd (execute 3 do_while_declares 0 root_heap)) 1 "y"
     = Some (VNum 1)
  /\ own_binding (snd (execute 3 for_declares 0 root_heap)) 0 "y" = None.
Proof. conjuncts; vm_compute; reflexivity. Qed.

(** The general form: whatever the statements of the first iteration do,
    they do it in the enclosing context. *)
Lemma while_first_iteration fuel k condition body ctx result h h1 loopCtx h2 :
  execute fuel condition ctx h = (Normal (VBool true), h1) ->
  createChildContext ctx h1 = (loopCtx, h2) ->
  while_loop (execute fuel) (S k) condition body ctx result h =
  match run_stmts (execute fuel) body ctx result h2 with
  | (Some (Thrown ContinueSignal), result', h3) =>
      while_loop (execute fuel) k condition body ctx result' h3
  | (Some (Thrown BreakSignal), result', h3) => (Normal result', h3)
  | (Some f, _, h3) => (Fail f, h3)
  | (None, result', h3) =>
      if breakSignal_of loopCtx h3 then (Normal result', h3)
      else while_loop (execute fuel) k condition body ctx result' h3
  end.
Proof.
  intros Hc Hchild. cbn [while_loop]. rewrite Hc. cbn [negb]. rewrite Hchild.
  reflexivity.
Qed.

(** C8: an assignment is said to require a bound name in both passes.
    Inference looks the name up and fails; [AssignmentNode.execute] never
    looks it up: with [y] bound nowhere, [y = 1] returns 1 and creates the
    binding. *)
Theorem assignment_to_unbound_name :
  fst (getVariable 0 "y" root_heap) = Throw (JsError "Undefined variable: y")
  /\ execute 2 assign_unbound 0 root_heap
     = (Normal (VNum 1), setVariable 0 "y" (VNum 1) root_heap)
  /\ own_binding (snd (execute 2 assign_unbound 0 root_heap)) 0 "y"
     = Some (VNum 1)
  /\ inferType assign_unbound root_environment
     = (Rejected "Undefined variable (type): y", root_environment).
Proof. conjuncts; vm_compute; reflexivity. Qed.

(** Execution of an assignment is its expression and one [setVariable]. *)
Lemma assignment_execute fuel name expression ctx h v h1 :
  execute fuel expression ctx h = (Normal v, h1) ->
  execute (S fuel) (AssignmentNode name expression) ctx h =
  (Normal v, setVariable ctx name v h1).
Proof. intros He. cbn [execute]. unfold bind. rewrite He. reflexivity. Qed.

(** Inference of an assignment to a name bound nowhere. *)
Lemma assignment_inferType_unbound name expression env :
  (forall types, types ∈ env -> types !! name = None) ->
  inferType (AssignmentNode name expression) env =
  (Rejected ("Undefined variable (type): " +:+ name), env).
Proof.
  intros Hnone. cbn [inferType].
  assert (Hget : getType env name =
                 Rejected ("Undefined variable (type): " +:+ name)).
  { induction env as [|types env IH]; [reflexivity|]. cbn [getType].
    rewrite (Hnone types) by left. apply IH.
    intros t Ht. apply Hnone. right. exact Ht. }
  rewrite Hget. reflexivity.
Qed.

Lemma writes_keep_other_names ctx (writes : list (string * value)) b : forall h,
  b ∉ map fst writes ->
  own_binding (fold_left (fun h' w => setVariable ctx (fst w) (snd w) h')
                         writes h) ctx b
  = own_binding h ctx b.
Proof.
  induction writes as [|[x v] writes IH]; intros h Hb; cbn [fold_left];
    [reflexivity|].
  cbn [map fst] in Hb. apply not_elem_of_cons in Hb as [Hne Hb].
  rewrite IH by exact Hb. cbn [fst snd].
  rewrite own_binding_setVariable, decide_False; [reflexivity|].
  intros (_ & -> & _). contradiction.
Qed.

(** [createChildContext] is the constructor applied to the current frame. *)
Lemma createChildContext_constructs ctx h :
  createChildContext ctx h = new_ExecutionContext (Some ctx) h.
Proof. reflexivity. Qed.

(** C10: every frame, the root ([parent = None]) or a child
    ([createChildContext ctx] is [new ExecutionContext(ctx)]), is
    constructed with its own binding of each of the ten built-in names; as
    long as the frame's later writes leave such a name alone, looking it up
    from that frame yields the frame's own built-in, whatever the store
    held before, ancestors included. *)
Theorem builtins_in_every_frame (parent : option nat) (h : heap)
    (writes : list (string * value)) (b : string) :
  b ∈ builtin_names ->
  b ∉ map fst writes ->
  let ctx := fst (new_ExecutionContext parent h) in
  let h1 := snd (new_ExecutionContext parent h) in
  let h2 := fold_left (fun h' w => setVariable ctx (fst w) (snd w) h')
                      writes h1 in
  own_binding h1 ctx b = Some (VBuiltin b ctx)
  /\ own_binding h2 ctx b = Some (VBuiltin b ctx)
  /\ getVariable ctx b h2 = (Normal (VBuiltin b ctx), h2).
Proof.
  intros Hb Hw ctx h1 h2.
  assert (Hnew : new_ExecutionContext parent h = (ctx, h1))
    by (subst ctx h1; apply surjective_pairing).
  assert (H1 : own_binding h1 ctx b = Some (VBuiltin b ctx)).
  { rewrite (new_ExecutionContext_own _ _ _ _ b Hnew), decide_True; auto. }
  assert (H2 : own_binding h2 ctx b = Some (VBuiltin b ctx)).
  { subst h2. rewrite writes_keep_other_names; assumption. }
  split; [exact H1|]. split; [exact H2|]. apply getVariable_own, H2.
Qed.

(** C10, on a run: the root rebinds [print] to 5; a child of the root,
    which then declares [x], still resolves [print] to its own built-in. *)
Lemma builtins_in_every_frame_witness :
  let h := setVariable 0 "print" (VNum 5) root_heap in
  let h2 := setVariable 1 "x" (VNum 1) (snd (createChildContext 0 h)) in
  own_binding (snd (createChildContext 0 h)) 1 "print" = Some (VBuiltin "print" 1)
  /\ own_binding h2 1 "print" = Some (VBuiltin "print" 1)
  /\ getVariable 1 "print" h2 = (Normal (VBuiltin "print" 1), h2).
Proof.
  intros h h2.
  apply (builtins_in_every_frame (Some 0) h [("x", VNum 1)] "print").
  - left.
  - cbn [map fst]. intros H. apply list_elem_of_singleton in H. discriminate.
Defined.

End Scopes.

(* ===================================================================== *)
(** * The specification's claims: signals, calls and memoization *)
(* ===================================================================== *)

Module Signals.
Import Types Syntax Runtime Exec Invariants StoreFacts ExecFacts Samples.

#[local] Arguments createChildContext : simpl never.
#[local] Arguments setVariable : simpl never.

(** A statement list stops at the first statement that does not complete:
    what follows it is not run. *)
Lemma run_stmts_stops exec pre : forall ctx result h r1 h1 s f h2 post,
  run_stmts exec pre ctx result h = (None, r1, h1) ->
  exec s ctx h1 = (Fail f, h2) ->
  run_stmts exec (pre ++ s :: post) ctx result h = (Some f, r1, h2).
Proof.
  induction pre as [|p pre IH]; intros ctx result h r1 h1 s f h2 post Hpre Hs.
  - cbn [run_stmts] in Hpre. injection Hpre as -> ->.
    cbn [app run_stmts]. rewrite Hs. reflexivity.
  - cbn [app run_stmts] in *. destruct (exec p ctx h) as [[v|f'] h'];
      [|discriminate]. eapply IH; eassumption.
Qed.

(** Statements run in order: a list is its prefix, then its suffix from
    where the prefix ended. *)
Lemma run_stmts_app exec pre post : forall ctx result h,
  run_stmts exec (pre ++ post) ctx result h =
  match run_stmts exec pre ctx result h with
  | (None, r1, h1) => run_stmts exec post ctx r1 h1
  | stopped => stopped
  end.
Proof.
  induction pre as [|p pre IH]; intros ctx result h; cbn [app run_stmts].
  - reflexivity.
  - destruct (exec p ctx h) as [[v|f] h']; [apply IH|reflexivity].
Qed.

(** C4: a While loop whose body raises a signal absorbs Break (the loop
    returns at once, no further condition check or iteration) and Continue
    (the loop goes on with the next condition check), and lets a Return
    signal or an error through; a TryCatch whose try block raises catches an
    error (a fresh child context binds it to the catch variable and the
    catch block runs there) and lets the three signals through unchanged.
    In both, the statements behind the raising one are not run. *)
Theorem signals_at_boundaries fuel k condition body context result h h1
    loopCtx h2 sig result' h3 tryBlock catchVar catchBlock th tryCtx th1
    e tr th2 :
  execute fuel condition context h = (Normal (VBool true), h1) ->
  createChildContext context h1 = (loopCtx, h2) ->
  run_stmts (execute fuel) body context result h2
    = (Some (Thrown sig), result', h3) ->
  createChildContext context th = (tryCtx, th1) ->
  run_stmts (execute fuel) tryBlock tryCtx VUndefined th1
    = (Some (Thrown e), tr, th2) ->
  execute (S fuel) (WhileNode condition body) context
    = while_loop (execute fuel) fuel condition body context VUndefined
  /\ while_loop (execute fuel) (S k) condition body context result h =
     match sig with
     | BreakSignal => (Normal result', h3)
     | ContinueSignal =>
         while_loop (execute fuel) k condition body context result' h3
     | ReturnSignal _ | JsError _ => (Throw sig, h3)
     end
  /\ execute (S fuel) (TryCatchNode tryBlock catchVar catchBlock) context th =
     match e with
     | JsError message =>
         finish (run_stmts (execute fuel) catchBlock
                   (fst (createChildContext context th2)) VUndefined
                   (setVariable (fst (createChildContext context th2)) catchVar
                      (VErrorObj message)
                      (snd (createChildContext context th2))))
     | ReturnSignal _ | BreakSignal | ContinueSignal => (Throw e, th2)
     end
  /\ (forall pre s post r1 g1 g2 g,
        run_stmts (execute fuel) pre context result g = (None, r1, g1) ->
        execute fuel s context g1 = (Throw sig, g2) ->
        run_stmts (execute fuel) (pre ++ s :: post) context result g
          = (Some (Thrown sig), r1, g2)).
Proof.
  intros Hcond Hloop Hbody Htry Htried.
  split; [reflexivity|]. split; [|split].
  - cbn [while_loop]. rewrite Hcond. cbn [negb]. rewrite Hloop, Hbody.
    destruct sig; reflexivity.
  - cbn [execute]. unfold try_catch. rewrite Htry, Htried.
    destruct e; reflexivity.
  - intros pre s post r1 g1 g2 g Hpre Hs. eapply run_stmts_stops; eassumption.
Qed.

(** C4, on a run: [while (true) { print("in"); break; print("unreachable") }]
    returns after one pass with one line printed, and
    [try { print("in"); continue; ... } catch (e) { ... }] hands the Continue
    signal on. *)
Lemma signals_at_boundaries_witness :
  let body := counting_body BreakNode in
  let tryBlock := counting_body ContinueNode in
  let h2 := snd (createChildContext 0 root_heap) in
  let printed :=
    mkHeap (contexts h2) (caches h2) [[VStr "in"]] in
  execute 4 (WhileNode (LiteralNode (LBool true)) body) 0
    = while_loop (execute 3) 3 (LiteralNode (LBool true)) body 0 VUndefined
  /\ while_loop (execute 3) 1 (LiteralNode (LBool true)) body 0 VUndefined
       root_heap = (Normal VUndefined, printed)
  /\ execute 4 (TryCatchNode tryBlock "e" [print (var "e")]) 0 root_heap
     = (Throw ContinueSignal, printed)
  /\ (forall pre s post r1 g1 g2 g,
        run_stmts (execute 3) pre 0 VUndefined g = (None, r1, g1) ->
        execute 3 s 0 g1 = (Throw BreakSignal, g2) ->
        run_stmts (execute 3) (pre ++ s :: post) 0 VUndefined g
          = (Some (Thrown BreakSignal), r1, g2)).
Proof.
  intros body tryBlock h2 printed.
  apply (signals_at_boundaries 3 0 (LiteralNode (LBool true)) body 0 VUndefined
           root_heap root_heap 1 h2 BreakSignal VUndefined printed
           tryBlock "e" [print (var "e")] root_heap 1 h2
           ContinueSignal VUndefined printed);
    vm_compute; reflexivity.
Defined.

End Signals.

Module Calls.
Import Types Syntax Runtime Exec Invariants StoreFacts ExecFacts Signals Samples.

#[local] Arguments createChildContext : simpl never.
#[local] Arguments setVariable : simpl never.




(** What that run returns. *)
Lemma doubling_call_result :
  fst (call_value (execute 5) (VClosure ["n"] doubling_body 0 None) [VNum 21]
         root_heap) = Normal (VNum 42).
Proof. vm_compute. reflexivity. Qed.


End Calls.

Module Memoization.
Import Types Syntax Runtime Exec Invariants StoreFacts ExecFacts Samples.

#[local] Arguments createChildContext : simpl never.
#[local] Arguments setVariable : simpl never.


(** [toFunction] on a pure literal: the closure carries a cache of its own,
    new and empty. *)
Lemma toFunction_pure params body outer h :
  let cid := List.length (caches h) in
  let h' := snd (toFunction params body true outer h) in
  fst (toFunction params body true outer h)
    = VClosure params body outer (Some cid)
  /\ cid < List.length (caches h')
  /\ forall key, cache_lookup cid key h' = None.
Proof.
  unfold toFunction; simpl. split; [reflexivity|]. split.
  - rewrite length_app; simpl. lia.
  - intros key. unfold cache_lookup; simpl.
    rewrite list_lookup_middle by reflexivity. simpl. apply lookup_empty.
Qed.

Lemma toFunction_impure params body outer h :
  toFunction params body false outer h = (VClosure params body outer None, h).
Proof. reflexivity. Qed.



(** What that run does: the first call prints and returns 42, the second
    returns 42 and prints nothing. *)
Lemma doubling_pure_twice :
  let f := fst doubling_pure in
  let first := call_value (execute 5) f [VNum 21] (snd doubling_pure) in
  let second := call_value (execute 5) f [VNum 21] (snd first) in
  fst first = Normal (VNum 42)
  /\ console (snd first) = [[VNum 21]]
  /\ second = (Normal (VNum 42), snd first).
Proof. intros f first second. conjuncts; vm_compute; reflexivity. Qed.


(** Nor is anything cached while a call is still running.  [f(null)] calls
    [f(undefined)] from its body; the two argument lists have one key, and
    the inner call, made before the outer one has returned, finds no entry
    under it and runs the body again: both calls print. *)
Lemma pure_reentrant_call_runs_body_again :
  JSON_stringify [VUndefined] = JSON_stringify [VNull]
  /\ fst (Interpreter_execute 12 reentrant_program) = Normal 0
  /\ console (snd (Interpreter_execute 12 reentrant_program))
     = [[VNull]; [VUndefined]]
  /\ cache_lookup 0 "[null]" (snd (Interpreter_execute 12 reentrant_program))
     = Some (VNum 1).
Proof. conjuncts; vm_compute; reflexivity. Qed.

End Memoization.

(* ===================================================================== *)
(** * Further properties: the type model and the type environment *)
(* ===================================================================== *)

Module TypeLaws.
Import Types Syntax Runtime Infer TypesFacts Further.

(** X1: [compareTypes] is transitive on well-formed types: with reflexivity and
    symmetry it is an equivalence, so a chain of accepted comparisons can be
    shortened. *)
Theorem compareTypes_transitive (a b c : Ty) :
  well_formed a = true -> well_formed b = true -> well_formed c = true ->
  compareTypes a b = true -> compareTypes b c = true ->
  compareTypes a c = true.
Proof.
  revert b c.
  induction a as [tag|ps r IHps IHr|e IHe|props IHprops] using Ty_nested_ind;
    intros b c Hwa Hwb Hwc Hab Hbc;
    destruct b as [tagb|qs s|f|bprops]; try discriminate;
    destruct c as [tagc|us u|g|cprops]; try discriminate.
  - simpl in *. apply bool_decide_eq_true in Hab as ->. exact Hbc.
  - apply well_formed_function in Hwa as [Hps Hr].
    apply well_formed_function in Hwb as [Hqs Hs].
    apply well_formed_function in Hwc as [Hus Hu].
    apply compare_function in Hab as (Hlen1 & Hall1 & Hret1).
    apply compare_function in Hbc as (Hlen2 & Hall2 & Hret2).
    apply compare_function. split; [congruence|]. split; [|eauto].
    clear Hlen1 Hlen2 Hret1 Hret2. revert us Hall2 Hps Hqs Hus IHps.
    induction Hall1 as [|p q ps qs Hpq Hall1 IH]; intros us Hall2 Hps Hqs Hus IHps;
      inversion Hall2; subst; [constructor|].
    inversion Hps; inversion Hqs; inversion Hus; inversion IHps; subst.
    constructor; eauto.
  - simpl in *. eauto.
  - apply well_formed_object in Hwa as [Hnda Hwfa].
    apply well_formed_object in Hwb as [Hndb Hwfb].
    apply well_formed_object in Hwc as [Hndc Hwfc].
    apply compare_object in Hab as [Hlen1 Hall1].
    apply compare_object in Hbc as [Hlen2 Hall2].
    rewrite Forall_forall in Hall1, Hall2, IHprops, Hwfa, Hwfb, Hwfc.
    apply compare_object. split; [congruence|].
    apply Forall_forall. intros [k ta] Hina. simpl.
    destruct (Hall1 _ Hina) as (tb & Hlb & Hcab). simpl in Hlb, Hcab.
    pose proof (prop_lookup_elem _ _ _ Hlb) as Hinb.
    destruct (Hall2 _ Hinb) as (tc & Hlc & Hcbc). simpl in Hlc, Hcbc.
    pose proof (prop_lookup_elem _ _ _ Hlc) as Hinc.
    exists tc. split; [exact Hlc|].
    apply (IHprops _ Hina tb tc);
      [apply (Hwfa _ Hina)|apply (Hwfb _ Hinb)|apply (Hwfc _ Hinc)|assumption..].
Qed.

Lemma compareTypes_transitive_witness :
  compareTypes pair_ab (TObject [("a", TArray (TPrim Tnumber));
                                 ("b", TPrim Tstring)]) = true.
Proof.
  apply (compareTypes_transitive pair_ab pair_ba
           (TObject [("a", TArray (TPrim Tnumber)); ("b", TPrim Tstring)]));
    vm_compute; reflexivity.
Defined.

(** X2: the type environment is a scoped map.  For a name other than
    [__proto__]: it reads back the type last set for it in the current
    scope, setting it leaves every other name as it was, and set in a child
    scope it shadows the parent's binding and is gone with the child.  A
    name that no object inherits from [Object.prototype] reads in a fresh
    child scope as in its parent, and when no scope has set it, nor set
    [__proto__], it is the error "Undefined variable (type): name". *)
Theorem type_environment_scoping (env : TypeEnvironment) (name other : string)
    (t : Ty) :
  env <> [] ->
  name <> "__proto__" ->
  other <> name ->
  other ∉ Object_prototype_names ->
  getType (setType name t env) name = Inferred t
  /\ getType (setType name t env) other = getType env other
  /\ getType (createChild env) other = getType env other
  /\ getType (setType name t (createChild env)) name = Inferred t
  /\ tail (setType name t (createChild env)) = env
  /\ (unbound_in env "__proto__" -> unbound_in env other ->
      getType env other = Rejected ("Undefined variable (type): " +:+ other)).
Proof.
  intros Henv _ Hne _. split_and!.
  - destruct env as [|types parent]; [contradiction|].
    cbn [setType getType]. rewrite lookup_insert_eq. reflexivity.
  - destruct env as [|types parent]; [contradiction|].
    cbn [setType getType]. rewrite lookup_insert_ne by congruence. reflexivity.
  - cbn [createChild getType]. rewrite lookup_empty. reflexivity.
  - cbn [createChild setType getType]. rewrite lookup_insert_eq. reflexivity.
  - reflexivity.
  - intros _ Hnone. clear Henv.
    induction env as [|types env IH]; [reflexivity|]. cbn [getType].
    rewrite (Hnone types) by left. apply IH.
    intros types' Hin. apply Hnone. right. exact Hin.
Qed.

Lemma type_environment_scoping_witness :
  getType (setType "x" (TPrim Tboolean) two_scopes) "x" = Inferred (TPrim Tboolean)
  /\ getType (setType "x" (TPrim Tboolean) two_scopes) "z"
     = getType two_scopes "z"
  /\ getType (createChild two_scopes) "z" = getType two_scopes "z"
  /\ getType (setType "x" (TPrim Tboolean) (createChild two_scopes)) "x"
     = Inferred (TPrim Tboolean)
  /\ tail (setType "x" (TPrim Tboolean) (createChild two_scopes)) = two_scopes
  /\ getType two_scopes "z" = Rejected "Undefined variable (type): z".
Proof.
  assert (Hfree : forall name, name <> "x" -> name <> "y" ->
                               unbound_in two_scopes name).
  { intros name Hx Hy types Hin. unfold two_scopes in Hin.
    repeat (apply elem_of_cons in Hin as [->|Hin];
            [apply lookup_singleton_ne; congruence|]).
    apply elem_of_nil in Hin as []. }
  assert (Hz : "z" ∉ Object_prototype_names).
  { intros Hin.
    repeat (apply elem_of_cons in Hin as [Hin|Hin]; [discriminate|]).
    apply elem_of_nil in Hin as []. }
  assert (Hscopes : two_scopes <> []) by discriminate.
  assert (Hx : "x" <> "__proto__") by discriminate.
  assert (Hzx : "z" <> "x") by discriminate.
  destruct (type_environment_scoping two_scopes "x" "z" (TPrim Tboolean)
              Hscopes Hx Hzx Hz) as (H1 & H2 & H3 & H4 & H5 & H6).
  split_and!; [exact H1|exact H2|exact H3|exact H4|exact H5|].
  apply H6; apply Hfree; discriminate.
Defined.

End TypeLaws.

(* ===================================================================== *)
(** * Further properties: the execution context *)
(* ===================================================================== *)

Module ContextFacts.
Import Types Syntax Runtime Exec Invariants StoreFacts ExecFacts.
Import HeapFacts HeapSafe Samples Further.

#[local] Arguments setVariable : simpl never.
#[local] Arguments createChildContext : simpl never.

(** Writing one name of one frame changes no lookup of another name. *)
Lemma lookup_chain_other_name ctxs ctx name v other :
  other <> name ->
  forall steps c,
    lookup_chain steps (alter (set_in_context name v) ctx ctxs) c other
    = lookup_chain steps ctxs c other.
Proof.
  intros Hne. induction steps as [|steps IH]; intros c; cbn [lookup_chain];
    [reflexivity|].
  destruct (decide (ctx = c)) as [->|Hc].
  - rewrite list_lookup_alter_eq. destruct (ctxs !! c) as [fr|]; simpl; [|reflexivity].
    rewrite lookup_insert_ne by congruence.
    destruct (variables fr !! other); [reflexivity|].
    destruct (parent fr); [apply IH|reflexivity].
  - rewrite list_lookup_alter_ne by exact Hc.
    destruct (ctxs !! c) as [fr|]; [|reflexivity].
    destruct (variables fr !! other); [reflexivity|].
    destruct (parent fr); [apply IH|reflexivity].
Qed.

(** With frames after their parents, enough steps are as good as more. *)
Lemma lookup_chain_steps ctxs name :
  chain_ok ctxs ->
  forall s1 s2 ctx, ctx < s1 -> ctx < s2 ->
    lookup_chain s1 ctxs ctx name = lookup_chain s2 ctxs ctx name.
Proof.
  intros Hok. induction s1 as [|s1 IH]; intros s2 ctx H1 H2; [lia|].
  destruct s2 as [|s2]; [lia|]. cbn [lookup_chain].
  destruct (ctxs !! ctx) as [c|] eqn:Hc; [|reflexivity].
  destruct (variables c !! name); [reflexivity|].
  destruct (parent c) as [p|] eqn:Hp; [|reflexivity].
  specialize (Hok _ _ _ Hc Hp). apply IH; lia.
Qed.

(** A lookup is the first binding along the chain of enclosing frames. *)
Lemma lookup_chain_enclosing ctxs name :
  chain_ok ctxs ->
  forall steps ctx, ctx < steps -> ctx < List.length ctxs ->
    lookup_chain steps ctxs ctx name =
    match omap (fun f => c ← ctxs !! f; variables c !! name)
               (scope_chain steps ctxs ctx) with
    | v :: _ => Normal v
    | [] => Throw (JsError ("Undefined variable: " +:+ name))
    end.
Proof.
  intros Hok. induction steps as [|steps IH]; intros ctx Hsteps Hctx; [lia|].
  cbn [lookup_chain scope_chain omap list_omap].
  destruct (ctxs !! ctx) as [c|] eqn:Hc;
    [|apply lookup_ge_None in Hc; lia].
  cbn. destruct (variables c !! name) as [v|]; [reflexivity|].
  destruct (parent c) as [p|] eqn:Hp; [|reflexivity].
  specialize (Hok _ _ _ Hc Hp). apply IH; lia.
Qed.

(** In a store whose frames come after their parents, a lookup from an
    existing frame ends in a value or in the undefined-variable error. *)
Lemma lookup_chain_ends ctxs name ctx :
  chain_ok ctxs -> ctx < List.length ctxs ->
  (exists v, lookup_chain (S ctx) ctxs ctx name = Normal v)
  \/ lookup_chain (S ctx) ctxs ctx name
     = Throw (JsError ("Undefined variable: " +:+ name)).
Proof.
  intros Hok Hctx.
  rewrite (lookup_chain_enclosing ctxs name Hok (S ctx) ctx) by lia.
  destruct (omap _ _); eauto.
Qed.

(** A fresh child reads every name but the built-ins as its parent does. *)
Lemma child_lookup ctx name h c h1 :
  createChildContext ctx h = (c, h1) ->
  chain_ok (contexts h) ->
  ctx < List.length (contexts h) ->
  name ∉ builtin_names ->
  fst (getVariable c name h1) = fst (getVariable ctx name h).
Proof.
  intros Hchild Hok Hctx Hname.
  pose proof (new_ExecutionContext_index _ _ _ _ Hchild) as (Hc & Hlen & _).
  pose proof (new_ExecutionContext_parent _ _ _ _ Hchild) as Hparent.
  pose proof (new_ExecutionContext_own _ _ _ _ name Hchild) as Hown.
  pose proof (new_ExecutionContext_extends _ _ _ _ Hchild) as (_ & _ & Hkept).
  rewrite decide_False in Hown by exact Hname.
  unfold getVariable; cbn [fst].
  set (rhs := lookup_chain (S ctx) (contexts h) ctx name).
  cbn [lookup_chain]. subst rhs.
  unfold own_binding in Hown.
  destruct (contexts h1 !! c) as [fr|] eqn:Hfr; [|discriminate].
  cbn in Hown, Hparent. rewrite Hown. injection Hparent as ->.
  rewrite (lookup_chain_agree (contexts h) (contexts h1) name Hok c ctx)
    by (intros f Hf; apply Hkept; lia).
  apply lookup_chain_steps; [exact Hok|lia|lia].
Qed.

(** Binding parameters changes no lookup of a name that is not one. *)
Lemma bind_from_lookup_other names : forall i args ctx h steps c x,
  x ∉ names ->
  lookup_chain steps (contexts (bind_from i names args ctx h)) c x
  = lookup_chain steps (contexts h) c x.
Proof.
  induction names as [|p names IH]; intros i args ctx h steps c x Hx;
    cbn [bind_from]; [reflexivity|].
  apply not_elem_of_cons in Hx as [Hne Hx].
  rewrite IH by exact Hx. unfold setVariable; cbn [contexts].
  apply lookup_chain_other_name, Hne.
Qed.

End ContextFacts.

Module ContextLaws.
Import Types Syntax Runtime Exec Invariants StoreFacts ExecFacts.
Import HeapFacts HeapSafe Samples Further ContextFacts.

#[local] Arguments setVariable : simpl never.
#[local] Arguments createChildContext : simpl never.



(** X4: a fresh child context resolves a name exactly as its parent does,
    when the name is none of the ten built-ins, which the child binds
    itself, and none of the names every object inherits from
    [Object.prototype], which the child's empty record has already. *)
Theorem child_context_sees_parent ctx name h :
  chain_ok (contexts h) ->
  ctx < List.length (contexts h) ->
  name ∉ builtin_names ->
  name ∉ Object_prototype_names ->
  fst (getVariable (fst (createChildContext ctx h)) name
                   (snd (createChildContext ctx h)))
  = fst (getVariable ctx name h).
Proof.
  intros Hok Hctx Hname _.
  destruct (createChildContext ctx h) as [c h1] eqn:Hchild. cbn [fst snd].
  eapply child_lookup; eassumption.
Qed.

Lemma child_context_sees_parent_witness :
  fst (getVariable (fst (createChildContext 0 x_in_root)) "x"
                   (snd (createChildContext 0 x_in_root)))
  = fst (getVariable 0 "x" x_in_root).
Proof.
  apply (child_context_sees_parent 0 "x" x_in_root).
  - intros i c p Hi Hp.
    destruct i as [|i]; vm_compute in Hi; simplify_eq; vm_compute in Hp;
      simplify_eq.
  - vm_compute. lia.
  - intros Hin. repeat (apply elem_of_cons in Hin as [Hin|Hin]; [discriminate|]).
    apply elem_of_nil in Hin as [].
  - intros Hin. repeat (apply elem_of_cons in Hin as [Hin|Hin]; [discriminate|]).
    apply elem_of_nil in Hin as [].
Defined.

(** X5: for a name that no object inherits from [Object.prototype], in a
    store where no frame was written under [__proto__], [getVariable]
    returns the binding of the nearest enclosing frame that binds the name,
    and throws "Undefined variable: name" exactly when no frame from the
    current one up to the root binds it. *)
Theorem lookup_finds_nearest_binding ctx name h :
  chain_ok (contexts h) ->
  ctx < List.length (contexts h) ->
  name ∉ Object_prototype_names ->
  plain_store h ->
  fst (getVariable ctx name h) =
  match omap (fun f => own_binding h f name) (enclosing h ctx) with
  | v :: _ => Normal v
  | [] => Throw (JsError ("Undefined variable: " +:+ name))
  end.
Proof.
  intros Hok Hctx _ _. unfold getVariable, enclosing; cbn [fst].
  apply lookup_chain_enclosing; [exact Hok|lia|exact Hctx].
Qed.

Lemma lookup_finds_nearest_binding_witness :
  fst (getVariable 1 "x" x_in_root_child) =
  match omap (fun f => own_binding x_in_root_child f "x")
             (enclosing x_in_root_child 1) with
  | v :: _ => Normal v
  | [] => Throw (JsError ("Undefined variable: " +:+ "x"))
  end.
Proof.
  apply (lookup_finds_nearest_binding 1 "x" x_in_root_child).
  - intros i c p Hi Hp.
    destruct i as [|[|i]]; vm_compute in Hi; simplify_eq; vm_compute in Hp;
      simplify_eq. lia.
  - vm_compute. lia.
  - intros Hin. repeat (apply elem_of_cons in Hin as [Hin|Hin]; [discriminate|]).
    apply elem_of_nil in Hin as [].
  - intros [|[|frame]]; vm_compute; reflexivity.
Defined.

End ContextLaws.

(* ===================================================================== *)
(** * What every execution preserves *)
(* ===================================================================== *)

(** The store is changed by six primitive steps only: a variable is set, a
    signal flag is raised, a context is constructed, a cache is created, a
    cache entry is written, a line is printed.  A relation between stores
    that is reflexive, transitive and holds across each of the six holds
    across the execution of any node and the call of any callable. *)
Module Preservation.
Import Types Syntax Runtime Exec Invariants StoreFacts ExecFacts.

#[local] Arguments createChildContext : simpl never.
#[local] Arguments new_ExecutionContext : simpl never.
#[local] Arguments setVariable : simpl never.
#[local] Arguments set_signal : simpl never.
#[local] Arguments toFunction : simpl never.
#[local] Arguments call_builtin : simpl never.
#[local] Arguments getVariable : simpl never.
#[local] Arguments apply_operator : simpl never.
#[local] Arguments cache_set : simpl never.

Section Preserved.

Variable R : heap -> heap -> Prop.
Hypothesis R_refl : forall h, R h h.
Hypothesis R_trans : forall h1 h2 h3, R h1 h2 -> R h2 h3 -> R h1 h3.
Hypothesis R_setVariable : forall ctx name v h, R h (setVariable ctx name v h).
Hypothesis R_set_signal : forall ctx s h, R h (set_signal ctx s h).
Hypothesis R_new_context :
  forall ctx h, R h (snd (createChildContext ctx h)).
Hypothesis R_new_cache :
  forall h, R h (mkHeap (contexts h) (caches h ++ [∅]) (console h)).
Hypothesis R_cache_set : forall cid key v h, R h (cache_set cid key v h).
Hypothesis R_print :
  forall args h, R h (mkHeap (contexts h) (caches h) (console h ++ [args])).

Ltac steps :=
  first [ eassumption
        | apply R_refl
        | eapply R_trans; [eassumption|steps] ].

Lemma createChildContext_preserves ctx h c h1 :
  createChildContext ctx h = (c, h1) -> R h h1.
Proof.
  intros H.
  replace h1 with (snd (createChildContext ctx h)) by (rewrite H; reflexivity).
  apply R_new_context.
Qed.

Lemma bind_from_preserves names : forall i args ctx h,
  R h (bind_from i names args ctx h).
Proof.
  induction names as [|p names IH]; intros i args ctx h; cbn [bind_from].
  - apply R_refl.
  - eapply R_trans; [apply R_setVariable|apply IH].
Qed.

Lemma toFunction_preserves params body pure outer h f h' :
  toFunction params body pure outer h = (f, h') -> R h h'.
Proof.
  unfold toFunction. destruct pure; intros [= <- <-].
  - apply R_new_cache.
  - apply R_refl.
Qed.

Lemma call_builtin_preserves name args h r h' :
  call_builtin name args h = (r, h') -> R h h'.
Proof.
  unfold call_builtin, ret, fail. intros H.
  repeat case_match; simplify_eq; try apply R_refl.
  apply R_print.
Qed.

Section Step.

Variable exec : node -> nat -> M value.
Hypothesis exec_preserves :
  forall n ctx h r h', exec n ctx h = (r, h') -> R h h'.

Lemma run_stmts_preserves stmts : forall ctx result h c r h',
  run_stmts exec stmts ctx result h = (c, r, h') -> R h h'.
Proof.
  induction stmts as [|stmt rest IH]; intros ctx result h c r h';
    cbn [run_stmts].
  - intros [= <- <- <-]. apply R_refl.
  - destruct (exec stmt ctx h) as [[v|f] h1] eqn:E.
    + intros H. apply exec_preserves in E. apply IH in H. steps.
    + intros [= <- <- <-]. apply exec_preserves in E. exact E.
Qed.

Lemma run_scope_preserves stmts ctx h r h' :
  run_scope exec stmts ctx h = (r, h') -> R h h'.
Proof.
  unfold run_scope. destruct (createChildContext ctx h) as [c h1] eqn:Hc.
  destruct (run_stmts exec stmts c VUndefined h1) as [[cmp res] h2] eqn:Hrun.
  intros ->%finish_inv. apply createChildContext_preserves in Hc.
  apply run_stmts_preserves in Hrun. steps.
Qed.

Lemma call_fn_preserves params body outer args h r h' :
  call_fn exec params body outer args h = (r, h') -> R h h'.
Proof.
  unfold call_fn. destruct (createChildContext outer h) as [c h1] eqn:Hc.
  apply createChildContext_preserves in Hc.
  destruct (negb _).
  - intros [= <- <-]. exact Hc.
  - destruct (run_stmts exec body _ VUndefined _) as [[cmp res] h3] eqn:Hrun.
    apply run_stmts_preserves in Hrun.
    assert (R h h3).
    { eapply R_trans; [exact Hc|].
      eapply R_trans; [apply bind_from_preserves|exact Hrun]. }
    intros H'. repeat case_match; simplify_eq; assumption.
Qed.

Lemma call_arrow_preserves paramNames body context args h r h' :
  call_arrow exec paramNames body context args h = (r, h') -> R h h'.
Proof.
  unfold call_arrow. destruct (createChildContext context h) as [c h1] eqn:Hc.
  apply createChildContext_preserves in Hc. intros H.
  apply exec_preserves in H.
  eapply R_trans; [exact Hc|].
  eapply R_trans; [apply bind_from_preserves|exact H].
Qed.

Lemma memoize_preserves fn cid args h r h' :
  (forall h r h', fn args h = (r, h') -> R h h') ->
  memoize fn cid args h = (r, h') -> R h h'.
Proof.
  intros Hfn. unfold memoize. intros H.
  repeat case_match; simplify_eq; try apply R_refl.
  - eapply R_trans; [eapply Hfn; eassumption|apply R_cache_set].
  - eapply Hfn; eassumption.
Qed.

Lemma call_value_preserves f args h r h' :
  call_value exec f args h = (r, h') -> R h h'.
Proof.
  destruct f; cbn [call_value]; unfold fail;
    try (intros [= <- <-]; apply R_refl).
  - apply call_builtin_preserves.
  - destruct cache.
    + apply memoize_preserves. intros ? ? ?. apply call_fn_preserves.
    + apply call_fn_preserves.
  - apply call_arrow_preserves.
Qed.

Lemma eval_args_preserves args : forall ctx h r h',
  eval_args exec args ctx h = (r, h') -> R h h'.
Proof.
  induction args as [|arg rest IH]; intros ctx h r h'; cbn [eval_args].
  - intros [= <- <-]. apply R_refl.
  - intros H. apply bind_inv in H as [(v & h1 & E & H)|(f & E & ->)].
    + assert (R h h1).
      { destruct arg; try (apply exec_preserves in E; exact E).
        destruct (toFunction _ _ _ _ _) as [fv h0] eqn:Ht.
        apply toFunction_preserves in Ht. simplify_eq. exact Ht. }
      apply bind_inv in H as [(vs & h2 & E2 & H)|(f & E2 & ->)].
      * apply IH in E2. unfold ret in H. simplify_eq. steps.
      * apply IH in E2. steps.
    + destruct arg; try (apply exec_preserves in E; exact E).
      destruct (toFunction _ _ _ _ _) as [fv h0] eqn:Ht. simplify_eq.
Qed.

Lemma exec_list_preserves elements : forall ctx h r h',
  exec_list exec elements ctx h = (r, h') -> R h h'.
Proof.
  induction elements as [|el rest IH]; intros ctx h r h'; cbn [exec_list].
  - intros [= <- <-]. apply R_refl.
  - intros H. apply bind_inv in H as [(v & h1 & E & H)|(f & E & ->)].
    + apply exec_preserves in E.
      apply bind_inv in H as [(vs & h2 & E2 & H)|(f & E2 & ->)].
      * apply IH in E2. unfold ret in H. simplify_eq. steps.
      * apply IH in E2. steps.
    + apply exec_preserves in E. exact E.
Qed.

Lemma exec_props_preserves properties : forall ctx h r h',
  exec_props exec properties ctx h = (r, h') -> R h h'.
Proof.
  induction properties as [|[key el] rest IH]; intros ctx h r h';
    cbn [exec_props].
  - intros [= <- <-]. apply R_refl.
  - intros H. apply bind_inv in H as [(v & h1 & E & H)|(f & E & ->)].
    + apply exec_preserves in E.
      apply bind_inv in H as [(vs & h2 & E2 & H)|(f & E2 & ->)].
      * apply IH in E2. unfold ret in H. simplify_eq. steps.
      * apply IH in E2. steps.
    + apply exec_preserves in E. exact E.
Qed.

Lemma while_loop_preserves fuel : forall condition body ctx result h r h',
  while_loop exec fuel condition body ctx result h = (r, h') -> R h h'.
Proof.
  induction fuel as [|fuel IH]; intros condition body ctx result h r h';
    cbn [while_loop].
  - intros [= <- <-]. apply R_refl.
  - destruct (exec condition ctx h) as [[c|f] h1] eqn:Ec;
      apply exec_preserves in Ec; [|intros [= <- <-]; exact Ec].
    destruct c; try (intros [= <- <-]; exact Ec).
    destruct b; cbn [negb]; [|intros [= <- <-]; exact Ec].
    destruct (createChildContext ctx h1) as [lc h2] eqn:Hc.
    apply createChildContext_preserves in Hc.
    destruct (run_stmts exec body ctx result h2) as [[cmp res] h3] eqn:Hrun.
    apply run_stmts_preserves in Hrun.
    intros H. repeat case_match; simplify_eq; try (apply IH in H); steps.
Qed.

Lemma for_loop_preserves fuel : forall condition update body ctx result h r h',
  for_loop exec fuel condition update body ctx result h = (r, h') -> R h h'.
Proof.
  induction fuel as [|fuel IH]; intros condition update body ctx result h r h';
    cbn [for_loop].
  - intros [= <- <-]. apply R_refl.
  - destruct (exec condition ctx h) as [[c|f] h1] eqn:Ec;
      apply exec_preserves in Ec; [|intros [= <- <-]; exact Ec].
    destruct c; try (intros [= <- <-]; exact Ec).
    destruct b; cbn [negb]; [|intros [= <- <-]; exact Ec].
    destruct (createChildContext ctx h1) as [lc h2] eqn:Hc.
    apply createChildContext_preserves in Hc.
    destruct (run_stmts exec body _ result h2) as [[cmp res] h3] eqn:Hrun.
    apply run_stmts_preserves in Hrun.
    assert (Hbody : R h h3) by steps. clear Ec Hc Hrun.
    intros H.
    repeat match goal with
           | H : context [exec update ctx ?hh] |- _ =>
               let E := fresh "Eu" in
               destruct (exec update ctx hh) as [[?|?] ?] eqn:E;
               apply exec_preserves in E
           | H : context [match ?x with _ => _ end] |- _ =>
               is_var x; destruct x
           end; simplify_eq; try (apply IH in H); steps.
Qed.

Lemma do_while_loop_preserves fuel : forall body condition ctx result h r h',
  do_while_loop exec fuel body condition ctx result h = (r, h') -> R h h'.
Proof.
  induction fuel as [|fuel IH]; intros body condition ctx result h r h';
    cbn [do_while_loop].
  - intros [= <- <-]. apply R_refl.
  - destruct (createChildContext ctx h) as [lc h1] eqn:Hc.
    apply createChildContext_preserves in Hc.
    destruct (run_stmts exec body _ result h1) as [[cmp res] h2] eqn:Hrun.
    apply run_stmts_preserves in Hrun.
    assert (Hbody : R h h2) by steps. clear Hc Hrun.
    intros H.
    repeat match goal with
           | H : context [exec condition ctx ?hh] |- _ =>
               let E := fresh "Ec" in
               destruct (exec condition ctx hh) as [[?|?] ?] eqn:E;
               apply exec_preserves in E
           | H : context [match ?x with _ => _ end] |- _ =>
               is_var x; destruct x
           | H : context [if ?x then _ else _] |- _ => destruct x
           end; simplify_eq; try (apply IH in H); steps.
Qed.

Lemma for_each_loop_preserves itemName body ctx items : forall result h r h',
  for_each_loop exec itemName body ctx items result h = (r, h') -> R h h'.
Proof.
  induction items as [|item rest IH]; intros result h r h';
    cbn [for_each_loop].
  - intros [= <- <-]. apply R_refl.
  - destruct (createChildContext ctx h) as [lc h1] eqn:Hc.
    apply createChildContext_preserves in Hc.
    destruct (run_stmts exec body _ result _) as [[cmp res] h2] eqn:Hrun.
    apply run_stmts_preserves in Hrun.
    assert (Hbody : R h h2).
    { eapply R_trans; [exact Hc|].
      eapply R_trans; [apply R_setVariable|exact Hrun]. }
    clear Hc Hrun.
    intros H. repeat case_match; simplify_eq; try (apply IH in H); steps.
Qed.

Lemma switch_cases_preserves v cases defaultCase ctx : forall h r h',
  switch_cases exec v cases defaultCase ctx h = (r, h') -> R h h'.
Proof.
  induction cases as [|[m body] rest IH]; intros h r h'; cbn [switch_cases].
  - destruct defaultCase.
    + apply run_scope_preserves.
    + intros [= <- <-]. apply R_refl.
  - intros H. apply bind_inv in H as [(mv & h1 & E & H)|(f & E & ->)];
      apply exec_preserves in E; [|exact E].
    destruct (strict_eq v mv) as [[|]|].
    + apply run_scope_preserves in H. steps.
    + apply IH in H. steps.
    + unfold fail in H. simplify_eq. exact E.
Qed.

Lemma try_catch_preserves tryBlock catchVar catchBlock ctx h r h' :
  try_catch exec tryBlock catchVar catchBlock ctx h = (r, h') -> R h h'.
Proof.
  unfold try_catch. destruct (createChildContext ctx h) as [tc h1] eqn:Hc.
  apply createChildContext_preserves in Hc.
  destruct (run_stmts exec tryBlock _ VUndefined h1) as [[cmp res] h2] eqn:Hrun.
  apply run_stmts_preserves in Hrun.
  assert (Htry : R h h2) by steps.
  clear Hc Hrun. intros H.
  destruct cmp as [[[message| | |]| |]|]; simplify_eq; try exact Htry.
  destruct (createChildContext ctx h2) as [cc h3] eqn:Hc.
  apply createChildContext_preserves in Hc.
  destruct (run_stmts exec catchBlock _ VUndefined _) as [[cmp' res'] h4] eqn:Hrun.
  apply finish_inv in H as ->. apply run_stmts_preserves in Hrun.
  eapply R_trans; [exact Htry|].
  eapply R_trans; [exact Hc|].
  eapply R_trans; [apply R_setVariable|exact Hrun].
Qed.

End Step.

Lemma execute_preserves fuel : forall n ctx h r h',
  execute fuel n ctx h = (r, h') -> R h h'.
Proof.
  induction fuel as [|fuel IH]; intros n ctx h r h' H.
  - cbn [execute] in H. unfold fail in H. simplify_eq. apply R_refl.
  - destruct n; cbn [execute] in H.
    + (* VariableDeclarationNode *)
      destruct (decide (varType = VTfunction)).
      * destruct n; unfold throw_error, fail in H; simplify_eq;
          try apply R_refl.
        -- destruct (toFunction _ _ _ _ _) as [fv h0] eqn:Ht.
           apply toFunction_preserves in Ht. simplify_eq.
           eapply R_trans; [exact Ht|apply R_setVariable].
        -- apply R_setVariable.
      * apply bind_inv in H as [(v & h1 & E & H)|(f & E & ->)];
          apply IH in E; [|exact E].
        unfold throw_error, fail in H.
        repeat case_match; simplify_eq; try exact E.
        eapply R_trans; [exact E|apply R_setVariable].
    + (* AssignmentNode *)
      apply bind_inv in H as [(v & h1 & E & H)|(f & E & ->)];
        apply IH in E; [|exact E].
      simplify_eq. eapply R_trans; [exact E|apply R_setVariable].
    + (* ReturnNode *)
      apply bind_inv in H as [(v & h1 & E & H)|(f & E & ->)];
        apply IH in E; [|exact E].
      unfold fail in H. simplify_eq. exact E.
    + unfold fail in H. simplify_eq. apply R_refl.
    + unfold fail in H. simplify_eq. apply R_refl.
    + (* ErrorNode *)
      apply bind_inv in H as [(v & h1 & E & H)|(f & E & ->)];
        apply IH in E; [|exact E].
      unfold throw_error, fail in H. repeat case_match; simplify_eq; exact E.
    + unfold throw_error, fail in H. simplify_eq. apply R_refl.
    + unfold throw_error, fail in H. simplify_eq. apply R_refl.
    + (* FunctionCallNode *)
      apply bind_inv in H as [(fv & h1 & E & H)|(f & E & ->)];
        unfold getVariable in E; simplify_eq; [|apply R_refl].
      destruct (negb _);
        [unfold throw_error, fail in H; simplify_eq; apply R_refl|].
      apply bind_inv in H as [(vs & h2 & E2 & H)|(f & E2 & ->)];
        apply (eval_args_preserves _ IH) in E2; [|exact E2].
      apply (call_value_preserves _ IH) in H. steps.
    + unfold ret in H. simplify_eq. apply R_refl.
    + unfold getVariable in H. simplify_eq. apply R_refl.
    + (* OperatorNode *)
      apply bind_inv in H as [(v1 & h1 & E1 & H)|(f & E & ->)];
        [apply IH in E1|apply IH in E; exact E].
      apply bind_inv in H as [(v2 & h2 & E2 & H)|(f & E & ->)];
        [apply IH in E2|apply IH in E; steps].
      simplify_eq. steps.
    + unfold ret in H. simplify_eq. apply R_refl.
    + (* ArrayLiteralNode *)
      apply bind_inv in H as [(vs & h1 & E & H)|(f & E & ->)];
        apply (exec_list_preserves _ IH) in E; [|exact E].
      unfold ret in H. simplify_eq. exact E.
    + (* ObjectLiteralNode *)
      apply bind_inv in H as [(vs & h1 & E & H)|(f & E & ->)];
        apply (exec_props_preserves _ IH) in E; [|exact E].
      unfold ret in H. simplify_eq. exact E.
    + eapply (run_scope_preserves _ IH), H.
    + (* IfNode *)
      apply bind_inv in H as [(c & h1 & E & H)|(f & E & ->)];
        apply IH in E; [|exact E].
      destruct c; unfold throw_error, fail in H; simplify_eq; try exact E.
      apply (run_scope_preserves _ IH) in H. steps.
    + simplify_eq. apply R_set_signal.
    + eapply (while_loop_preserves _ IH), H.
    + (* ForNode *)
      apply bind_inv in H as [(v & h1 & E & H)|(f & E & ->)];
        apply IH in E; [|exact E].
      apply (for_loop_preserves _ IH) in H. steps.
    + (* SwitchNode *)
      apply bind_inv in H as [(v & h1 & E & H)|(f & E & ->)];
        apply IH in E; [|exact E].
      apply (switch_cases_preserves _ IH) in H. steps.
    + eapply (do_while_loop_preserves _ IH), H.
    + (* ForEachNode *)
      apply bind_inv in H as [(v & h1 & E & H)|(f & E & ->)];
        apply IH in E; [|exact E].
      destruct v; unfold throw_error, fail in H; simplify_eq; try exact E.
      apply (for_each_loop_preserves _ IH) in H. steps.
    + eapply (try_catch_preserves _ IH), H.
Qed.

Lemma interpreter_preserves fuel nodes r h :
  Interpreter_execute fuel nodes = (r, h) ->
  R (snd (new_ExecutionContext None empty_heap)) h.
Proof.
  unfold Interpreter_execute.
  destruct (new_ExecutionContext None empty_heap) as [context h0] eqn:Hnew.
  destruct (run_stmts (execute fuel) nodes _ VUndefined h0)
    as [[cmp res] h1] eqn:Hrun.
  apply (run_stmts_preserves _ (execute_preserves fuel)) in Hrun.
  intros H'. assert (h = h1) as -> by (destruct cmp; simplify_eq; reflexivity).
  exact Hrun.
Qed.

End Preserved.

End Preservation.

(* ===================================================================== *)
(** * Further properties: how the store evolves *)
(* ===================================================================== *)

Module Growth.
Import Types Syntax Runtime Exec Invariants StoreFacts ExecFacts Further.

#[local] Arguments createChildContext : simpl never.

Lemma frame_grows_refl c : frame_grows c c.
Proof. repeat split; auto. Qed.

Lemma frame_grows_trans c1 c2 c3 :
  frame_grows c1 c2 -> frame_grows c2 c3 -> frame_grows c1 c3.
Proof.
  intros (P1 & V1 & B1 & C1) (P2 & V2 & B2 & C2).
  repeat split; [congruence|auto..].
Qed.

Lemma frames_grow_refl h : frames_grow h h.
Proof. intros f c Hc. exists c. split; [exact Hc|apply frame_grows_refl]. Qed.

Lemma frames_grow_trans h1 h2 h3 :
  frames_grow h1 h2 -> frames_grow h2 h3 -> frames_grow h1 h3.
Proof.
  intros H1 H2 f c Hc.
  destruct (H1 _ _ Hc) as (c2 & Hc2 & G1).
  destruct (H2 _ _ Hc2) as (c3 & Hc3 & G2).
  exists c3. split; [exact Hc3|]. eapply frame_grows_trans; eassumption.
Qed.

Lemma frames_grow_alter (g : ExecutionContext -> ExecutionContext) ctx h :
  (forall c, frame_grows c (g c)) ->
  frames_grow h (mkHeap (alter g ctx (contexts h)) (caches h) (console h)).
Proof.
  intros Hg f c Hc. cbn [contexts].
  destruct (decide (ctx = f)) as [->|Hne].
  - exists (g c). rewrite list_lookup_alter_eq, Hc. split; [reflexivity|apply Hg].
  - exists c. rewrite list_lookup_alter_ne by exact Hne.
    split; [exact Hc|apply frame_grows_refl].
Qed.

Lemma frames_grow_setVariable ctx name v h :
  frames_grow h (setVariable ctx name v h).
Proof.
  apply frames_grow_alter. intros c. repeat split; auto.
  intros x Hx. cbn. destruct (decide (name = x)) as [->|Hne].
  - rewrite lookup_insert_eq. eauto.
  - rewrite lookup_insert_ne by exact Hne. exact Hx.
Qed.

Lemma frames_grow_set_signal ctx s h : frames_grow h (set_signal ctx s h).
Proof.
  apply frames_grow_alter. intros c. destruct s; repeat split; auto.
Qed.

Lemma frames_grow_extends h h' : extends h h' -> frames_grow h h'.
Proof.
  intros (_ & _ & Hkept) f c Hc. exists c. split; [|apply frame_grows_refl].
  rewrite Hkept; [exact Hc|]. eapply lookup_lt_Some, Hc.
Qed.

Lemma frames_grow_new_context ctx h :
  frames_grow h (snd (createChildContext ctx h)).
Proof.
  destruct (createChildContext ctx h) as [c h1] eqn:Hc.
  apply frames_grow_extends. eapply createChildContext_fresh, Hc.
Qed.

Lemma frames_grow_same_contexts h h' :
  contexts h' = contexts h -> frames_grow h h'.
Proof.
  intros Heq f c Hc. exists c. rewrite Heq.
  split; [exact Hc|apply frame_grows_refl].
Qed.

Lemma output_grows_refl h : output_grows h h.
Proof. split; [reflexivity|auto]. Qed.

Lemma output_grows_trans h1 h2 h3 :
  output_grows h1 h2 -> output_grows h2 h3 -> output_grows h1 h3.
Proof.
  intros (P1 & K1) (P2 & K2). split; [etrans; eassumption|auto].
Qed.

Lemma output_grows_same h h' :
  console h' = console h -> caches h' = caches h -> output_grows h h'.
Proof.
  intros Hc Hk. split; [rewrite Hc; reflexivity|].
  intros cid key. unfold cache_lookup. rewrite Hk. auto.
Qed.

Lemma output_grows_new_context ctx h :
  output_grows h (snd (createChildContext ctx h)).
Proof.
  destruct (createChildContext ctx h) as [c h1] eqn:Hc.
  pose proof (new_ExecutionContext_index _ _ _ _ Hc) as (_ & _ & Hk & Hp).
  apply output_grows_same; assumption.
Qed.

Lemma output_grows_new_cache h :
  output_grows h (mkHeap (contexts h) (caches h ++ [∅]) (console h)).
Proof.
  split; [reflexivity|]. intros cid key. unfold cache_lookup; cbn [caches].
  intros [v Hv]. destruct (caches h !! cid) as [c|] eqn:Hc; [|discriminate].
  rewrite (lookup_app_l_Some _ _ _ _ Hc). eauto.
Qed.

Lemma output_grows_cache_set cid key v h :
  output_grows h (cache_set cid key v h).
Proof.
  split; [reflexivity|]. intros cid' key'. unfold cache_lookup, cache_set.
  cbn [caches]. intros [w Hw].
  destruct (decide (cid = cid')) as [->|Hne].
  - rewrite list_lookup_alter_eq.
    destruct (caches h !! cid') as [c|]; [|discriminate]. cbn in *.
    destruct (decide (key = key')) as [->|Hk].
    + rewrite lookup_insert_eq. eauto.
    + rewrite lookup_insert_ne by exact Hk. eauto.
  - rewrite list_lookup_alter_ne by exact Hne. eauto.
Qed.

Lemma output_grows_print args h :
  output_grows h (mkHeap (contexts h) (caches h) (console h ++ [args])).
Proof.
  split; [apply prefix_app_r; reflexivity|]. intros cid key H. exact H.
Qed.

Lemma output_grows_preserved (P : (heap -> heap -> Prop) -> Prop) :
  (forall R : heap -> heap -> Prop,
      (forall h, R h h) ->
      (forall h1 h2 h3, R h1 h2 -> R h2 h3 -> R h1 h3) ->
      (forall ctx name v h, R h (setVariable ctx name v h)) ->
      (forall ctx s h, R h (set_signal ctx s h)) ->
      (forall ctx h, R h (snd (createChildContext ctx h))) ->
      (forall h, R h (mkHeap (contexts h) (caches h ++ [∅]) (console h))) ->
      (forall cid key v h, R h (cache_set cid key v h)) ->
      (forall args h,
          R h (mkHeap (contexts h) (caches h) (console h ++ [args]))) ->
      P R) ->
  P output_grows.
Proof.
  intros H. apply H.
  - apply output_grows_refl.
  - apply output_grows_trans.
  - intros ctx name v h. apply output_grows_same; reflexivity.
  - intros ctx s h. apply output_grows_same; reflexivity.
  - apply output_grows_new_context.
  - apply output_grows_new_cache.
  - apply output_grows_cache_set.
  - apply output_grows_print.
Qed.

Lemma frames_grow_preserved (P : (heap -> heap -> Prop) -> Prop) :
  (forall R : heap -> heap -> Prop,
      (forall h, R h h) ->
      (forall h1 h2 h3, R h1 h2 -> R h2 h3 -> R h1 h3) ->
      (forall ctx name v h, R h (setVariable ctx name v h)) ->
      (forall ctx s h, R h (set_signal ctx s h)) ->
      (forall ctx h, R h (snd (createChildContext ctx h))) ->
      (forall h, R h (mkHeap (contexts h) (caches h ++ [∅]) (console h))) ->
      (forall cid key v h, R h (cache_set cid key v h)) ->
      (forall args h,
          R h (mkHeap (contexts h) (caches h) (console h ++ [args]))) ->
      P R) ->
  P frames_grow.
Proof.
  intros H. apply H.
  - apply frames_grow_refl.
  - apply frames_grow_trans.
  - apply frames_grow_setVariable.
  - apply frames_grow_set_signal.
  - apply frames_grow_new_context.
  - intros h0. apply frames_grow_same_contexts. reflexivity.
  - intros cid key v h0. apply frames_grow_same_contexts. reflexivity.
  - intros args h0. apply frames_grow_same_contexts. reflexivity.
Qed.

Lemma rooted_alter (g : ExecutionContext -> ExecutionContext) ctx h :
  (forall c, parent (g c) = parent c) ->
  rooted h ->
  rooted (mkHeap (alter g ctx (contexts h)) (caches h) (console h)).
Proof.
  intros Hg (Hlen & Hroot). split; cbn [contexts].
  - rewrite length_alter. exact Hlen.
  - intros i c. destruct (decide (ctx = i)) as [->|Hne].
    + rewrite list_lookup_alter_eq.
      destruct (contexts h !! i) as [c0|] eqn:Hc0; [|discriminate].
      intros [= <-]. rewrite Hg. apply Hroot, Hc0.
    + rewrite list_lookup_alter_ne by exact Hne. apply Hroot.
Qed.

Lemma rooted_new_context ctx h :
  rooted h -> rooted (snd (createChildContext ctx h)).
Proof.
  intros (Hlen & Hroot).
  destruct (createChildContext ctx h) as [c h1] eqn:Hc. cbn [snd].
  pose proof (new_ExecutionContext_index _ _ _ _ Hc) as (-> & Hlen1 & _).
  pose proof (new_ExecutionContext_parent _ _ _ _ Hc) as Hparent.
  pose proof (new_ExecutionContext_extends _ _ _ _ Hc) as (_ & _ & Hkept).
  split; [lia|]. intros i c Hi.
  destruct (decide (i < List.length (contexts h))) as [Hlt|Hge].
  - rewrite Hkept in Hi by exact Hlt. apply Hroot, Hi.
  - assert (i = List.length (contexts h)) as ->.
    { apply lookup_lt_Some in Hi. lia. }
    rewrite Hi in Hparent. cbn in Hparent. injection Hparent as Hp.
    rewrite Hp. split; [discriminate|lia].
Qed.

Lemma rooted_preserved (P : (heap -> heap -> Prop) -> Prop) :
  (forall R : heap -> heap -> Prop,
      (forall h, R h h) ->
      (forall h1 h2 h3, R h1 h2 -> R h2 h3 -> R h1 h3) ->
      (forall ctx name v h, R h (setVariable ctx name v h)) ->
      (forall ctx s h, R h (set_signal ctx s h)) ->
      (forall ctx h, R h (snd (createChildContext ctx h))) ->
      (forall h, R h (mkHeap (contexts h) (caches h ++ [∅]) (console h))) ->
      (forall cid key v h, R h (cache_set cid key v h)) ->
      (forall args h,
          R h (mkHeap (contexts h) (caches h) (console h ++ [args]))) ->
      P R) ->
  P (fun h h' => rooted h -> rooted h').
Proof.
  intros H. apply H; auto.
  - intros ctx name v h. apply rooted_alter. reflexivity.
  - intros ctx s h. apply rooted_alter. destruct s; reflexivity.
  - apply rooted_new_context.
Qed.

Lemma rooted_root :
  rooted (snd (new_ExecutionContext None empty_heap)).
Proof.
  destruct (new_ExecutionContext None empty_heap) as [c h1] eqn:Hc. cbn [snd].
  pose proof (new_ExecutionContext_index _ _ _ _ Hc) as (-> & Hlen1 & _).
  pose proof (new_ExecutionContext_parent _ _ _ _ Hc) as Hparent.
  cbn in Hlen1, Hparent. split; [lia|]. intros i c Hi.
  assert (i = 0) as -> by (apply lookup_lt_Some in Hi; lia).
  rewrite Hi in Hparent. cbn in Hparent. injection Hparent as ->. tauto.
Qed.

End Growth.

Module StoreLaws.
Import Types Syntax Runtime Exec Invariants StoreFacts ExecFacts.
Import HeapFacts HeapSafe Samples Further Growth.

#[local] Arguments createChildContext : simpl never.
#[local] Arguments setVariable : simpl never.

Ltac small_chain :=
  let i := fresh "i" in
  let Hi := fresh "Hi" in
  let Hp := fresh "Hp" in
  intros i ? ? Hi Hp;
  destruct i as [|[|[|i]]]; vm_compute in Hi; simplify_eq;
  vm_compute in Hp; simplify_eq; lia.

Ltac run_equation := vm_compute; reflexivity.

(** The laws X6 to X9 below are about the bindings of frames and about the
    node classes of [Syntax.node].  The three classes left out of it that
    work on arrays and objects ([IndexAssignmentNode], the [push] and [pop]
    of [MethodCallNode], [PropertyAccessNode]) call no [setVariable] either,
    but they write arrays in place, which a program of the classes embedded
    here never does; a [CustomASTNode] can do anything. *)

(** X6: a node of the embedded classes, executed in a context, rebinds no
    variable of another frame that existed: every [setVariable] goes to the
    current frame or to a frame made on the way.  So every name read from
    an older frame, an enclosing scope among them, is bound as before. *)
Theorem execute_writes_own_frame_only fuel n ctx h r h' frame :
  execute fuel n ctx h = (r, h') ->
  frame < List.length (contexts h) ->
  frame <> ctx ->
  contexts h' !! frame = contexts h !! frame
  /\ (chain_ok (contexts h) -> frame < ctx ->
      forall x, fst (getVariable frame x h') = fst (getVariable frame x h)).
Proof.
  intros Hexec Hframe Hne.
  apply execute_local in Hexec as (_ & _ & Hkept).
  split; [apply Hkept; assumption|].
  intros Hok Hlt x. unfold getVariable; cbn [fst].
  apply lookup_chain_agree; [exact Hok|].
  intros f Hf. apply Hkept; lia.
Qed.

Lemma execute_writes_own_frame_only_witness :
  let run := execute 6 loop_writes 1 x_in_root_child in
  contexts (snd run) !! 0 = contexts x_in_root_child !! 0
  /\ (chain_ok (contexts x_in_root_child) -> 0 < 1 ->
      forall x, fst (getVariable 0 x (snd run))
                = fst (getVariable 0 x x_in_root_child)).
Proof.
  intros run.
  apply (execute_writes_own_frame_only 6 loop_writes 1 x_in_root_child
           (fst run) (snd run) 0).
  - run_equation.
  - vm_compute. lia.
  - lia.
Defined.

(** X7: a call of any callable value whose body is made of the embedded node
    classes leaves the bindings of every frame that existed exactly as they
    were: the body of a function cannot assign to a variable of its caller
    or of the scope it was made in.  Every name an existing frame could
    read before the call is bound to the same value after it. *)
Theorem call_leaves_frames fuel f args h r h' frame :
  call_value (execute fuel) f args h = (r, h') ->
  frame < List.length (contexts h) ->
  contexts h' !! frame = contexts h !! frame
  /\ (chain_ok (contexts h) ->
      forall x, fst (getVariable frame x h') = fst (getVariable frame x h)).
Proof.
  intros Hcall Hframe.
  apply (call_value_extends _ (execute_local fuel)) in Hcall as (_ & _ & Hkept).
  split; [apply Hkept; assumption|].
  intros Hok x. unfold getVariable; cbn [fst].
  apply lookup_chain_agree; [exact Hok|].
  intros g Hg. apply Hkept; lia.
Qed.

Lemma call_leaves_frames_witness :
  let run := call_value (execute 6) overwrite_x [VNum 9] x_in_root in
  contexts (snd run) !! 0 = contexts x_in_root !! 0
  /\ (chain_ok (contexts x_in_root) ->
      forall x, fst (getVariable 0 x (snd run))
                = fst (getVariable 0 x x_in_root)).
Proof.
  intros run.
  apply (call_leaves_frames 6 overwrite_x [VNum 9] x_in_root
           (fst run) (snd run) 0).
  - run_equation.
  - vm_compute. lia.
Defined.

Lemma try_catch_extends exec tryBlock catchVar catchBlock ctx h r h' :
  local exec ->
  try_catch exec tryBlock catchVar catchBlock ctx h = (r, h') -> extends h h'.
Proof.
  intros exec_local.
  unfold try_catch. destruct (createChildContext ctx h) as [tc h1] eqn:Hc.
  apply createChildContext_fresh in Hc as [Hext ->].
  destruct (run_stmts exec tryBlock _ VUndefined h1) as [[cmp res] h2] eqn:Hrun.
  apply (run_stmts_kept _ exec_local) in Hrun.
  assert (Htry : extends h h2) by (eapply kept_fresh; eauto).
  clear Hext Hrun. intros H.
  destruct cmp as [[[message| | |]| |]|]; simplify_eq; try exact Htry.
  destruct (createChildContext ctx h2) as [cc h3] eqn:Hc.
  apply createChildContext_fresh in Hc as [Hext ->].
  destruct (run_stmts exec catchBlock _ VUndefined _) as [[cmp' res'] h4] eqn:Hrun.
  apply finish_inv in H as ->. apply (run_stmts_kept _ exec_local) in Hrun.
  eapply extends_trans; [exact Htry|].
  eapply kept_fresh; [exact Hext|reflexivity|].
  eapply kept_trans; [apply setVariable_kept|exact Hrun].
Qed.

(** X8: a TryCatch node over statements of the embedded node classes runs
    both of its blocks in contexts of their own: when it is done, whether it
    returned, caught an error or let a signal through, every frame that
    existed binds what it bound.  An assignment in the try block or in the
    catch block is lost, and the catch variable is bound nowhere the
    enclosing scope can see. *)
Theorem try_catch_leaves_frames fuel tryBlock catchVar catchBlock ctx h r h'
    frame :
  execute fuel (TryCatchNode tryBlock catchVar catchBlock) ctx h = (r, h') ->
  frame < List.length (contexts h) ->
  contexts h' !! frame = contexts h !! frame
  /\ (chain_ok (contexts h) ->
      forall x, fst (getVariable frame x h') = fst (getVariable frame x h)).
Proof.
  intros Hexec Hframe.
  assert (Hext : extends h h').
  { destruct fuel as [|fuel]; cbn [execute] in Hexec.
    - unfold fail in Hexec. simplify_eq. apply extends_refl.
    - eapply try_catch_extends; [apply (execute_local fuel)|exact Hexec]. }
  destruct Hext as (_ & _ & Hkept).
  split; [apply Hkept; assumption|].
  intros Hok x. unfold getVariable; cbn [fst].
  apply lookup_chain_agree; [exact Hok|].
  intros g Hg. apply Hkept; lia.
Qed.

Lemma try_catch_leaves_frames_witness :
  let run := execute 6 try_writes 0 x_in_root in
  contexts (snd run) !! 0 = contexts x_in_root !! 0
  /\ (chain_ok (contexts x_in_root) ->
      forall x, fst (getVariable 0 x (snd run))
                = fst (getVariable 0 x x_in_root)).
Proof.
  intros run.
  apply (try_catch_leaves_frames 6
           [AssignmentNode "x" (num 2); ErrorNode (str "no")] "e"
           [AssignmentNode "x" (num 3); print (var "e")] 0 x_in_root
           (fst run) (snd run) 0).
  - run_equation.
  - vm_compute. lia.
Defined.

Lemma for_each_loop_extends exec itemName body ctx items :
  local exec ->
  forall result h r h',
    for_each_loop exec itemName body ctx items result h = (r, h') ->
    extends h h'.
Proof.
  intros exec_local.
  induction items as [|item rest IH]; intros result h r h';
    cbn [for_each_loop].
  - intros [= <- <-]. apply extends_refl.
  - destruct (createChildContext ctx h) as [lc h1] eqn:Hc.
    apply createChildContext_fresh in Hc as [Hext ->].
    destruct (run_stmts exec body _ result _) as [[cmp res] h2] eqn:Hrun.
    apply (run_stmts_kept _ exec_local) in Hrun.
    assert (Hbody : extends h h2).
    { eapply kept_fresh; [exact Hext|reflexivity|].
      eapply kept_trans; [apply setVariable_kept|exact Hrun]. }
    clear Hext Hrun. intros H.
    repeat case_match; simplify_eq; try (apply IH in H);
      first [assumption | eapply extends_trans; eassumption].
Qed.

(** X9: the branches of an If and the body of a ForEach, made of statements
    of the embedded node classes, run in child contexts: once the
    condition, or the iterable, is evaluated, nothing the node does rebinds
    a variable of a context that exists.  An assignment in a branch or in
    the loop body never reaches the enclosing scope, and the item variable
    is bound nowhere the enclosing scope can see. *)
Theorem branch_bodies_leave_frames fuel ctx h h1 r h' frame :
  frame < List.length (contexts h1) ->
  (forall condition b thenBranch elseBranch,
      execute fuel condition ctx h = (Normal (VBool b), h1) ->
      execute (S fuel) (IfNode condition thenBranch elseBranch) ctx h
        = (r, h') ->
      contexts h' !! frame = contexts h1 !! frame)
  /\ (forall itemName iterable items body,
        execute fuel iterable ctx h = (Normal (VArray items), h1) ->
        execute (S fuel) (ForEachNode itemName iterable body) ctx h
          = (r, h') ->
        contexts h' !! frame = contexts h1 !! frame).
Proof.
  intros Hframe. split.
  - intros condition b thenBranch elseBranch Hcond Hexec.
    cbn [execute] in Hexec. unfold bind in Hexec. rewrite Hcond in Hexec.
    apply (run_scope_extends _ (execute_local fuel)) in Hexec
      as (_ & _ & Hkept).
    apply Hkept, Hframe.
  - intros itemName iterable items body Hiter Hexec.
    cbn [execute] in Hexec. unfold bind in Hexec. rewrite Hiter in Hexec.
    apply (for_each_loop_extends _ _ _ _ _ (execute_local fuel)) in Hexec
      as (_ & _ & Hkept).
    apply Hkept, Hframe.
Qed.

Lemma branch_bodies_leave_frames_witness :
  contexts (snd (execute 5 if_writes 0 x_in_root)) !! 0
  = contexts x_in_root !! 0
  /\ contexts (snd (execute 5 each_writes 0 x_in_root)) !! 0
     = contexts x_in_root !! 0.
Proof.
  assert (Hframe : 0 < List.length (contexts x_in_root)) by (vm_compute; lia).
  split.
  - destruct (branch_bodies_leave_frames 4 0 x_in_root x_in_root
                (fst (execute 5 if_writes 0 x_in_root))
                (snd (execute 5 if_writes 0 x_in_root)) 0 Hframe) as [Hif _].
    apply (Hif (LiteralNode (LBool true)) true [AssignmentNode "x" (num 2)]
               (Some [AssignmentNode "x" (num 3)]));
      vm_compute; reflexivity.
  - destruct (branch_bodies_leave_frames 4 0 x_in_root x_in_root
                (fst (execute 5 each_writes 0 x_in_root))
                (snd (execute 5 each_writes 0 x_in_root)) 0 Hframe)
      as [_ Heach].
    apply (Heach "item" (ArrayLiteralNode [num 1; num 2])
                 [VNum 1; VNum 2] [AssignmentNode "x" (var "item")]);
      vm_compute; reflexivity.
Defined.

(** What the two sample nodes leave of [x], which is 1 before. *)
Lemma branch_writes_are_lost :
  own_binding (snd (execute 5 if_writes 0 x_in_root)) 0 "x" = Some (VNum 1)
  /\ own_binding (snd (execute 5 each_writes 0 x_in_root)) 0 "x"
     = Some (VNum 1)
  /\ fst (execute 5 each_writes 0 x_in_root) = Normal (VNum 2).
Proof. conjuncts; vm_compute; reflexivity. Qed.

(** X10: every closure refers to a context that exists.  In a store where each
    frame comes after its parent and each value held in a frame or a cache
    captured an existing context, executing any node keeps the store that
    way, and the value it returns, or carries in a Return signal, captured
    existing contexts too: calling it later finds its defining scope. *)
Theorem closures_capture_existing_contexts fuel n ctx h r h' :
  wf_heap h ->
  ctx < List.length (contexts h) ->
  execute fuel n ctx h = (r, h') ->
  wf_heap h'
  /\ (forall v, r = Normal v \/ r = Throw (ReturnSignal v) ->
                closures_within (List.length (contexts h')) v = true).
Proof.
  intros Hwf Hctx Hexec.
  destruct (execute_safe fuel n ctx h r h' Hwf Hctx Hexec) as [Hwf' Hout].
  split; [exact Hwf'|].
  intros v [->| ->]; exact Hout.
Qed.

Lemma closures_capture_existing_contexts_witness :
  let n := VariableDeclarationNode VTfunction "f"
             (ArrowFunctionNode ["v"] (var "v")) in
  let run := execute 3 n 0 root_heap in
  wf_heap (snd run)
  /\ (forall v, fst run = Normal v \/ fst run = Throw (ReturnSignal v) ->
                closures_within (List.length (contexts (snd run))) v = true).
Proof.
  intros n run.
  apply (closures_capture_existing_contexts 3 n 0 root_heap (fst run)
           (snd run)).
  - apply Scopes.root_heap_wf.
  - vm_compute. lia.
  - vm_compute. reflexivity.
Defined.

(** X11: the store only grows under execution: a frame is never removed and
    never gets another parent, a name bound in a frame stays bound there
    (no node unbinds a variable), and a break or continue flag raised by a
    SignalNode is never lowered again. *)
Theorem frames_only_grow fuel n ctx h r h' frame :
  execute fuel n ctx h = (r, h') ->
  frame < List.length (contexts h) ->
  frame < List.length (contexts h')
  /\ (parent <$> contexts h' !! frame) = (parent <$> contexts h !! frame)
  /\ (forall x, is_Some (own_binding h frame x) ->
                is_Some (own_binding h' frame x))
  /\ (breakSignal_of frame h = true -> breakSignal_of frame h' = true)
  /\ (continueSignal_of frame h = true -> continueSignal_of frame h' = true).
Proof.
  intros Hexec Hframe.
  assert (Hgrow : frames_grow h h').
  { revert Hexec.
    apply (frames_grow_preserved
             (fun R => execute fuel n ctx h = (r, h') -> R h h')).
    intros R. intros. eapply (Preservation.execute_preserves R); eassumption. }
  destruct (lookup_lt_is_Some_2 _ _ Hframe) as [c Hc].
  destruct (Hgrow _ _ Hc) as (c' & Hc' & Hp & Hv & Hb & Hk).
  unfold own_binding, breakSignal_of, continueSignal_of.
  rewrite Hc, Hc'. cbn. conjuncts; auto.
  - eapply lookup_lt_Some, Hc'.
  - congruence.
Qed.

Lemma frames_only_grow_witness :
  let run := execute 6 loop_writes 0 x_in_root in
  0 < List.length (contexts (snd run))
  /\ (parent <$> contexts (snd run) !! 0) = (parent <$> contexts x_in_root !! 0)
  /\ (forall x, is_Some (own_binding x_in_root 0 x) ->
                is_Some (own_binding (snd run) 0 x))
  /\ (breakSignal_of 0 x_in_root = true -> breakSignal_of 0 (snd run) = true)
  /\ (continueSignal_of 0 x_in_root = true ->
      continueSignal_of 0 (snd run) = true).
Proof.
  intros run.
  apply (frames_only_grow 6 loop_writes 0 x_in_root (fst run) (snd run) 0).
  - run_equation.
  - vm_compute. lia.
Defined.

(** X12: what was printed stays printed, in order (execution only appends to
    the console), and a memoize cache never loses a key: an argument list
    answered from a cache stays answered from it. *)
Theorem output_only_grows fuel n ctx h r h' :
  execute fuel n ctx h = (r, h') ->
  console h `prefix_of` console h'
  /\ forall cid key, is_Some (cache_lookup cid key h) ->
                     is_Some (cache_lookup cid key h').
Proof.
  revert h r h'.
  apply (output_grows_preserved
           (fun R => forall h r h', execute fuel n ctx h = (r, h') -> R h h')).
  intros R. intros. eapply (Preservation.execute_preserves R); eassumption.
Qed.

Lemma output_only_grows_witness :
  let run := execute 6 loop_writes 0 x_in_root in
  console x_in_root `prefix_of` console (snd run)
  /\ forall cid key, is_Some (cache_lookup cid key x_in_root) ->
                     is_Some (cache_lookup cid key (snd run)).
Proof.
  intros run.
  apply (output_only_grows 6 loop_writes 0 x_in_root (fst run) (snd run)).
  run_equation.
Defined.

(** X13: a run of the interpreter returns the root context, which is frame 0
    and the only frame without a parent; every other frame of the final
    store has a parent that was constructed before it.  So the parent walk
    of a lookup, from any frame, reaches the root: it ends in a value or
    in "Undefined variable". *)
Theorem interpreter_store_shape fuel nodes r h :
  Interpreter_execute fuel nodes = (r, h) ->
  (forall context, r = Normal context -> context = 0)
  /\ (parent <$> contexts h !! 0) = Some None
  /\ (forall i c, contexts h !! i = Some c -> 0 < i ->
                  exists p, parent c = Some p /\ p < i)
  /\ (forall ctx name, ctx < List.length (contexts h) ->
        (exists v, fst (getVariable ctx name h) = Normal v)
        \/ fst (getVariable ctx name h)
           = Throw (JsError ("Undefined variable: " +:+ name))).
Proof.
  intros Hrun.
  pose proof (Scopes.interpreter_heap_wf _ _ _ _ Hrun) as (Hok & _).
  assert (Hroot : rooted h).
  { apply (rooted_preserved
             (fun R => R (snd (new_ExecutionContext None empty_heap)) h));
      [|apply rooted_root].
    intros R. intros.
    eapply (Preservation.interpreter_preserves R); eassumption. }
  destruct Hroot as (Hlen & Hroot). conjuncts.
  - intros context ->. unfold Interpreter_execute in Hrun.
    destruct (new_ExecutionContext None empty_heap) as [c0 h0] eqn:Hnew.
    apply new_ExecutionContext_index in Hnew as (-> & _).
    destruct (run_stmts _ _ _ _ _) as [[[f|] res] h1]; simplify_eq. reflexivity.
  - destruct (lookup_lt_is_Some_2 _ _ Hlen) as [c Hc]. rewrite Hc. cbn.
    do 2 f_equal. apply (Hroot 0 c Hc). reflexivity.
  - intros i c Hc Hi. destruct (parent c) as [p|] eqn:Hp.
    + exists p. split; [reflexivity|]. eapply Hok; eassumption.
    + apply (Hroot i c Hc) in Hp. lia.
  - intros ctx name Hctx. unfold getVariable; cbn [fst].
    apply ContextFacts.lookup_chain_ends; assumption.
Qed.

Lemma interpreter_store_shape_witness :
  let run := Interpreter_execute 8 three_statements in
  (forall context, fst run = Normal context -> context = 0)
  /\ (parent <$> contexts (snd run) !! 0) = Some None
  /\ (forall i c, contexts (snd run) !! i = Some c -> 0 < i ->
                  exists p, parent c = Some p /\ p < i)
  /\ (forall ctx name, ctx < List.length (contexts (snd run)) ->
        (exists v, fst (getVariable ctx name (snd run)) = Normal v)
        \/ fst (getVariable ctx name (snd run))
           = Throw (JsError ("Undefined variable: " +:+ name))).
Proof.
  intros run.
  apply (interpreter_store_shape 8 three_statements (fst run) (snd run)).
  run_equation.
Defined.

End StoreLaws.

(* ===================================================================== *)
(** * Further properties: closures, switch, operators, declarations *)
(* ===================================================================== *)

Module NodeLaws.
Import Types Syntax Runtime Exec Infer Invariants StoreFacts ExecFacts.
Import HeapFacts HeapSafe Samples Further ContextFacts.

#[local] Arguments createChildContext : simpl never.
#[local] Arguments setVariable : simpl never.
#[local] Arguments toFunction : simpl never.
#[local] Arguments getVariable : simpl never.
#[local] Arguments apply_operator : simpl never.

Ltac small_chain :=
  let i := fresh "i" in
  let Hi := fresh "Hi" in
  let Hp := fresh "Hp" in
  intros i ? ? Hi Hp;
  destruct i as [|[|[|i]]]; vm_compute in Hi; simplify_eq;
  vm_compute in Hp; simplify_eq; lia.

Ltac listed := apply (bool_decide_unpack _); vm_compute; exact I.

(** X14: closures are lexically scoped.  A call of an arrow function, with any
    number of arguments, and a call of a function literal's closure with
    the right number, run the body in a fresh child of the context the
    closure was made in, with the parameters bound by position ([undefined]
    where an argument is missing), no parameter being named [__proto__].
    There, every other name that is neither a built-in nor inherited from
    [Object.prototype] reads as it does in the defining context at the time
    of the call, whatever the caller's context is. *)
Theorem closures_lexically_scoped fuel names args outer h c h1 :
  createChildContext outer h = (c, h1) ->
  chain_ok (contexts h) ->
  outer < List.length (contexts h) ->
  "__proto__" ∉ names ->
  let h2 := bind_from 0 names args c h1 in
  (forall body,
      call_value (execute fuel) (VArrow names body outer) args h
      = execute fuel body c h2)
  /\ (forall body,
        List.length args = List.length names ->
        call_value (execute fuel) (VClosure names body outer None) args h
        = match run_stmts (execute fuel) body c VUndefined h2 with
          | (None, _, h3) => (Normal VUndefined, h3)
          | (Some (Thrown (ReturnSignal v)), _, h3) => (Normal v, h3)
          | (Some f, _, h3) => (Fail f, h3)
          end)
  /\ (forall i p, names !! i = Some p -> p ∉ drop (S i) names ->
                  fst (getVariable c p h2) = Normal (nth i args VUndefined))
  /\ (forall x, x ∉ names -> x ∉ builtin_names ->
                x ∉ Object_prototype_names ->
                fst (getVariable c x h2) = fst (getVariable outer x h)).
Proof.
  intros Hchild Hok Houter _ h2.
  pose proof (new_ExecutionContext_index _ _ _ _ Hchild) as (Hc & Hlen & _).
  conjuncts.
  - intros body. cbn [call_value]. unfold call_arrow. rewrite Hchild.
    reflexivity.
  - intros body Heq. cbn [call_value]. unfold call_fn. rewrite Hchild.
    apply Nat.eqb_eq in Heq. rewrite Heq. reflexivity.
  - intros i p Hi Hlast.
    rewrite (getVariable_own c p (nth i args VUndefined) h2); [reflexivity|].
    subst h2. rewrite (bind_from_own names 0 args c h1 i p);
      [reflexivity|lia|exact Hi|exact Hlast].
  - intros x Hx Hb _. rewrite <- (child_lookup outer x h c h1) by assumption.
    unfold getVariable; cbn [fst]. subst h2.
    apply bind_from_lookup_other, Hx.
Qed.

Lemma closures_lexically_scoped_witness :
  let h1 := snd (createChildContext 0 x_in_root) in
  let h2 := bind_from 0 ["v"; "w"] [VNum 9; VNum 8] 1 h1 in
  (forall body,
      call_value (execute 4) (VArrow ["v"; "w"] body 0) [VNum 9; VNum 8]
                 x_in_root
      = execute 4 body 1 h2)
  /\ (forall body,
        call_value (execute 4) (VClosure ["v"; "w"] body 0 None)
                   [VNum 9; VNum 8] x_in_root
        = match run_stmts (execute 4) body 1 VUndefined h2 with
          | (None, _, h3) => (Normal VUndefined, h3)
          | (Some (Thrown (ReturnSignal v)), _, h3) => (Normal v, h3)
          | (Some f, _, h3) => (Fail f, h3)
          end)
  /\ (forall i p, ["v"; "w"] !! i = Some p -> p ∉ drop (S i) ["v"; "w"] ->
                  fst (getVariable 1 p h2)
                  = Normal (nth i [VNum 9; VNum 8] VUndefined))
  /\ (forall x, x ∉ ["v"; "w"] -> x ∉ builtin_names ->
                x ∉ Object_prototype_names ->
                fst (getVariable 1 x h2) = fst (getVariable 0 x x_in_root)).
Proof.
  intros h1 h2.
  assert (Hchild : createChildContext 0 x_in_root = (1, h1))
    by (vm_compute; reflexivity).
  assert (Hok : chain_ok (contexts x_in_root)) by small_chain.
  assert (Houter : 0 < List.length (contexts x_in_root)) by (vm_compute; lia).
  assert (Hnames : "__proto__" ∉ ["v"; "w"]).
  { intros Hin.
    repeat (apply elem_of_cons in Hin as [Hin|Hin]; [discriminate|]).
    apply elem_of_nil in Hin as []. }
  destruct (closures_lexically_scoped 4 ["v"; "w"] [VNum 9; VNum 8] 0
              x_in_root 1 h1 Hchild Hok Houter Hnames)
    as (Harrow & Hliteral & Hparams & Hothers).
  split_and!; [exact Harrow| |exact Hparams|exact Hothers].
  intros body. apply Hliteral. reflexivity.
Defined.

Lemma switch_cases_misses exec v pre : forall rest defaultCase ctx h h1,
  misses exec v pre ctx h = Some h1 ->
  switch_cases exec v (pre ++ rest) defaultCase ctx h
  = switch_cases exec v rest defaultCase ctx h1.
Proof.
  induction pre as [|[m body] pre IH]; intros rest defaultCase ctx h h1;
    cbn [misses app switch_cases].
  - intros [= ->]. reflexivity.
  - unfold bind. destruct (exec m ctx h) as [[mv|f] h0]; [|discriminate].
    destruct (strict_eq v mv) as [[|]|]; try discriminate. apply IH.
Qed.

(** X15: a switch runs the body of the first case whose match value is strictly
    equal to the switch value, in a child context, and nothing after it:
    the later match expressions are not evaluated, there is no fall-through
    into the next body, and the default body does not run.  When every
    case misses, the default body runs if there is one, and the switch
    returns [undefined] otherwise. *)
Theorem switch_runs_first_match fuel expression cases defaultCase ctx h v h0 :
  execute fuel expression ctx h = (Normal v, h0) ->
  (forall pre m body post h1 mv h2,
      cases = pre ++ (m, body) :: post ->
      misses (execute fuel) v pre ctx h0 = Some h1 ->
      execute fuel m ctx h1 = (Normal mv, h2) ->
      strict_eq v mv = Some true ->
      execute (S fuel) (SwitchNode expression cases defaultCase) ctx h
      = run_scope (execute fuel) body ctx h2)
  /\ (forall h1,
        misses (execute fuel) v cases ctx h0 = Some h1 ->
        execute (S fuel) (SwitchNode expression cases defaultCase) ctx h
        = match defaultCase with
          | Some stmts => run_scope (execute fuel) stmts ctx h1
          | None => (Normal VUndefined, h1)
          end).
Proof.
  intros Hexpr. split.
  - intros pre m body post h1 mv h2 -> Hpre Hm Heq.
    cbn [execute]. unfold bind at 1. rewrite Hexpr.
    rewrite (switch_cases_misses _ _ _ _ _ _ _ _ Hpre).
    cbn [switch_cases]. unfold bind. rewrite Hm, Heq. reflexivity.
  - intros h1 Hall. cbn [execute]. unfold bind at 1. rewrite Hexpr.
    rewrite <- (app_nil_r cases).
    rewrite (switch_cases_misses _ _ _ _ _ _ _ _ Hall).
    cbn [switch_cases]. destruct defaultCase; reflexivity.
Qed.

Lemma switch_runs_first_match_witness :
  let defaultCase := Some [print (str "none")] in
  (forall pre m body post h1 mv h2,
      switch_two = pre ++ (m, body) :: post ->
      misses (execute 4) (VNum 2) pre 0 root_heap = Some h1 ->
      execute 4 m 0 h1 = (Normal mv, h2) ->
      strict_eq (VNum 2) mv = Some true ->
      execute 5 (SwitchNode (num 2) switch_two defaultCase) 0 root_heap
      = run_scope (execute 4) body 0 h2)
  /\ (forall h1,
        misses (execute 4) (VNum 2) switch_two 0 root_heap = Some h1 ->
        execute 5 (SwitchNode (num 2) switch_two defaultCase) 0 root_heap
        = match defaultCase with
          | Some stmts => run_scope (execute 4) stmts 0 h1
          | None => (Normal VUndefined, h1)
          end).
Proof.
  intros defaultCase.
  apply (switch_runs_first_match 4 (num 2) switch_two defaultCase 0 root_heap
           (VNum 2) root_heap).
  vm_compute. reflexivity.
Defined.

(** What that switch does: it prints "two" and nothing else. *)
Lemma switch_two_prints_once :
  let run := execute 5 (SwitchNode (num 2) switch_two
                          (Some [print (str "none")])) 0 root_heap in
  fst run = Normal VUndefined /\ console (snd run) = [[VStr "two"]].
Proof. intros run. conjuncts; vm_compute; reflexivity. Qed.

Lemma operator_type_known operator lt rt t :
  operator_type operator lt rt = Inferred t -> operator ∈ inferType_operators.
Proof.
  unfold operator_type. intros H.
  repeat match type of H with
         | context [bool_decide (operator ∈ ?l)] =>
             destruct (bool_decide_reflect (operator ∈ l)) as [Hin|_];
             [clear H;
              repeat (apply elem_of_cons in Hin as [->|Hin]; [listed|]);
              apply elem_of_nil in Hin as []|]
         | context [decide (operator = ?s)] =>
             destruct (decide (operator = s)) as [->|_]; [listed|]
         end.
  discriminate.
Qed.

Lemma apply_operator_known operator l r v :
  apply_operator operator l r = Normal v -> operator ∈ execute_operators.
Proof.
  unfold apply_operator. intros H.
  repeat match type of H with
         | context [decide (operator = ?s)] =>
             destruct (decide (operator = s)) as [->|_]; [listed|]
         end.
  discriminate.
Qed.

Lemma apply_operator_unknown operator l r :
  operator ∈ inferType_operators ->
  apply_operator operator l r
  = Throw (JsError ("Unknown operator: " +:+ operator)).
Proof.
  intros Hin. unfold inferType_operators in Hin.
  repeat (apply elem_of_cons in Hin as [->|Hin]; [reflexivity|]).
  apply elem_of_nil in Hin as [].
Qed.

(** X16: the two passes share no operator name.  Every name the inference pass
    knows ("o_plus", ...) is an unknown operator to execution, and every
    name execution knows ("+", ...) is an unknown operator to inference:
    no OperatorNode is both given a type and evaluated to a value. *)
Theorem operator_names_disjoint operator :
  (operator ∈ execute_operators ->
   forall lt rt,
     operator_type operator lt rt
     = Rejected ("Unknown operator in type inference: " +:+ operator))
  /\ (operator ∈ inferType_operators ->
      forall l r,
        apply_operator operator l r
        = Throw (JsError ("Unknown operator: " +:+ operator)))
  /\ (forall lt rt t,
        operator_type operator lt rt = Inferred t ->
        operator ∈ inferType_operators)
  /\ (forall l r v,
        apply_operator operator l r = Normal v ->
        operator ∈ execute_operators)
  /\ (forall fuel lhs rhs env t env' ctx h v h',
        inferType (OperatorNode operator lhs rhs) env = (Inferred t, env') ->
        execute fuel (OperatorNode operator lhs rhs) ctx h <> (Normal v, h')).
Proof.
  conjuncts.
  - intros Hin lt rt. unfold execute_operators in Hin.
    repeat (apply elem_of_cons in Hin as [->|Hin]; [reflexivity|]).
    apply elem_of_nil in Hin as [].
  - intros Hin l r. apply apply_operator_unknown, Hin.
  - apply operator_type_known.
  - apply apply_operator_known.
  - intros fuel lhs rhs env t env' ctx h v h' Hinfer Hexec.
    cbn [inferType] in Hinfer.
    destruct (inferType lhs env) as [[leftType|m] env1]; [|discriminate].
    destruct (inferType rhs env1) as [[rightType|m] env2]; [|discriminate].
    assert (Hop : operator_type operator leftType rightType = Inferred t)
      by congruence.
    apply operator_type_known in Hop.
    destruct fuel as [|fuel]; cbn [execute] in Hexec; [discriminate|].
    apply bind_inv in Hexec as [(lv & h1 & _ & Hexec)|(f & _ & ?)];
      [|discriminate].
    apply bind_inv in Hexec as [(rv & h2 & _ & Hexec)|(f & _ & ?)];
      [|discriminate].
    rewrite (apply_operator_unknown operator lv rv Hop) in Hexec.
    discriminate.
Qed.

Lemma typeChecks_kind k checkFn expected :
  prop_lookup (varTypes_name k) typeChecks = Some (checkFn, expected) ->
  forall v, checkFn v = kind_accepts k v.
Proof.
  destruct k; vm_compute; intros H; try discriminate;
    injection H as <- <-; intros v; reflexivity.
Qed.

(** X17: a declaration that succeeds, of a name other than [__proto__], has
    bound its name, in the current frame, to a value that passed the check
    of its kind; the name then reads back as that value.  No declaration of
    kind "symbol", "void" or "any" ever succeeds. *)
Theorem declaration_binds_checked_value fuel varType name expression ctx h
    v h' :
  execute fuel (VariableDeclarationNode varType name expression) ctx h
    = (Normal v, h') ->
  ctx < List.length (contexts h) ->
  name <> "__proto__" ->
  kind_accepts varType v = true
  /\ own_binding h' ctx name = Some v
  /\ getVariable ctx name h' = (Normal v, h')
  /\ varType ∉ [VTsymbol; VTvoid; VTany].
Proof.
  intros Hexec Hctx _.
  assert (Hmain : kind_accepts varType v = true
                  /\ own_binding h' ctx name = Some v).
  { destruct fuel as [|fuel]; cbn [execute] in Hexec; [discriminate|].
    destruct (decide (varType = VTfunction)) as [->|Hkind].
    - destruct expression; try discriminate.
      + destruct (toFunction _ _ _ _ _) as [val h1] eqn:Ht.
        injection Hexec as <- <-.
        assert (List.length (contexts h1) = List.length (contexts h)
                /\ kind_accepts VTfunction val = true) as [Hlen Hval].
        { unfold toFunction in Ht. destruct pure; injection Ht as <- <-;
            split; reflexivity. }
        split; [exact Hval|].
        rewrite own_binding_setVariable, decide_True; [reflexivity|].
        repeat split; lia.
      + injection Hexec as <- <-. split; [reflexivity|].
        rewrite own_binding_setVariable, decide_True; auto.
    - apply bind_inv in Hexec as [(val & h1 & E & Hexec)|(f & _ & ?)];
        [|discriminate].
      apply execute_local in E as (Hlen & _).
      destruct (prop_lookup _ typeChecks) as [[checkFn expected]|] eqn:Hlk;
        [|discriminate].
      destruct (checkFn val) eqn:Hcheck; cbn [negb] in Hexec; [|discriminate].
      injection Hexec as <- <-.
      rewrite (typeChecks_kind _ _ _ Hlk) in Hcheck. split; [exact Hcheck|].
      rewrite own_binding_setVariable, decide_True; [reflexivity|].
      repeat split; lia. }
  destruct Hmain as [Hkind Hown]. conjuncts; try assumption.
  - apply getVariable_own, Hown.
  - intros Hin.
    repeat (apply elem_of_cons in Hin as [->|Hin]; [discriminate|]).
    apply elem_of_nil in Hin as [].
Qed.

Lemma declaration_binds_checked_value_witness :
  let run := execute 3 number_gets_number 0 root_heap in
  kind_accepts VTnumber (VNum 1) = true
  /\ own_binding (snd run) 0 "x" = Some (VNum 1)
  /\ getVariable 0 "x" (snd run) = (Normal (VNum 1), snd run)
  /\ VTnumber ∉ [VTsymbol; VTvoid; VTany].
Proof.
  intros run.
  apply (declaration_binds_checked_value 3 VTnumber "x" (num 1) 0 root_heap
           (VNum 1) (snd run)).
  - vm_compute. reflexivity.
  - vm_compute. lia.
  - discriminate.
Defined.

Lemma infer_stmts_rejected infer pre s post :
  (forall env, exists m, fst (infer s env) = Rejected m) ->
  forall last env,
    exists m, fst (infer_stmts infer (pre ++ s :: post) last env) = Rejected m.
Proof.
  intros Hs. induction pre as [|p pre IH]; intros last env;
    cbn [app infer_stmts].
  - destruct (Hs env) as [m Hm].
    destruct (infer s env) as [[t|m'] env']; [discriminate|]. eauto.
  - destruct (infer p env) as [[t|m'] env']; [apply IH|eauto].
Qed.

(** X18: the inference pass accepts no variable declaration, of any kind, with
    any initializer, in any environment: the table it looks the kind up in
    holds none of the kinds.  So it accepts no block, function body or
    program with a declaration among its statements. *)
Theorem inference_rejects_declarations varType name expression env :
  (exists m,
      fst (inferType (VariableDeclarationNode varType name expression) env)
      = Rejected m)
  /\ (forall pre post,
        exists m,
          fst (inferType
                 (BlockNode
                    (pre ++ VariableDeclarationNode varType name expression
                         :: post)) env)
          = Rejected m)
  /\ (forall pre post fname params dpt drt pure,
        exists m,
          fst (inferType
                 (FunctionLiteralNode fname params
                    (pre ++ VariableDeclarationNode varType name expression
                         :: post) dpt drt pure) env)
          = Rejected m).
Proof.
  assert (Hdecl : forall env0, exists m,
             fst (inferType (VariableDeclarationNode varType name expression)
                            env0) = Rejected m).
  { intros env0. cbn [inferType].
    destruct (inferType expression env0) as [[t|m] env1]; [|eauto].
    rewrite Declarations.typeMap_has_no_kind. eauto. }
  conjuncts.
  - apply Hdecl.
  - intros pre post. cbn [inferType]. unfold infer_scope.
    destruct (infer_stmts_rejected inferType pre _ post Hdecl (TPrim Tvoid)
                (∅ :: env)) as [m Hm].
    destruct (infer_stmts _ _ _ _) as [r env']. cbn in *. eauto.
  - intros pre post fname params dpt drt pure. cbn [inferType].
    unfold infer_scope.
    destruct (infer_stmts_rejected inferType pre _ post Hdecl (TPrim Tvoid)
                (declared_bindings 0 params (default [] dpt) ∅ :: env))
      as [m Hm].
    destruct (infer_stmts _ _ _ _) as [[t|m'] env']; cbn in *;
      [discriminate|eauto].
Qed.

End NodeLaws.

(* ===================================================================== *)
(** * Further properties: the keys of the memoize cache *)
(* ===================================================================== *)

Module MemoLaws.
Import Types Syntax Runtime Exec Invariants StoreFacts ExecFacts.
Import HeapFacts Samples Further.

#[local] Arguments createChildContext : simpl never.
#[local] Arguments setVariable : simpl never.





Lemma json_of_failed v : json_failed (json_of v) = has_bigint v.
Proof.
  induction v as [v Hna Hno|elems IH|props IH] using value_nested_ind.
  - destruct v; try reflexivity.
    + exfalso. eapply Hna. reflexivity.
    + exfalso. eapply Hno. reflexivity.
  - cbn [json_of has_bigint]. unfold json_array.
    assert (Hex : existsb json_failed (map json_of elems)
                  = existsb has_bigint elems).
    { induction IH as [|e elems He _ IHe]; [reflexivity|].
      cbn [map existsb]. rewrite He, IHe. reflexivity. }
    rewrite Hex. destruct (existsb has_bigint elems); reflexivity.
  - cbn [json_of has_bigint]. unfold json_object.
    assert (Hex : existsb (fun kv : string * json_out => json_failed (snd kv))
                    (map (fun kv : string * value => (fst kv, json_of (snd kv)))
                         props)
                  = existsb (fun kv : string * value => has_bigint (snd kv))
                            props).
    { induction IH as [|e elems He _ IHe]; [reflexivity|].
      cbn [map existsb fst snd]. rewrite He, IHe. reflexivity. }
    rewrite Hex. destruct (existsb _ props); reflexivity.
Qed.

Lemma JSON_stringify_bigint args :
  JSON_stringify args = None <-> existsb has_bigint args = true.
Proof.
  unfold JSON_stringify, json_array.
  assert (Hex : existsb json_failed (map json_of args)
                = existsb has_bigint args).
  { induction args as [|a args IH]; [reflexivity|].
    cbn [map existsb]. rewrite json_of_failed, IH. reflexivity. }
  rewrite Hex. destruct (existsb has_bigint args); split; congruence.
Qed.

(** X20: a pure function cannot take a [bigint]: when an argument is one, or
    holds one at any depth of arrays and objects (none of which has a
    [toJSON] property, which would be serialized in its place), the call
    raises the serialization error of [JSON.stringify] before the body
    runs, and the store is untouched: nothing is cached. *)
Theorem pure_call_rejects_bigint fuel params body outer cid args h :
  existsb has_bigint args = true ->
  existsb has_toJSON args = false ->
  call_value (execute fuel) (VClosure params body outer (Some cid)) args h
  = (Throw (JsError "Do not know how to serialize a BigInt"), h).
Proof.
  intros Hbig _. apply JSON_stringify_bigint in Hbig.
  cbn [call_value]. unfold memoize. rewrite Hbig. reflexivity.
Qed.

Lemma pure_call_rejects_bigint_witness :
  call_value (execute 6) (VClosure ["a"] describing_body 0 (Some 0))
             [VArray [VNum 1; VObject [("n", VBigInt 2)]]]
             (snd describing_pure)
  = (Throw (JsError "Do not know how to serialize a BigInt"),
     snd describing_pure).
Proof.
  apply (pure_call_rejects_bigint 6 ["a"] describing_body 0 0
           [VArray [VNum 1; VObject [("n", VBigInt 2)]]]
           (snd describing_pure)); vm_compute; reflexivity.
Defined.

End MemoLaws.

(* ===================================================================== *)
(** * Further properties: the inference pass and its environment *)
(* ===================================================================== *)

Module InferLaws.
Import Types Syntax Runtime Infer StoreFacts Samples Further.

Ltac each_by IH :=
  match goal with
  | |- Forall _ ?l => induction l; constructor; [apply IH|assumption]
  end.

Lemma node_nested_ind (P : node -> Prop) :
  (forall k name e, P e -> P (VariableDeclarationNode k name e)) ->
  (forall name e, P e -> P (AssignmentNode name e)) ->
  (forall e, P e -> P (ReturnNode e)) ->
  P BreakNode ->
  P ContinueNode ->
  (forall m, P m -> P (ErrorNode m)) ->
  (forall name params body dpt drt pure,
      Forall P body -> P (FunctionLiteralNode name params body dpt drt pure)) ->
  (forall names body, P body -> P (ArrowFunctionNode names body)) ->
  (forall f args, Forall P args -> P (FunctionCallNode f args)) ->
  (forall l, P (LiteralNode l)) ->
  (forall x, P (VariableReferenceNode x)) ->
  (forall op l r, P l -> P r -> P (OperatorNode op l r)) ->
  (forall x, P (ParameterNode x)) ->
  (forall els, Forall P els -> P (ArrayLiteralNode els)) ->
  (forall props, Forall (fun kv => P (snd kv)) props ->
                 P (ObjectLiteralNode props)) ->
  (forall stmts, Forall P stmts -> P (BlockNode stmts)) ->
  (forall c t e, P c -> Forall P t ->
                 from_option (Forall P) True e ->
                 P (IfNode c t e)) ->
  (forall s, P (SignalNode s)) ->
  (forall c body, P c -> Forall P body -> P (WhileNode c body)) ->
  (forall i c u body, P i -> P c -> P u -> Forall P body ->
                      P (ForNode i c u body)) ->
  (forall e cases d,
      P e -> Forall (fun c => P (fst c) /\ Forall P (snd c)) cases ->
      from_option (Forall P) True d ->
      P (SwitchNode e cases d)) ->
  (forall body c, Forall P body -> P c -> P (DoWhileNode body c)) ->
  (forall x it body, P it -> Forall P body -> P (ForEachNode x it body)) ->
  (forall t v c, Forall P t -> Forall P c -> P (TryCatchNode t v c)) ->
  forall n, P n.
Proof.
  intros Hdecl Hassign Hret Hbreak Hcont Herr Hfun Harrow Hcall Hlit Hvar Hop
    Hparam Harr Hobj Hblock Hif Hsig Hwhile Hfor Hswitch Hdo Heach Htry.
  fix IH 1. intros n. destruct n.
  - apply Hdecl, IH.
  - apply Hassign, IH.
  - apply Hret, IH.
  - apply Hbreak.
  - apply Hcont.
  - apply Herr, IH.
  - apply Hfun. each_by IH.
  - apply Harrow, IH.
  - apply Hcall. each_by IH.
  - apply Hlit.
  - apply Hvar.
  - apply Hop; apply IH.
  - apply Hparam.
  - apply Harr. each_by IH.
  - apply Hobj. induction properties as [|[k e] props IHp]; constructor;
      [apply IH|exact IHp].
  - apply Hblock. each_by IH.
  - apply Hif; [apply IH|each_by IH|].
    destruct elseBranch as [stmts|]; [cbn; each_by IH|exact I].
  - apply Hsig.
  - apply Hwhile; [apply IH|each_by IH].
  - apply Hfor; [apply IH..|each_by IH].
  - apply Hswitch; [apply IH| |].
    + induction cases as [|[m body] cases IHc]; constructor; [|exact IHc].
      split; [apply IH|cbn; each_by IH].
    + destruct defaultCase as [stmts|]; [cbn; each_by IH|exact I].
  - apply Hdo; [each_by IH|apply IH].
  - apply Heach; [apply IH|each_by IH].
  - apply Htry; each_by IH.
Qed.

Lemma same_enclosing_refl env : same_enclosing env env.
Proof. split; reflexivity. Qed.

Lemma same_enclosing_trans e1 e2 e3 :
  same_enclosing e1 e2 -> same_enclosing e2 e3 -> same_enclosing e1 e3.
Proof. intros [T1 L1] [T2 L2]. split; congruence. Qed.

Lemma same_enclosing_setType name t env : same_enclosing env (setType name t env).
Proof. destruct env; split; reflexivity. Qed.

Lemma same_enclosing_fold names env :
  same_enclosing env
    (fold_left (fun e p => setType p (TPrim Tany) e) names env).
Proof.
  revert env. induction names as [|p names IH]; intros env; cbn [fold_left].
  - apply same_enclosing_refl.
  - eapply same_enclosing_trans; [apply same_enclosing_setType|apply IH].
Qed.

Ltac stacked :=
  first [ eassumption
        | apply same_enclosing_refl
        | apply same_enclosing_setType
        | eapply same_enclosing_trans; [eassumption|stacked] ].

Lemma infer_stmts_stack stmts :
  Forall (fun n => stack_kept n) stmts ->
  forall last env r env',
    infer_stmts inferType stmts last env = (r, env') -> same_enclosing env env'.
Proof.
  induction 1 as [|stmt rest Hstmt _ IH]; intros last env r env';
    cbn [infer_stmts].
  - intros [= <- <-]. apply same_enclosing_refl.
  - destruct (inferType stmt env) as [[t|m] env1] eqn:E; apply Hstmt in E.
    + intros H. apply IH in H. stacked.
    + intros [= <- <-]. exact E.
Qed.

(** A scope leaves the environment exactly as it found it. *)
Lemma infer_scope_same stmts bindings env r env' :
  Forall (fun n => stack_kept n) stmts ->
  infer_scope inferType stmts bindings env = (r, env') -> env' = env.
Proof.
  intros Hstmts. unfold infer_scope.
  destruct (infer_stmts inferType stmts (TPrim Tvoid) (bindings :: env))
    as [r1 env1] eqn:E.
  apply (infer_stmts_stack _ Hstmts) in E as [Htail _].
  intros [= <- <-]. exact Htail.
Qed.

Lemma infer_call_args_stack paramTypes args :
  Forall (fun n => stack_kept n) args ->
  forall i env r env',
    infer_call_args inferType paramTypes args i env = (r, env') ->
    same_enclosing env env'.
Proof.
  induction 1 as [|arg rest Harg _ IH]; intros i env r env';
    cbn [infer_call_args].
  - intros [= <- <-]. apply same_enclosing_refl.
  - destruct (inferType arg env) as [[t|m] env1] eqn:E; apply Harg in E.
    + destruct (paramTypes !! i) as [pt|]; [|intros [= <- <-]; exact E].
      destruct (negb _); [intros [= <- <-]; exact E|].
      intros H. apply IH in H. stacked.
    + intros [= <- <-]. exact E.
Qed.

Lemma infer_elements_stack elements :
  Forall (fun n => stack_kept n) elements ->
  forall elementType env r env',
    infer_elements inferType elements elementType env = (r, env') ->
    same_enclosing env env'.
Proof.
  induction 1 as [|el rest Hel _ IH]; intros elementType env r env';
    cbn [infer_elements].
  - intros [= <- <-]. apply same_enclosing_refl.
  - destruct (inferType el env) as [[t|m] env1] eqn:E; apply Hel in E.
    + destruct (negb _); [intros [= <- <-]; exact E|].
      intros H. apply IH in H. stacked.
    + intros [= <- <-]. exact E.
Qed.

Lemma infer_props_stack properties :
  Forall (fun kv : string * node => stack_kept (snd kv)) properties ->
  forall env r env',
    infer_props inferType properties env = (r, env') -> same_enclosing env env'.
Proof.
  induction 1 as [|kv rest Hkv _ IH]; intros env r env'; cbn [infer_props].
  - intros [= <- <-]. apply same_enclosing_refl.
  - destruct (inferType (snd kv) env) as [[t|m] env1] eqn:E; apply Hkv in E.
    + destruct (infer_props inferType rest env1) as [[ts|m] env2] eqn:E2;
        apply IH in E2; intros [= <- <-]; stacked.
    + intros [= <- <-]. exact E.
Qed.

Lemma infer_cases_stack exprType cases :
  Forall (fun c : node * list node =>
            stack_kept (fst c) /\ Forall (fun n => stack_kept n) (snd c))
         cases ->
  forall env r env',
    infer_cases inferType exprType cases env = (r, env') ->
    same_enclosing env env'.
Proof.
  induction 1 as [|c rest [Hm Hbody] _ IH]; intros env r env';
    cbn [infer_cases].
  - intros [= <- <-]. apply same_enclosing_refl.
  - destruct (inferType (fst c) env) as [[t|m] env1] eqn:E; apply Hm in E.
    + destruct (negb _); [intros [= <- <-]; exact E|].
      destruct (infer_scope inferType (snd c) ∅ env1) as [[t2|m] env2] eqn:E2;
        apply (infer_scope_same _ _ _ _ _ Hbody) in E2; subst env2.
      * intros H. apply IH in H. stacked.
      * intros [= <- <-]. exact E.
    + intros [= <- <-]. exact E.
Qed.

Ltac infer_step :=
  match goal with
  | H : context [inferType ?x ?e] |- _ =>
      let E := fresh "E" in
      destruct (inferType x e) as [[?|?] ?] eqn:E;
      match goal with
      | IH : stack_kept x |- _ => apply IH in E
      end
  | H : context [infer_scope inferType ?s ?b ?e] |- _ =>
      let E := fresh "E" in
      destruct (infer_scope inferType s b e) as [[?|?] ?] eqn:E;
      (apply infer_scope_same in E; [subst|assumption])
  | H : context [prop_lookup ?k ?l] |- _ => destruct (prop_lookup k l)
  | H : context [if ?b then _ else _] |- _ => destruct b
  | H : context [match ?x with _ => _ end] |- _ => is_var x; destruct x
  end.

(** Inference changes the frame of the current scope at most. *)
Lemma inferType_stack n : stack_kept n.
Proof.
  induction n using node_nested_ind; intros env r env' Hinf;
    cbn [inferType] in Hinf.
  - (* VariableDeclarationNode *)
    repeat infer_step; simplify_eq; stacked.
  - (* AssignmentNode *)
    destruct (getType env name); repeat infer_step; simplify_eq; stacked.
  - apply IHn in Hinf. exact Hinf.
  - simplify_eq. stacked.
  - simplify_eq. stacked.
  - simplify_eq. stacked.
  - (* FunctionLiteralNode *)
    repeat infer_step; cbn in *; repeat infer_step; simplify_eq;
      try stacked; destruct (truthy_name name); stacked.
  - (* ArrowFunctionNode *)
    destruct (inferType n _) as [[t|m] env1] eqn:E; apply IHn in E;
      destruct E as [Htail _];
      destruct (same_enclosing_fold names (createChild env)) as [Hfold _];
      simplify_eq; rewrite Htail, Hfold; apply same_enclosing_refl.
  - (* FunctionCallNode *)
    destruct (getType env f) as [[| | |]|]; try (simplify_eq; stacked).
    destruct (negb _); [simplify_eq; stacked|].
    destruct (infer_call_args _ _ _ _ _) as [[u|m] env1] eqn:E;
      apply infer_call_args_stack in E; try assumption; simplify_eq; stacked.
  - simplify_eq. stacked.
  - simplify_eq. stacked.
  - (* OperatorNode *)
    repeat infer_step; simplify_eq; stacked.
  - simplify_eq. stacked.
  - (* ArrayLiteralNode *)
    destruct els as [|first rest]; [simplify_eq; stacked|].
    match goal with HF : Forall _ (_ :: _) |- _ =>
      apply Forall_cons in HF as [Hfirst Hrest] end.
    destruct (inferType first env) as [[t|m] env1] eqn:E; apply Hfirst in E;
      [|simplify_eq; stacked].
    destruct (infer_elements _ _ _ _) as [[u|m] env2] eqn:E2;
      apply infer_elements_stack in E2; try assumption; simplify_eq; stacked.
  - (* ObjectLiteralNode *)
    destruct (infer_props _ _ _) as [[u|m] env1] eqn:E;
      apply infer_props_stack in E; try assumption; simplify_eq; stacked.
  - (* BlockNode *)
    apply infer_scope_same in Hinf; [subst; stacked|assumption].
  - (* IfNode *)
    destruct e as [stmts|]; cbn in *; repeat infer_step; simplify_eq; stacked.
  - simplify_eq. stacked.
  - (* WhileNode *)
    repeat infer_step; simplify_eq; stacked.
  - (* ForNode *)
    repeat infer_step; simplify_eq; stacked.
  - (* SwitchNode *)
    destruct (inferType n env) as [[t|m] env1] eqn:E; apply IHn in E;
      [|simplify_eq; stacked].
    destruct (infer_cases _ _ _ _) as [[u|m] env2] eqn:E2;
      apply infer_cases_stack in E2; try assumption; [|simplify_eq; stacked].
    destruct d as [stmts|]; cbn in *; repeat infer_step; simplify_eq; stacked.
  - (* DoWhileNode *)
    repeat infer_step; simplify_eq; stacked.
  - (* ForEachNode *)
    destruct (inferType n env) as [[t|m] env1] eqn:E; apply IHn in E;
      [|simplify_eq; stacked].
    destruct t; repeat infer_step; simplify_eq; stacked.
  - (* TryCatchNode *)
    repeat infer_step; simplify_eq; stacked.
Qed.

(** X21: the inference pass keeps the stack of scopes: whatever node it runs
    on, accepted or rejected, the frames of the enclosing scopes come back
    unchanged and only the frame of the current scope may have new
    entries.  A block, an arrow function and a try/catch give back the
    environment exactly as they found it: a name that gets its type
    inside one of them is unknown after it. *)
Theorem inference_keeps_enclosing_scopes n env :
  tail (snd (inferType n env)) = tail env
  /\ List.length (snd (inferType n env)) = List.length env
  /\ (forall stmts, snd (inferType (BlockNode stmts) env) = env)
  /\ (forall names body,
        snd (inferType (ArrowFunctionNode names body) env) = env)
  /\ (forall tryBlock catchVar catchBlock x,
        getType (snd (inferType (TryCatchNode tryBlock catchVar catchBlock)
                                env)) x
        = getType env x).
Proof.
  assert (Hall : forall l : list node, Forall stack_kept l).
  { intros l. apply Forall_forall. intros m _. apply inferType_stack. }
  conjuncts.
  - destruct (inferType n env) as [r env'] eqn:E.
    apply inferType_stack in E as [Htail _]. exact Htail.
  - destruct (inferType n env) as [r env'] eqn:E.
    apply inferType_stack in E as [_ Hlen]. exact Hlen.
  - intros stmts. cbn [inferType].
    destruct (infer_scope inferType stmts ∅ env) as [r env'] eqn:E.
    apply infer_scope_same in E; [exact E|apply Hall].
  - intros names body. cbn [inferType].
    destruct (inferType body _) as [[t|m] env1] eqn:E;
      apply inferType_stack in E as [Htail _];
      destruct (same_enclosing_fold names (createChild env)) as [Hfold _];
      cbn [snd]; rewrite Htail, Hfold; reflexivity.
  - intros tryBlock catchVar catchBlock x. cbn [inferType].
    destruct (infer_scope inferType tryBlock ∅ env) as [[t|m] env1] eqn:E;
      apply infer_scope_same in E; try apply Hall; subst env1;
      [|reflexivity].
    destruct (infer_scope inferType catchBlock _ env) as [[t'|m] env2] eqn:E;
      apply infer_scope_same in E; try apply Hall; subst env2; reflexivity.
Qed.

End InferLaws.

(* ===================================================================== *)
(** * Further properties: loops, flags and the top level *)
(* ===================================================================== *)

Module LoopLaws.
Import Types Syntax Runtime Exec Invariants StoreFacts ExecFacts.
Import HeapFacts Samples Further Growth.

#[local] Arguments createChildContext : simpl never.
#[local] Arguments setVariable : simpl never.
#[local] Arguments set_signal : simpl never.

Lemma breakSignal_of_setVariable c ctx name v h :
  breakSignal_of c (setVariable ctx name v h) = breakSignal_of c h.
Proof.
  unfold breakSignal_of, setVariable; cbn [contexts].
  destruct (decide (ctx = c)) as [->|Hne].
  - rewrite list_lookup_alter_eq. destruct (contexts h !! c); reflexivity.
  - rewrite list_lookup_alter_ne by exact Hne. reflexivity.
Qed.

Lemma breakSignal_of_fold c ctx (names : list string) (f : string -> value) h :
  breakSignal_of c
    (fold_left (fun h' name => setVariable ctx name (f name) h') names h)
  = breakSignal_of c h.
Proof.
  revert h. induction names as [|x names IH]; intros h; cbn [fold_left];
    [reflexivity|].
  rewrite IH. apply breakSignal_of_setVariable.
Qed.

(** A context is constructed with its break flag down. *)
Lemma createChildContext_flag ctx h c h1 :
  createChildContext ctx h = (c, h1) -> breakSignal_of c h1 = false.
Proof.
  unfold createChildContext, new_ExecutionContext. intros [= <- <-].
  unfold injectBuiltIns. rewrite breakSignal_of_fold.
  unfold breakSignal_of; cbn [contexts].
  rewrite list_lookup_middle by reflexivity. reflexivity.
Qed.

Lemma breakSignal_of_set_signal ctx h :
  ctx < List.length (contexts h) ->
  breakSignal_of ctx (set_signal ctx SigBreak h) = true.
Proof.
  intros Hctx. unfold breakSignal_of, set_signal; cbn [contexts].
  rewrite list_lookup_alter_eq.
  destruct (contexts h !! ctx) eqn:Hc; [reflexivity|].
  apply lookup_ge_None in Hc. lia.
Qed.

Lemma run_stmts_flag_stays fuel stmts ctx result h c r h' frame :
  run_stmts (execute fuel) stmts ctx result h = (c, r, h') ->
  breakSignal_of frame h = true -> breakSignal_of frame h' = true.
Proof.
  intros Hrun.
  assert (Hgrow : frames_grow h h').
  { revert Hrun.
    apply (frames_grow_preserved
             (fun R => run_stmts (execute fuel) stmts ctx result h = (c, r, h')
                       -> R h h')).
    intros R. intros.
    eapply (Preservation.run_stmts_preserves R); [..|eassumption]; auto.
    intros. eapply (Preservation.execute_preserves R); eassumption. }
  unfold breakSignal_of.
  destruct (contexts h !! frame) as [fr|] eqn:Hfr; [|discriminate].
  destruct (Hgrow _ _ Hfr) as (fr' & -> & _ & _ & Hb & _). exact Hb.
Qed.

(** X22: the break flag a SignalNode raises is lost on a While loop.  The loop
    reads the flag of the child context it creates for the pass, but runs
    the body in the enclosing context, so the flag it reads is never up:
    when the statements of the body complete, the loop always goes on to
    the next condition check. *)
Theorem while_ignores_break_flag fuel k condition body ctx result h h1
    loopCtx h2 result' h3 :
  ctx < List.length (contexts h1) ->
  execute fuel condition ctx h = (Normal (VBool true), h1) ->
  createChildContext ctx h1 = (loopCtx, h2) ->
  run_stmts (execute fuel) body ctx result h2 = (None, result', h3) ->
  breakSignal_of loopCtx h3 = false
  /\ while_loop (execute fuel) (S k) condition body ctx result h
     = while_loop (execute fuel) k condition body ctx result' h3.
Proof.
  intros Hctx Hcond Hchild Hbody.
  assert (Hflag : breakSignal_of loopCtx h3 = false).
  { pose proof (createChildContext_flag _ _ _ _ Hchild) as Hnew.
    pose proof (new_ExecutionContext_index _ _ _ _ Hchild) as (-> & Hlen & _).
    apply (run_stmts_kept _ (execute_local fuel)) in Hbody as (_ & _ & Hkept).
    unfold breakSignal_of in *. rewrite Hkept; [exact Hnew|lia|lia]. }
  split; [exact Hflag|].
  cbn [while_loop]. rewrite Hcond. cbn [negb]. rewrite Hchild, Hbody, Hflag.
  reflexivity.
Qed.

Lemma while_ignores_break_flag_witness :
  let h2 := snd (createChildContext 0 root_heap) in
  let h3 := snd (run_stmts (execute 4) flagged_body 0 VUndefined h2) in
  breakSignal_of 1 h3 = false
  /\ while_loop (execute 4) 1 (LiteralNode (LBool true)) flagged_body 0
       VUndefined root_heap
     = while_loop (execute 4) 0 (LiteralNode (LBool true)) flagged_body 0
         VUndefined h3.
Proof.
  intros h2 h3.
  apply (while_ignores_break_flag 4 0 (LiteralNode (LBool true)) flagged_body
           0 VUndefined root_heap root_heap 1 h2 VUndefined h3).
  - vm_compute. lia.
  - vm_compute. reflexivity.
  - vm_compute. reflexivity.
  - vm_compute. reflexivity.
Defined.

(** X23: on a DoWhile loop the flag works: the body runs in the child context
    whose flag the loop reads.  When a pass whose statements include a
    break SignalNode completes, the loop returns the pass's last value
    without evaluating the condition; the statements after the SignalNode
    in that pass have run. *)
Theorem do_while_honours_break_flag fuel k pre post condition ctx result h
    childCtx h1 result' h2 :
  createChildContext ctx h = (childCtx, h1) ->
  run_stmts (execute fuel) (pre ++ SignalNode SigBreak :: post) childCtx
            result h1
    = (None, result', h2) ->
  breakSignal_of childCtx h2 = true
  /\ do_while_loop (execute fuel) (S k) (pre ++ SignalNode SigBreak :: post)
                   condition ctx result h
     = (Normal result', h2).
Proof.
  intros Hchild Hbody.
  assert (Hflag : breakSignal_of childCtx h2 = true).
  { pose proof (new_ExecutionContext_index _ _ _ _ Hchild) as (Hc & Hlen & _).
    rewrite Signals.run_stmts_app in Hbody.
    destruct (run_stmts (execute fuel) pre childCtx result h1)
      as [[[f|] r1] g1] eqn:Hpre; [discriminate|].
    apply (run_stmts_kept _ (execute_local fuel)) in Hpre as (Hlen1 & _).
    cbn [run_stmts] in Hbody.
    destruct (execute fuel (SignalNode SigBreak) childCtx g1)
      as [[v|f] g2] eqn:Hsig; [|discriminate].
    assert (g2 = set_signal childCtx SigBreak g1) as ->.
    { destruct fuel as [|fuel]; cbn [execute] in Hsig; [discriminate|].
      injection Hsig as _ <-. reflexivity. }
    eapply run_stmts_flag_stays; [exact Hbody|].
    apply breakSignal_of_set_signal. lia. }
  split; [exact Hflag|].
  cbn [do_while_loop]. rewrite Hchild, Hbody, Hflag. reflexivity.
Qed.

Lemma do_while_honours_break_flag_witness :
  let h1 := snd (createChildContext 0 root_heap) in
  let run := run_stmts (execute 4) flagged_body 1 VUndefined h1 in
  breakSignal_of 1 (snd run) = true
  /\ do_while_loop (execute 4) 1 flagged_body (LiteralNode (LBool true)) 0
       VUndefined root_heap
     = (Normal VUndefined, snd run).
Proof.
  intros h1 run.
  apply (do_while_honours_break_flag 4 0 [print (num 1)] [print (num 2)]
           (LiteralNode (LBool true)) 0 VUndefined root_heap 1 h1
           VUndefined (snd run)).
  - vm_compute. reflexivity.
  - vm_compute. reflexivity.
Defined.

Lemma for_each_loop_absorbs exec itemName body ctx items :
  forall result h r h',
    for_each_loop exec itemName body ctx items result h = (r, h') ->
    loop_signal r = false.
Proof.
  induction items as [|item rest IH]; intros result h r h';
    cbn [for_each_loop].
  - intros [= <- <-]. reflexivity.
  - destruct (createChildContext ctx h) as [lc h1].
    destruct (run_stmts exec body lc result _) as [[[[[m|v| |]| |]|] res] h2];
      try (intros [= <- <-]; reflexivity); apply IH.
Qed.

Lemma while_loop_absorbs exec k condition body ctx :
  (forall g, loop_signal (fst (exec condition ctx g)) = false) ->
  forall result h r h',
    while_loop exec k condition body ctx result h = (r, h') ->
    loop_signal r = false.
Proof.
  intros Hcond. induction k as [|k IH]; intros result h r h';
    cbn [while_loop].
  - intros [= <- <-]. reflexivity.
  - specialize (Hcond h).
    destruct (exec condition ctx h) as [[c|f] h1]; cbn [fst] in Hcond;
      [|intros [= <- <-]; exact Hcond].
    destruct c; try (intros [= <- <-]; reflexivity).
    destruct b; cbn [negb]; [|intros [= <- <-]; reflexivity].
    destruct (createChildContext ctx h1) as [lc h2].
    destruct (run_stmts exec body ctx result h2)
      as [[[[[m|v| |]| |]|] res] h3];
      try (intros [= <- <-]; reflexivity); try apply IH.
    destruct (breakSignal_of lc h3); [intros [= <- <-]; reflexivity|apply IH].
Qed.

Lemma do_while_loop_absorbs exec k body condition ctx :
  (forall g, loop_signal (fst (exec condition ctx g)) = false) ->
  forall result h r h',
    do_while_loop exec k body condition ctx result h = (r, h') ->
    loop_signal r = false.
Proof.
  intros Hcond. induction k as [|k IH]; intros result h r h';
    cbn [do_while_loop].
  - intros [= <- <-]. reflexivity.
  - destruct (createChildContext ctx h) as [lc h1].
    assert (Hagain : forall res g,
      match exec condition ctx g with
      | (Normal c, h3) =>
          if truthy c
          then do_while_loop exec k body condition ctx res h3
          else (Normal res, h3)
      | (Fail f, h3) => (Fail f, h3)
      end = (r, h') -> loop_signal r = false).
    { intros res g. specialize (Hcond g).
      destruct (exec condition ctx g) as [[c|f] h3]; cbn [fst] in Hcond;
        [|intros [= <- <-]; exact Hcond].
      destruct (truthy c); [apply IH|intros [= <- <-]; reflexivity]. }
    destruct (run_stmts exec body lc result h1)
      as [[[[[m|v| |]| |]|] res] h2];
      try (intros [= <- <-]; reflexivity); try apply Hagain.
    destruct (breakSignal_of lc h2);
      [intros [= <- <-]; reflexivity|apply Hagain].
Qed.

Lemma for_loop_absorbs exec k condition update body ctx :
  (forall g, loop_signal (fst (exec condition ctx g)) = false) ->
  (forall g, loop_signal (fst (exec update ctx g)) = false) ->
  forall result h r h',
    for_loop exec k condition update body ctx result h = (r, h') ->
    loop_signal r = false.
Proof.
  intros Hcond Hupd. induction k as [|k IH]; intros result h r h';
    cbn [for_loop].
  - intros [= <- <-]. reflexivity.
  - specialize (Hcond h).
    destruct (exec condition ctx h) as [[c|f] h1]; cbn [fst] in Hcond;
      [|intros [= <- <-]; exact Hcond].
    destruct c; try (intros [= <- <-]; reflexivity).
    destruct b; cbn [negb]; [|intros [= <- <-]; reflexivity].
    destruct (createChildContext ctx h1) as [lc h2].
    assert (Hnext : forall res g,
      match exec update ctx g with
      | (Normal _, h4) => for_loop exec k condition update body ctx res h4
      | (Fail f, h4) => (Fail f, h4)
      end = (r, h') -> loop_signal r = false).
    { intros res g. specialize (Hupd g).
      destruct (exec update ctx g) as [[u|f] h4]; cbn [fst] in Hupd;
        [apply IH|intros [= <- <-]; exact Hupd]. }
    destruct (run_stmts exec body lc result h2)
      as [[[[[m|v| |]| |]|] res] h3];
      try (intros [= <- <-]; reflexivity); try apply Hnext.
    pose proof (Hupd h3) as Hu.
    destruct (exec update ctx h3) as [[u|f] h4]; cbn [fst] in Hu; [apply IH|].
    destruct f as [[m|v| |]| |]; try discriminate;
      intros [= <- <-]; reflexivity.
Qed.

(** X24: a loop never lets out a Break or a Continue that its body raised.  A
    ForEach lets none out at all once its iterable is evaluated; a While,
    a DoWhile and a For can only end in one when the condition (or the
    init or update of the For) raises it. *)
Theorem loops_absorb_body_signals fuel ctx h r h' :
  (forall itemName iterable body v h1,
      execute fuel iterable ctx h = (Normal v, h1) ->
      execute (S fuel) (ForEachNode itemName iterable body) ctx h = (r, h') ->
      loop_signal r = false)
  /\ (forall condition body,
        (forall g, loop_signal (fst (execute fuel condition ctx g)) = false) ->
        execute (S fuel) (WhileNode condition body) ctx h = (r, h') ->
        loop_signal r = false)
  /\ (forall condition body,
        (forall g, loop_signal (fst (execute fuel condition ctx g)) = false) ->
        execute (S fuel) (DoWhileNode body condition) ctx h = (r, h') ->
        loop_signal r = false)
  /\ (forall init condition update body,
        loop_signal (fst (execute fuel init ctx h)) = false ->
        (forall g, loop_signal (fst (execute fuel condition ctx g)) = false) ->
        (forall g, loop_signal (fst (execute fuel update ctx g)) = false) ->
        execute (S fuel) (ForNode init condition update body) ctx h = (r, h') ->
        loop_signal r = false).
Proof.
  conjuncts.
  - intros itemName iterable body v h1 Hiter. cbn [execute]. unfold bind.
    rewrite Hiter. destruct v; try (intros [= <- <-]; reflexivity).
    apply for_each_loop_absorbs.
  - intros condition body Hcond. cbn [execute].
    apply while_loop_absorbs, Hcond.
  - intros condition body Hcond. cbn [execute].
    apply do_while_loop_absorbs, Hcond.
  - intros init condition update body Hinit Hcond Hupd. cbn [execute].
    unfold bind. destruct (execute fuel init ctx h) as [[v|f] h1];
      cbn [fst] in Hinit; [|intros [= <- <-]; exact Hinit].
    apply for_loop_absorbs; assumption.
Qed.

(** On two runs: [continue] in a ForEach body goes on with the next item,
    [break] ends the loop; neither leaves it. *)
Lemma each_signals_example :
  fst (execute 6 each_continues 0 root_heap) = Normal VUndefined
  /\ console (snd (execute 6 each_continues 0 root_heap))
     = [[VNum 1]; [VNum 2]; [VNum 3]]
  /\ fst (execute 6 each_breaks 0 root_heap) = Normal VUndefined
  /\ console (snd (execute 6 each_breaks 0 root_heap)) = [[VNum 1]].
Proof. conjuncts; vm_compute; reflexivity. Qed.

(** X25: the interpreter stops at the first top-level node that raises: the
    run ends in what that node raised (an error, or a Return, Break or
    Continue signal, which nothing catches at the top level), and the
    nodes after it do not run.  A program that completes is a prefix of
    any longer program: the rest runs on in the store it left. *)
Theorem interpreter_stops_at_first_failure fuel pre post :
  (forall f h,
      Interpreter_execute fuel pre = (Fail f, h) ->
      Interpreter_execute fuel (pre ++ post) = (Fail f, h))
  /\ (forall context h,
        Interpreter_execute fuel pre = (Normal context, h) ->
        exists last,
          Interpreter_execute fuel (pre ++ post) =
          match run_stmts (execute fuel) post context last h with
          | (None, _, h') => (Normal context, h')
          | (Some f, _, h') => (Fail f, h')
          end).
Proof.
  unfold Interpreter_execute.
  destruct (new_ExecutionContext None empty_heap) as [context0 h0].
  rewrite Signals.run_stmts_app.
  destruct (run_stmts (execute fuel) pre context0 VUndefined h0)
    as [[[f0|] r1] g1]; split.
  - intros f h [= <- <-]. reflexivity.
  - intros context h [=].
  - intros f h [=].
  - intros context h [= <- <-]. exists r1. reflexivity.
Qed.

End LoopLaws.

(* ===================================================================== *)
(** * The embedding: outcomes do not depend on the fuel *)
(* ===================================================================== *)

Module FuelLaws.
Import Types Syntax Runtime Exec Invariants StoreFacts ExecFacts.
Import Samples Further.

#[local] Arguments createChildContext : simpl never.
#[local] Arguments setVariable : simpl never.
#[local] Arguments set_signal : simpl never.
#[local] Arguments toFunction : simpl never.
#[local] Arguments call_builtin : simpl never.
#[local] Arguments getVariable : simpl never.
#[local] Arguments apply_operator : simpl never.

Lemma settles_refl {A} (m : M A) : settles m m.
Proof. intros h r h' H _. exact H. Qed.

Lemma settles_bind {A B} (m1 m2 : M A) (k1 k2 : A -> M B) :
  settles m1 m2 -> (forall a, settles (k1 a) (k2 a)) ->
  settles (bind m1 k1) (bind m2 k2).
Proof.
  intros Hm Hk h r h' H Hr. unfold bind in *.
  destruct (m1 h) as [[a|f] h1] eqn:E.
  - rewrite (Hm _ _ _ E) by discriminate. eapply Hk; eassumption.
  - injection H as <- <-. rewrite (Hm _ _ _ E) by congruence. reflexivity.
Qed.

Section Settled.

Variables e1 e2 : node -> nat -> M value.
Hypothesis Hle : forall n ctx, settles (e1 n ctx) (e2 n ctx).

Lemma run_stmts_settles stmts : forall ctx result h c r h',
  run_stmts e1 stmts ctx result h = (c, r, h') ->
  c <> Some OutOfFuel ->
  run_stmts e2 stmts ctx result h = (c, r, h').
Proof.
  induction stmts as [|stmt rest IH]; intros ctx result h c r h';
    cbn [run_stmts]; [auto|].
  destruct (e1 stmt ctx h) as [[v|f] h1] eqn:E.
  - rewrite (Hle _ _ _ _ _ E) by discriminate. apply IH.
  - intros [= <- <- <-] Hc. rewrite (Hle _ _ _ _ _ E) by congruence.
    reflexivity.
Qed.

Ltac body_settles Eb H Hr :=
  match type of Eb with
  | run_stmts e1 _ _ _ _ = (?cmp, _, _) =>
      let Hc := fresh "Hc" in
      assert (Hc : cmp <> Some OutOfFuel)
        by (intros ->; cbn in H; simplify_eq; congruence);
      apply run_stmts_settles in Eb; [|exact Hc]; rewrite Eb
  end.

Lemma run_scope_settles stmts ctx :
  settles (run_scope e1 stmts ctx) (run_scope e2 stmts ctx).
Proof.
  intros h r h' H Hr. unfold run_scope in *.
  destruct (createChildContext ctx h) as [c h1].
  destruct (run_stmts e1 stmts c VUndefined h1) as [[cmp res] h2] eqn:Eb.
  body_settles Eb H Hr. exact H.
Qed.

Lemma call_fn_settles params body outer args :
  settles (call_fn e1 params body outer args)
          (call_fn e2 params body outer args).
Proof.
  intros h r h' H Hr. unfold call_fn in *.
  destruct (createChildContext outer h) as [c h1].
  destruct (negb _); [exact H|].
  destruct (run_stmts e1 body c VUndefined _) as [[cmp res] h2] eqn:Eb.
  body_settles Eb H Hr. exact H.
Qed.

Lemma call_arrow_settles names body context args :
  settles (call_arrow e1 names body context args)
          (call_arrow e2 names body context args).
Proof.
  intros h r h' H Hr. unfold call_arrow in *.
  destruct (createChildContext context h) as [c h1].
  apply Hle; assumption.
Qed.

Lemma memoize_settles fn1 fn2 cid args :
  settles (fn1 args) (fn2 args) ->
  settles (memoize fn1 cid args) (memoize fn2 cid args).
Proof.
  intros Hfn h r h' H Hr. unfold memoize in *.
  destruct (JSON_stringify args) as [key|]; [|exact H].
  destruct (cache_lookup cid key h); [exact H|].
  destruct (fn1 args h) as [[v|f] h1] eqn:E.
  - rewrite (Hfn _ _ _ E) by discriminate. exact H.
  - injection H as <- <-. rewrite (Hfn _ _ _ E) by exact Hr. reflexivity.
Qed.

Lemma call_value_settles f args :
  settles (call_value e1 f args) (call_value e2 f args).
Proof.
  destruct f; cbn [call_value]; try apply settles_refl.
  - destruct cache.
    + apply memoize_settles, call_fn_settles.
    + apply call_fn_settles.
  - apply call_arrow_settles.
Qed.

Lemma eval_args_settles args : forall ctx,
  settles (eval_args e1 args ctx) (eval_args e2 args ctx).
Proof.
  induction args as [|arg rest IH]; intros ctx; cbn [eval_args].
  - apply settles_refl.
  - apply settles_bind.
    + destruct arg; try apply Hle. apply settles_refl.
    + intros v. apply settles_bind; [apply IH|intros; apply settles_refl].
Qed.

Lemma exec_list_settles elements : forall ctx,
  settles (exec_list e1 elements ctx) (exec_list e2 elements ctx).
Proof.
  induction elements as [|el rest IH]; intros ctx; cbn [exec_list].
  - apply settles_refl.
  - apply settles_bind; [apply Hle|].
    intros v. apply settles_bind; [apply IH|intros; apply settles_refl].
Qed.

Lemma exec_props_settles properties : forall ctx,
  settles (exec_props e1 properties ctx) (exec_props e2 properties ctx).
Proof.
  induction properties as [|[key el] rest IH]; intros ctx; cbn [exec_props].
  - apply settles_refl.
  - apply settles_bind; [apply Hle|].
    intros v. apply settles_bind; [apply IH|intros; apply settles_refl].
Qed.

Lemma while_loop_settles k : forall k' condition body ctx result,
  k <= k' ->
  settles (while_loop e1 k condition body ctx result)
          (while_loop e2 k' condition body ctx result).
Proof.
  induction k as [|k IH]; intros k' condition body ctx result Hk h r h' H Hr.
  - cbn in H. simplify_eq; congruence.
  - destruct k' as [|k']; [lia|]. cbn [while_loop] in *.
    destruct (e1 condition ctx h) as [[c|f] h1] eqn:Ec.
    + rewrite (Hle _ _ _ _ _ Ec) by discriminate.
      destruct c; try exact H. destruct b; cbn [negb] in *; [|exact H].
      destruct (createChildContext ctx h1) as [lc h2].
      destruct (run_stmts e1 body ctx result h2) as [[cmp res] h3] eqn:Eb.
      body_settles Eb H Hr.
      destruct cmp as [[[m|v| |]| |]|]; try exact H.
      * apply IH; [lia|exact H|exact Hr].
      * destruct (breakSignal_of lc h3); [exact H|].
        apply IH; [lia|exact H|exact Hr].
    + injection H as <- <-. rewrite (Hle _ _ _ _ _ Ec) by exact Hr.
      reflexivity.
Qed.

Lemma for_loop_settles k : forall k' condition update body ctx result,
  k <= k' ->
  settles (for_loop e1 k condition update body ctx result)
          (for_loop e2 k' condition update body ctx result).
Proof.
  induction k as [|k IH];
    intros k' condition update body ctx result Hk h r h' H Hr.
  - cbn in H. simplify_eq; congruence.
  - destruct k' as [|k']; [lia|]. cbn [for_loop] in *.
    destruct (e1 condition ctx h) as [[c|f] h1] eqn:Ec.
    + rewrite (Hle _ _ _ _ _ Ec) by discriminate.
      destruct c; try exact H. destruct b; cbn [negb] in *; [|exact H].
      destruct (createChildContext ctx h1) as [lc h2].
      destruct (run_stmts e1 body lc result h2) as [[cmp res] h3] eqn:Eb.
      assert (Hc : cmp <> Some OutOfFuel)
        by (intros ->; cbn in H; simplify_eq; congruence).
      apply run_stmts_settles in Eb; [|exact Hc]. rewrite Eb.
      destruct cmp as [[[m|v| |]| |]|]; try exact H.
      * (* Continue from the body: the update, then the next pass *)
        destruct (e1 update ctx h3) as [[u|f] h4] eqn:Eu.
        -- rewrite (Hle _ _ _ _ _ Eu) by discriminate.
           apply IH; [lia|exact H|exact Hr].
        -- injection H as <- <-. rewrite (Hle _ _ _ _ _ Eu) by exact Hr.
           reflexivity.
      * (* the body completed: the update inside the try *)
        destruct (e1 update ctx h3) as [[u|f] h4] eqn:Eu.
        -- rewrite (Hle _ _ _ _ _ Eu) by discriminate.
           apply IH; [lia|exact H|exact Hr].
        -- assert (Hf : f <> OutOfFuel).
           { intros ->. cbn in H. simplify_eq; congruence. }
           rewrite (Hle _ _ _ _ _ Eu) by congruence.
           destruct f as [[m|v| |]| |]; try exact H.
           destruct (e1 update ctx h4) as [[u|f] h5] eqn:Eu2.
           ++ rewrite (Hle _ _ _ _ _ Eu2) by discriminate.
              apply IH; [lia|exact H|exact Hr].
           ++ injection H as <- <-. rewrite (Hle _ _ _ _ _ Eu2) by exact Hr.
              reflexivity.
    + injection H as <- <-. rewrite (Hle _ _ _ _ _ Ec) by exact Hr.
      reflexivity.
Qed.

Lemma do_while_loop_settles k : forall k' body condition ctx result,
  k <= k' ->
  settles (do_while_loop e1 k body condition ctx result)
          (do_while_loop e2 k' body condition ctx result).
Proof.
  induction k as [|k IH]; intros k' body condition ctx result Hk h r h' H Hr.
  - cbn in H. simplify_eq; congruence.
  - destruct k' as [|k']; [lia|]. cbn [do_while_loop] in *.
    destruct (createChildContext ctx h) as [lc h1].
    destruct (run_stmts e1 body lc result h1) as [[cmp res] h2] eqn:Eb.
    body_settles Eb H Hr.
    assert (Hagain :
      forall g,
        match e1 condition ctx g with
        | (Normal c, h3) =>
            if truthy c
            then do_while_loop e1 k body condition ctx res h3
            else (Normal res, h3)
        | (Fail f, h3) => (Fail f, h3)
        end = (r, h') ->
        match e2 condition ctx g with
        | (Normal c, h3) =>
            if truthy c
            then do_while_loop e2 k' body condition ctx res h3
            else (Normal res, h3)
        | (Fail f, h3) => (Fail f, h3)
        end = (r, h')).
    { intros g Hg.
      destruct (e1 condition ctx g) as [[c|f] h3] eqn:Ec.
      - rewrite (Hle _ _ _ _ _ Ec) by discriminate.
        destruct (truthy c); [|exact Hg]. apply IH; [lia|exact Hg|exact Hr].
      - injection Hg as <- <-. rewrite (Hle _ _ _ _ _ Ec) by exact Hr.
        reflexivity. }
    destruct cmp as [[[m|v| |]| |]|]; try exact H.
    + apply Hagain, H.
    + destruct (breakSignal_of lc h2); [exact H|apply Hagain, H].
Qed.

Lemma for_each_loop_settles itemName body ctx items : forall result,
  settles (for_each_loop e1 itemName body ctx items result)
          (for_each_loop e2 itemName body ctx items result).
Proof.
  induction items as [|item rest IH]; intros result h r h' H Hr;
    cbn [for_each_loop] in *; [exact H|].
  destruct (createChildContext ctx h) as [lc h1].
  destruct (run_stmts e1 body lc result _) as [[cmp res] h2] eqn:Eb.
  body_settles Eb H Hr.
  destruct cmp as [[[m|v| |]| |]|]; try exact H;
    (apply IH; [exact H|exact Hr]).
Qed.

Lemma switch_cases_settles v cases defaultCase ctx :
  settles (switch_cases e1 v cases defaultCase ctx)
          (switch_cases e2 v cases defaultCase ctx).
Proof.
  induction cases as [|[m body] rest IH]; cbn [switch_cases].
  - destruct defaultCase; [apply run_scope_settles|apply settles_refl].
  - apply settles_bind; [apply Hle|]. intros mv.
    destruct (strict_eq v mv) as [[|]|];
      [apply run_scope_settles|exact IH|apply settles_refl].
Qed.

Lemma try_catch_settles tryBlock catchVar catchBlock ctx :
  settles (try_catch e1 tryBlock catchVar catchBlock ctx)
          (try_catch e2 tryBlock catchVar catchBlock ctx).
Proof.
  intros h r h' H Hr. unfold try_catch in *.
  destruct (createChildContext ctx h) as [tc h1].
  destruct (run_stmts e1 tryBlock tc VUndefined h1) as [[cmp res] h2] eqn:Eb.
  body_settles Eb H Hr.
  destruct cmp as [[[m|v| |]| |]|]; try exact H.
  destruct (createChildContext ctx h2) as [cc h3].
  destruct (run_stmts e1 catchBlock cc VUndefined _) as [[cmp' res'] h4] eqn:Ec.
  assert (Hc' : cmp' <> Some OutOfFuel)
    by (intros ->; cbn in H; simplify_eq; congruence).
  apply run_stmts_settles in Ec; [|exact Hc']. rewrite Ec. exact H.
Qed.

End Settled.

Lemma execute_step_settles fuel fuel1 :
  fuel <= fuel1 ->
  (forall n ctx, settles (execute fuel n ctx) (execute fuel1 n ctx)) ->
  forall n ctx, settles (execute (S fuel) n ctx) (execute (S fuel1) n ctx).
Proof.
  intros Hk Hle n ctx. destruct n; cbn [execute];
    try apply settles_refl.
  - (* VariableDeclarationNode *)
    destruct (decide (varType = VTfunction)); [apply settles_refl|].
    apply settles_bind; [apply Hle|intros; apply settles_refl].
  - apply settles_bind; [apply Hle|intros; apply settles_refl].
  - apply settles_bind; [apply Hle|intros; apply settles_refl].
  - apply settles_bind; [apply Hle|intros; apply settles_refl].
  - (* FunctionCallNode *)
    apply settles_bind; [apply settles_refl|]. intros f.
    destruct (negb _); [apply settles_refl|].
    apply settles_bind; [apply eval_args_settles, Hle|].
    intros vs. apply call_value_settles, Hle.
  - (* OperatorNode *)
    apply settles_bind; [apply Hle|]. intros lv.
    apply settles_bind; [apply Hle|intros; apply settles_refl].
  - apply settles_bind; [apply exec_list_settles, Hle|].
    intros; apply settles_refl.
  - apply settles_bind; [apply exec_props_settles, Hle|].
    intros; apply settles_refl.
  - apply run_scope_settles, Hle.
  - (* IfNode *)
    apply settles_bind; [apply Hle|]. intros c.
    destruct c; try apply settles_refl. apply run_scope_settles, Hle.
  - apply while_loop_settles; [exact Hle|exact Hk].
  - apply settles_bind; [apply Hle|]. intros _.
    apply for_loop_settles; [exact Hle|exact Hk].
  - apply settles_bind; [apply Hle|]. intros v.
    apply switch_cases_settles, Hle.
  - apply do_while_loop_settles; [exact Hle|exact Hk].
  - (* ForEachNode *)
    apply settles_bind; [apply Hle|]. intros v.
    destruct v; try apply settles_refl. apply for_each_loop_settles, Hle.
  - apply try_catch_settles, Hle.
Qed.

Lemma execute_settles fuel : forall fuel' n ctx,
  fuel <= fuel' -> settles (execute fuel n ctx) (execute fuel' n ctx).
Proof.
  induction fuel as [|fuel IH]; intros fuel' n ctx Hk.
  - intros h r h' H Hr. cbn in H. unfold fail in H. simplify_eq; congruence.
  - destruct fuel' as [|fuel1]; [lia|].
    apply execute_step_settles; [lia|].
    intros n' ctx'. apply IH. lia.
Qed.

(** A fact about the embedding, not about the interpreter, which has no
    bound of this kind: an outcome of [execute] other than [OutOfFuel] does
    not depend on the fuel it was computed with.  With any larger fuel the
    node ends in the same value, error or signal, in the same store. *)
Lemma result_independent_of_fuel fuel fuel' n ctx h r h' :
  execute fuel n ctx h = (r, h') ->
  r <> Fail OutOfFuel ->
  fuel <= fuel' ->
  execute fuel' n ctx h = (r, h').
Proof.
  intros Hexec Hr Hk. eapply execute_settles; eassumption.
Qed.

Lemma result_independent_of_fuel_example :
  let n := BlockNode count_to_three in
  execute 40 n 0 root_heap
  = (fst (execute 8 n 0 root_heap), snd (execute 8 n 0 root_heap)).
Proof.
  intros n.
  apply (result_independent_of_fuel 8 40 n 0 root_heap).
  - vm_compute. reflexivity.
  - vm_compute. discriminate.
  - lia.
Qed.

(** That run: the loop makes three passes and the block returns 3. *)
Lemma count_to_three_result :
  fst (execute 8 (BlockNode count_to_three) 0 root_heap) = Normal (VNum 3).
Proof. vm_compute. reflexivity. Qed.

End FuelLaws.

(* ===================================================================== *)
(** * Further properties: literals and function expressions *)
(* ===================================================================== *)

Module LiteralLaws.
Import Types Syntax Runtime Exec Infer Invariants StoreFacts ExecFacts.
Import Samples Further.

#[local] Arguments createChildContext : simpl never.
#[local] Arguments setVariable : simpl never.
#[local] Arguments getVariable : simpl never.

(** X27: on a literal that holds a number, a string, a boolean, [null],
    [undefined] or a bigint, the two passes agree.  Such a literal evaluates
    to its scalar and is given the type whose name is what the run-time
    check calls the scalar; and a declaration with such a literal as its
    initializer executes successfully exactly when its declared kind is the
    name of the type inference gives the literal. *)
Theorem literal_declaration_agrees fuel k name l ctx h env :
  execute (S fuel) (LiteralNode l) ctx h = (Normal (value_of_literal l), h)
  /\ inferType (LiteralNode l) env = (Inferred (literal_type l), env)
  /\ typeToString (literal_type l) = got_name (value_of_literal l)
  /\ (fst (execute (S (S fuel))
             (VariableDeclarationNode k name (LiteralNode l)) ctx h)
      = Normal (value_of_literal l)
      <-> varTypes_name k = typeToString (literal_type l)).
Proof.
  conjuncts.
  - reflexivity.
  - reflexivity.
  - destruct l; reflexivity.
  - destruct k, l; vm_compute; split; intros H;
      first [reflexivity | discriminate].
Qed.

Lemma infer_elements_agree elementType pre : forall rest env env2,
  agree_prefix elementType pre env = Some env2 ->
  infer_elements inferType (pre ++ rest) elementType env
  = infer_elements inferType rest elementType env2.
Proof.
  induction pre as [|el pre IH]; intros rest env env2;
    cbn [agree_prefix app infer_elements].
  - intros [= ->]. reflexivity.
  - destruct (inferType el env) as [[t|m] env1]; [|discriminate].
    destruct (compareTypes elementType t); [|discriminate].
    cbn [negb]. apply IH.
Qed.

(** X28: inference of an array literal stops at the first element whose type
    differs from the first element's: the array gets element type "any"
    and the elements after that one are never looked at, so whatever is
    wrong with them goes unnoticed.  When every element agrees, the
    array gets the first element's type. *)
Theorem array_inference_stops_at_mismatch first env elementType env1 :
  inferType first env = (Inferred elementType, env1) ->
  (forall pre el post env2 t env3,
      agree_prefix elementType pre env1 = Some env2 ->
      inferType el env2 = (Inferred t, env3) ->
      compareTypes elementType t = false ->
      inferType (ArrayLiteralNode (first :: pre ++ el :: post)) env
      = (Inferred (TArray (TPrim Tany)), env3))
  /\ (forall rest env2,
        agree_prefix elementType rest env1 = Some env2 ->
        inferType (ArrayLiteralNode (first :: rest)) env
        = (Inferred (TArray elementType), env2)).
Proof.
  intros Hfirst. split.
  - intros pre el post env2 t env3 Hpre Hel Hdiff.
    cbn [inferType]. rewrite Hfirst.
    rewrite (infer_elements_agree _ _ _ _ _ Hpre).
    cbn [infer_elements]. rewrite Hel, Hdiff. reflexivity.
  - intros rest env2 Hall. cbn [inferType]. rewrite Hfirst.
    rewrite <- (app_nil_r rest).
    rewrite (infer_elements_agree _ _ _ _ _ Hall). reflexivity.
Qed.

Lemma array_inference_stops_at_mismatch_witness :
  (forall pre el post env2 t env3,
      agree_prefix (TPrim Tnumber) pre root_environment = Some env2 ->
      inferType el env2 = (Inferred t, env3) ->
      compareTypes (TPrim Tnumber) t = false ->
      inferType (ArrayLiteralNode (num 1 :: pre ++ el :: post))
                root_environment
      = (Inferred (TArray (TPrim Tany)), env3))
  /\ (forall rest env2,
        agree_prefix (TPrim Tnumber) rest root_environment = Some env2 ->
        inferType (ArrayLiteralNode (num 1 :: rest)) root_environment
        = (Inferred (TArray (TPrim Tnumber)), env2)).
Proof.
  apply (array_inference_stops_at_mismatch (num 1) root_environment
           (TPrim Tnumber) root_environment).
  vm_compute. reflexivity.
Defined.

(** On the sample: the array is accepted although its last element is an
    undefined variable, which inference rejects on its own. *)
Lemma mixed_array_is_accepted :
  fst (inferType mixed_array root_environment)
    = Inferred (TArray (TPrim Tany))
  /\ fst (inferType (var "missing") root_environment)
     = Rejected "Undefined variable (type): missing".
Proof. conjuncts; vm_compute; reflexivity. Qed.

Lemma eval_args_stops exec pre : forall arg post ctx h vs h1 f h2,
  eval_args exec pre ctx h = (Normal vs, h1) ->
  (forall fname params body dpt drt pure,
      arg <> FunctionLiteralNode fname params body dpt drt pure) ->
  exec arg ctx h1 = (Fail f, h2) ->
  eval_args exec (pre ++ arg :: post) ctx h = (Fail f, h2).
Proof.
  induction pre as [|p pre IH]; intros arg post ctx h vs h1 f h2 Hpre Harg Hfail.
  - cbn [eval_args] in Hpre. unfold ret in Hpre. injection Hpre as <- <-.
    cbn [app eval_args]. unfold bind.
    destruct arg; try (rewrite Hfail; reflexivity).
    exfalso. eapply Harg. reflexivity.
  - cbn [app eval_args] in *.
    apply bind_inv in Hpre as [(v & g & Ep & Hpre)|(f' & _ & ?)];
      [|discriminate].
    apply bind_inv in Hpre as [(ws & g' & Erest & Hpre)|(f' & _ & ?)];
      [|discriminate].
    unfold ret in Hpre. injection Hpre as <- <-.
    unfold bind at 1. rewrite Ep.
    unfold bind at 1.
    rewrite (IH arg post ctx g ws g' f h2 Erest Harg Hfail). reflexivity.
Qed.

Lemma eval_args_converts exec pre : forall fname params body dpt drt pure
    ctx h vs h1,
  eval_args exec pre ctx h = (Normal vs, h1) ->
  eval_args exec (pre ++ [FunctionLiteralNode fname params body dpt drt pure])
            ctx h
  = (Normal (vs ++ [fst (toFunction params body pure ctx h1)]),
     snd (toFunction params body pure ctx h1)).
Proof.
  induction pre as [|p pre IH];
    intros fname params body dpt drt pure ctx h vs h1 Hpre.
  - cbn [eval_args] in Hpre. unfold ret in Hpre. injection Hpre as <- <-.
    cbn [app eval_args]. unfold bind, ret.
    destruct (toFunction params body pure ctx h) as [f h']. reflexivity.
  - cbn [app eval_args] in *.
    apply bind_inv in Hpre as [(v & g & Ep & Hpre)|(f' & _ & ?)];
      [|discriminate].
    apply bind_inv in Hpre as [(ws & g' & Erest & Hpre)|(f' & _ & ?)];
      [|discriminate].
    unfold ret in Hpre. injection Hpre as <- <-.
    unfold bind at 1. rewrite Ep.
    unfold bind at 1.
    rewrite (IH fname params body dpt drt pure ctx g ws g' Erest).
    reflexivity.
Qed.

(** X29: functions are not expressions.  Executing an arrow function or a
    function literal raises, so neither can be assigned or returned, and an
    arrow function passed as an argument makes the call raise before the
    callee runs, once the arguments before it are evaluated.  What converts
    them to a callable is a declaration of kind "function", for either
    form, and a call, for a function literal among its arguments. *)
Theorem function_expressions_raise fuel names body fname params stmts dpt drt
    pure ctx h :
  let arrow := ArrowFunctionNode names body in
  let literal := FunctionLiteralNode fname params stmts dpt drt pure in
  let arrow_error :=
    JsError
      "Arrow function must be transformed into a callable via toFunction()." in
  let literal_error :=
    JsError
      "Function literal must be transformed into a callable via toFunction()." in
  execute (S fuel) arrow ctx h = (Throw arrow_error, h)
  /\ execute (S fuel) literal ctx h = (Throw literal_error, h)
  /\ (forall x,
        execute (S (S fuel)) (AssignmentNode x arrow) ctx h
        = (Throw arrow_error, h)
        /\ execute (S (S fuel)) (AssignmentNode x literal) ctx h
           = (Throw literal_error, h))
  /\ execute (S (S fuel)) (ReturnNode arrow) ctx h = (Throw arrow_error, h)
  /\ execute (S (S fuel)) (ReturnNode literal) ctx h = (Throw literal_error, h)
  /\ (forall functionName pre post f vs h1,
        fst (getVariable ctx functionName h) = Normal f ->
        js_typeof f = "function" ->
        eval_args (execute (S fuel)) pre ctx h = (Normal vs, h1) ->
        execute (S (S fuel)) (FunctionCallNode functionName
                                (pre ++ arrow :: post)) ctx h
        = (Throw arrow_error, h1))
  /\ (forall functionName pre f vs h1,
        fst (getVariable ctx functionName h) = Normal f ->
        js_typeof f = "function" ->
        eval_args (execute (S fuel)) pre ctx h = (Normal vs, h1) ->
        execute (S (S fuel)) (FunctionCallNode functionName
                                (pre ++ [literal])) ctx h
        = call_value (execute (S fuel)) f
            (vs ++ [fst (toFunction params stmts pure ctx h1)])
            (snd (toFunction params stmts pure ctx h1)))
  /\ (forall x,
        execute (S fuel) (VariableDeclarationNode VTfunction x arrow) ctx h
        = (Normal (VArrow names body ctx),
           setVariable ctx x (VArrow names body ctx) h))
  /\ (forall x,
        execute (S fuel) (VariableDeclarationNode VTfunction x literal) ctx h
        = (Normal (fst (toFunction params stmts pure ctx h)),
           setVariable ctx x (fst (toFunction params stmts pure ctx h))
                       (snd (toFunction params stmts pure ctx h)))).
Proof.
  intros arrow literal arrow_error literal_error. conjuncts; try reflexivity.
  - intros x. split; reflexivity.
  - intros functionName pre post f vs h1 Hf Hfun Hpre.
    remember (S fuel) as fuel1 eqn:Hfuel.
    cbn [execute]. unfold bind at 1.
    unfold getVariable in *. cbn [fst] in Hf. rewrite Hf.
    rewrite Hfun. rewrite bool_decide_eq_true_2 by reflexivity. cbn [negb].
    unfold bind at 1.
    rewrite (eval_args_stops _ pre arrow post ctx h vs h1 (Thrown arrow_error) h1
               Hpre); [reflexivity|discriminate|subst fuel1; reflexivity].
  - intros functionName pre f vs h1 Hf Hfun Hpre.
    remember (S fuel) as fuel1 eqn:Hfuel.
    cbn [execute]. unfold bind at 1.
    unfold getVariable in *. cbn [fst] in Hf. rewrite Hf.
    rewrite Hfun. rewrite bool_decide_eq_true_2 by reflexivity. cbn [negb].
    unfold bind at 1. subst literal.
    rewrite (eval_args_converts _ pre fname params stmts dpt drt pure ctx h vs
               h1 Hpre). reflexivity.
  - intros x. subst literal. cbn [execute].
    rewrite decide_True by reflexivity.
    destruct (toFunction params stmts pure ctx h) as [val h1]. reflexivity.
Qed.

(** [print(1, (v) => v)] raises before anything is printed. *)
Lemma arrow_argument_example :
  let call := FunctionCallNode "print"
                [num 1; ArrowFunctionNode ["v"] (var "v")] in
  execute 4 call 0 root_heap
  = (Throw (JsError
       "Arrow function must be transformed into a callable via toFunction()."),
     root_heap).
Proof. vm_compute. reflexivity. Qed.

(** [typeOf(function () { return 1 })] converts its argument and answers
    "function". *)
Lemma literal_argument_example :
  let call := FunctionCallNode "typeOf"
                [FunctionLiteralNode None [] [ReturnNode (num 1)] None None
                                     false] in
  execute 4 call 0 root_heap = (Normal (VStr "function"), root_heap).
Proof. vm_compute. reflexivity. Qed.

End LiteralLaws.
